(** * Simulated Souls: the resilient AI-call layer of [services/geminiService.ts]

    A shallow embedding of the TypeScript service module: the response
    parser, the process-wide circuit breaker, the retry loop with
    exponential backoff and model fallback, and the image request.

    Conventions of the embedding.
    - A JavaScript string is the list of its UTF-16 code units ([jsstring]).
    - A computation that may [throw] returns a [Completion].
    - The module-level [circuitBreakerState], the clock behind [Date.now()],
      the provider behind [chat.sendMessage] and [Math.random()] live in an
      explicit [World] that every effectful function threads.
    - [Math.random()] and the delay are rationals: the binary rounding of
      IEEE doubles is not modelled. *)

From Stdlib Require Import ZArith NArith QArith List String Ascii Bool Lia Lqa.
From Stdlib Require Import DecimalString.
Import ListNotations.

Set Implicit Arguments.

(** ** JavaScript strings *)

Definition jsstring := list N.

(** The code units of a literal written in ASCII. *)
Definition js (s : string) : jsstring :=
  List.map N_of_ascii (list_ascii_of_string s).

(** Test inputs are written with apostrophes where the payload has a double
    quote (code unit 34). *)
Definition jq (s : string) : jsstring :=
  List.map (fun c => if N.eqb c 39 then 34%N else c) (js s).

Fixpoint str_eqb (a b : jsstring) : bool :=
  match a, b with
  | [], [] => true
  | x :: a', y :: b' => N.eqb x y && str_eqb a' b'
  | _, _ => false
  end.

(** [s.startsWith(p)] *)
Fixpoint startsWith (p s : jsstring) : bool :=
  match p, s with
  | [], _ => true
  | x :: p', y :: s' => N.eqb x y && startsWith p' s'
  | _ :: _, [] => false
  end.

(** [s.includes(p)] *)
Fixpoint includes (p s : jsstring) : bool :=
  startsWith p s ||
  match s with
  | [] => false
  | _ :: s' => includes p s'
  end.

(** [s.toUpperCase()], as far as the marker [RESOURCE_EXHAUSTED] can tell:
    the letters a..z, and the six other code units whose upper case holds a
    letter of the marker (long s 383, sharp s 223, the ligatures 64261 and
    64262, and 7830, 7831, 7834, which become H, T, A with a combining
    mark); any other code unit is left as it is. *)
Definition upperUnits (c : N) : jsstring :=
  if (97 <=? c)%N && (c <=? 122)%N then [(c - 32)%N]
  else if (c =? 383)%N then [83%N]
  else if (c =? 223)%N then [83%N; 83%N]
  else if (c =? 64261)%N || (c =? 64262)%N then [83%N; 84%N]
  else if (c =? 7830)%N then [72%N; 817%N]
  else if (c =? 7831)%N then [84%N; 776%N]
  else if (c =? 7834)%N then [65%N; 702%N]
  else [c].

Definition toUpperCase (s : jsstring) : jsstring := flat_map upperUnits s.

(** ECMAScript WhiteSpace and LineTerminator: what [trim] strips and what
    the regular-expression class [\s] matches. *)
Definition isWhiteSpace (c : N) : bool :=
  ((9 <=? c) && (c <=? 13) || (c =? 32) || (c =? 160) || (c =? 5760)
   || (8192 <=? c) && (c <=? 8202) || (c =? 8232) || (c =? 8233)
   || (c =? 8239) || (c =? 8287) || (c =? 12288) || (c =? 65279))%N.

Fixpoint trimStart (s : jsstring) : jsstring :=
  match s with
  | c :: s' => if isWhiteSpace c then trimStart s' else s
  | [] => []
  end.

Definition trimEnd (s : jsstring) : jsstring := rev (trimStart (rev s)).

Definition trim (s : jsstring) : jsstring := trimEnd (trimStart s).

Fixpoint stripPrefix (p s : jsstring) : option jsstring :=
  match p, s with
  | [], _ => Some s
  | x :: p', y :: s' => if N.eqb x y then stripPrefix p' s' else None
  | _ :: _, [] => None
  end.

(** ** Completions: a value or a thrown JavaScript value *)

(** What [catch (error)] can receive: an [Error] instance with its message,
    or any other value, kept as its [String(error)] rendering. *)
Inductive JsThrown : Type :=
| ErrorObj (message : jsstring)
| NonError (shown : jsstring).

Inductive Completion (A : Type) : Type :=
| Return (a : A)
| Throw (e : JsThrown).

Arguments Return {A} a.
Arguments Throw {A} e.

(** [error instanceof Error ? error : new Error(String(error))] *)
Definition asError (e : JsThrown) : jsstring :=
  match e with ErrorObj m => m | NonError v => v end.

(** ** JSON values and [JSON.parse] *)

(** A number keeps its decimal reading [mantissa * 10 ^ exp10]. *)
#[warnings="-register-all"]
Inductive Json : Type :=
| JNull
| JBool (b : bool)
| JNumber (mantissa exp10 : Z)
| JString (s : jsstring)
| JArray (elements : list Json)
| JObject (members : list (jsstring * Json)).

(** The double nearest to [m * 10 ^ e] is zero exactly when
    [|m| * 10 ^ e <= 2 ^ -1075] (half the least subnormal, ties to even). *)
Definition roundsToZero (m e : Z) : bool :=
  if (m =? 0)%Z then true
  else if (0 <=? e)%Z then false
  else (Z.abs m * 2 ^ 1075 <=? 10 ^ (- e))%Z.

(** A property read yields [undefined] ([None]) or a value. *)
Definition JsVal := option Json.

(** ToBoolean, as [if (v)], [!v], [a && b] and [a || b] use it. *)
Definition truthy (v : JsVal) : bool :=
  match v with
  | None => false
  | Some JNull => false
  | Some (JBool b) => b
  | Some (JNumber m e) => negb (roundsToZero m e)
  | Some (JString s) => match s with [] => false | _ => true end
  | Some (JArray _) => true
  | Some (JObject _) => true
  end.

(** Own-property lookup of a parsed object: a repeated key keeps its last
    value. *)
Fixpoint lookupLast (k : jsstring) (ms : list (jsstring * Json)) : JsVal :=
  match ms with
  | [] => None
  | (k', v) :: ms' =>
      match lookupLast k ms' with
      | Some v' => Some v'
      | None => if str_eqb k k' then Some v else None
      end
  end.

(** [v.name] for a name that no prototype defines ([sceneDescription],
    [imagePrompt], [imageUrl], [error]): [null] has no properties and the
    read throws a TypeError; primitives and arrays answer [undefined]. *)
Definition getProp (v : Json) (name : jsstring) : Completion JsVal :=
  match v with
  | JNull => Throw (ErrorObj (js "TypeError: Cannot read properties of null"))
  | JObject ms => Return (lookupLast name ms)
  | _ => Return None
  end.

Module JsonParse.

(** Outcome of a parsing step: a value with the rest of the input, a syntax
    error, or the recursion budget used up. *)
Inductive PR (A : Type) : Type :=
| Ok (a : A) (rest : jsstring)
| SyntaxError
| Exhausted.

Arguments Ok {A} a rest.
Arguments SyntaxError {A}.
Arguments Exhausted {A}.

Definition isJsonWs (c : N) : bool :=
  ((c =? 9) || (c =? 10) || (c =? 13) || (c =? 32))%N.

Fixpoint skipWs (s : jsstring) : jsstring :=
  match s with
  | c :: s' => if isJsonWs c then skipWs s' else s
  | [] => []
  end.

Definition isDigit (c : N) : bool := ((48 <=? c) && (c <=? 57))%N.

Definition hexVal (c : N) : option N :=
  if isDigit c then Some (c - 48)%N
  else if ((97 <=? c) && (c <=? 102))%N then Some (c - 87)%N
  else if ((65 <=? c) && (c <=? 70))%N then Some (c - 55)%N
  else None.

Definition hex4 (a b c d : N) : option N :=
  match hexVal a, hexVal b, hexVal c, hexVal d with
  | Some x, Some y, Some z, Some w => Some (((x * 16 + y) * 16 + z) * 16 + w)%N
  | _, _, _, _ => None
  end.

(** The input starts with the code unit [k]: what follows it. *)
Definition expectUnit (k : N) (s : jsstring) : option jsstring :=
  match s with
  | c :: rest => if (c =? k)%N then Some rest else None
  | [] => None
  end.

(** The code unit a one-letter escape stands for. *)
Definition escapeUnit (e : N) : option N :=
  if (e =? 34)%N then Some 34%N
  else if (e =? 92)%N then Some 92%N
  else if (e =? 47)%N then Some 47%N
  else if (e =? 98)%N then Some 8%N
  else if (e =? 102)%N then Some 12%N
  else if (e =? 110)%N then Some 10%N
  else if (e =? 114)%N then Some 13%N
  else if (e =? 116)%N then Some 9%N
  else None.

Definition consUnit (u : N) (p : PR jsstring) : PR jsstring :=
  match p with
  | Ok t r => Ok (u :: t) r
  | SyntaxError => SyntaxError
  | Exhausted => Exhausted
  end.

(** The characters of a string literal after its opening quote: up to the
    closing quote (34); a backslash (92) starts an escape, [u] (117) one of
    four hexadecimal digits; control characters are not allowed. *)
Fixpoint parseChars (s : jsstring) : PR jsstring :=
  match s with
  | [] => SyntaxError
  | c :: rest =>
      if (c =? 34)%N then Ok [] rest
      else if (c =? 92)%N then
        match rest with
        | [] => SyntaxError
        | e :: rest1 =>
            if (e =? 117)%N then
              match rest1 with
              | a :: b :: c' :: d :: rest2 =>
                  match hex4 a b c' d with
                  | Some u => consUnit u (parseChars rest2)
                  | None => SyntaxError
                  end
              | _ => SyntaxError
              end
            else
              match escapeUnit e with
              | Some u => consUnit u (parseChars rest1)
              | None => SyntaxError
              end
        end
      else if (c <? 32)%N then SyntaxError
      else consUnit c (parseChars rest)
  end.

Fixpoint spanDigits (s : jsstring) : jsstring * jsstring :=
  match s with
  | c :: s' =>
      if isDigit c then (c :: fst (spanDigits s'), snd (spanDigits s'))
      else ([], s)
  | [] => ([], [])
  end.

Definition digitsValue (d : jsstring) : Z :=
  fold_left (fun acc c => (acc * 10 + Z.of_N (c - 48))%Z) d 0%Z.

(** The fraction of a number: a dot (46) and at least one digit, or
    nothing. *)
Definition parseFraction (s : jsstring) : option (jsstring * jsstring) :=
  match expectUnit 46 s with
  | Some r =>
      match fst (spanDigits r) with
      | [] => None
      | _ :: _ => Some (spanDigits r)
      end
  | None => Some ([], s)
  end.

(** The exponent of a number: [e] or [E] (101, 69), an optional sign and
    at least one digit, or nothing. *)
Definition parseExponent (s : jsstring) : option (Z * jsstring) :=
  match s with
  | c :: r =>
      if (c =? 101)%N || (c =? 69)%N then
        let signed :=
          match expectUnit 45 r with
          | Some r' => (true, r')
          | None =>
              match expectUnit 43 r with
              | Some r' => (false, r')
              | None => (false, r)
              end
          end in
        match fst (spanDigits (snd signed)) with
        | [] => None
        | ed =>
            Some ((if fst signed then - digitsValue ed else digitsValue ed)%Z,
                  snd (spanDigits (snd signed)))
        end
      else Some (0%Z, s)
  | [] => Some (0%Z, s)
  end.

(** A JSON number: an optional minus sign (45), an integer part without a
    leading zero, an optional fraction, an optional exponent. *)
Definition parseNumber (s : jsstring) : PR Json :=
  let neg := match expectUnit 45 s with Some _ => true | None => false end in
  let s1 := match expectUnit 45 s with Some r => r | None => s end in
  match fst (spanDigits s1) with
  | [] => SyntaxError
  | d0 :: more =>
      if (d0 =? 48)%N && negb (match more with [] => true | _ => false end)
      then SyntaxError
      else
        match parseFraction (snd (spanDigits s1)) with
        | None => SyntaxError
        | Some (fp, s3) =>
            match parseExponent s3 with
            | None => SyntaxError
            | Some (ex, s4) =>
                let m := digitsValue ((d0 :: more) ++ fp) in
                Ok (JNumber (if neg then - m else m)%Z
                            (ex - Z.of_nat (List.length fp))%Z) s4
            end
        end
  end.

(** [true], [false] and [null]. *)
Definition parseLiteral (s : jsstring) : PR Json :=
  match stripPrefix (js "true") s with
  | Some r => Ok (JBool true) r
  | None =>
      match stripPrefix (js "false") s with
      | Some r => Ok (JBool false) r
      | None =>
          match stripPrefix (js "null") s with
          | Some r => Ok JNull r
          | None => SyntaxError
          end
      end
  end.

Definition startsNumber (s : jsstring) : bool :=
  match s with
  | c :: _ => (c =? 45)%N || isDigit c
  | [] => false
  end.

(** Values, array elements and object members, on an input without leading
    white space; the punctuation is braces 123 and 125, brackets 91 and 93,
    the quote 34, the comma 44 and the colon 58.  [fuel] bounds the depth of
    the calls. *)
Fixpoint parseValue (fuel : nat) (s : jsstring) : PR Json :=
  match fuel with
  | O => Exhausted
  | S f =>
      match expectUnit 123 s with
      | Some r =>
          match expectUnit 125 (skipWs r) with
          | Some r' => Ok (JObject []) r'
          | None => parseMembers f [] (skipWs r)
          end
      | None =>
          match expectUnit 91 s with
          | Some r =>
              match expectUnit 93 (skipWs r) with
              | Some r' => Ok (JArray []) r'
              | None => parseElements f [] (skipWs r)
              end
          | None =>
              match expectUnit 34 s with
              | Some r =>
                  match parseChars r with
                  | Ok t r' => Ok (JString t) r'
                  | SyntaxError => SyntaxError
                  | Exhausted => Exhausted
                  end
              | None =>
                  if startsNumber s then parseNumber s else parseLiteral s
              end
          end
      end
  end

with parseElements (fuel : nat) (acc : list Json) (s : jsstring) : PR Json :=
  match fuel with
  | O => Exhausted
  | S f =>
      match parseValue f s with
      | Ok v r =>
          match expectUnit 44 (skipWs r) with
          | Some r' => parseElements f (v :: acc) (skipWs r')
          | None =>
              match expectUnit 93 (skipWs r) with
              | Some r' => Ok (JArray (rev (v :: acc))) r'
              | None => SyntaxError
              end
          end
      | SyntaxError => SyntaxError
      | Exhausted => Exhausted
      end
  end

with parseMembers (fuel : nat) (acc : list (jsstring * Json)) (s : jsstring)
  : PR Json :=
  match fuel with
  | O => Exhausted
  | S f =>
      match expectUnit 34 s with
      | None => SyntaxError
      | Some r =>
          match parseChars r with
          | Ok k r1 =>
              match expectUnit 58 (skipWs r1) with
              | None => SyntaxError
              | Some r2 =>
                  match parseValue f (skipWs r2) with
                  | Ok v r3 =>
                      match expectUnit 44 (skipWs r3) with
                      | Some r' =>
                          parseMembers f ((k, v) :: acc) (skipWs r')
                      | None =>
                          match expectUnit 125 (skipWs r3) with
                          | Some r' => Ok (JObject (rev ((k, v) :: acc))) r'
                          | None => SyntaxError
                          end
                      end
                  | SyntaxError => SyntaxError
                  | Exhausted => Exhausted
                  end
              end
          | SyntaxError => SyntaxError
          | Exhausted => Exhausted
          end
      end
  end.

End JsonParse.

(** [JSON.parse(text)]: one value between optional white space, or a thrown
    SyntaxError.  Running out of the recursion budget is the engine's
    RangeError; [JSON_parse_budget] shows the budget given here is never
    used up. *)
Definition JSON_parse (text : jsstring) : Completion Json :=
  match JsonParse.parseValue (S (2 * List.length (JsonParse.skipWs text)))
          (JsonParse.skipWs text) with
  | JsonParse.Ok v rest =>
      match JsonParse.skipWs rest with
      | [] => Return v
      | _ => Throw (ErrorObj (js "SyntaxError: Unexpected non-whitespace character after JSON"))
      end
  | JsonParse.SyntaxError =>
      Throw (ErrorObj (js "SyntaxError: Unexpected token in JSON"))
  | JsonParse.Exhausted =>
      Throw (ErrorObj (js "RangeError: Maximum call stack size exceeded"))
  end.

(** ** The response parser *)

Definition bindC {A B : Type} (c : Completion A) (k : A -> Completion B)
  : Completion B :=
  match c with
  | Return a => k a
  | Throw e => Throw e
  end.

(** [try { body } catch (error) { handler }] without side effects. *)
Definition tryCatchC {A : Type} (body : Completion A)
  (handler : JsThrown -> Completion A) : Completion A :=
  match body with
  | Return a => Return a
  | Throw e => handler e
  end.

Module Fence.

(** The fence regular expression of [parseGeminiResponse], with the [s]
    flag: three backticks, an optional [json], white space, an optional new
    line, a lazy capture, an optional new line, white space, three backticks
    and the end of the input.  The matcher follows the backtracking order of
    the engine: greedy choices take the longest alternative first, the lazy
    capture the shortest, and the first complete match wins. *)

Definition backticks : jsstring := [96; 96; 96]%N.

(** What remains after the capture is white space and the closing fence. *)
Definition closes (s : jsstring) : bool := str_eqb (trimStart s) backticks.

Fixpoint lazyCapture (s : jsstring) : option jsstring :=
  if closes s then Some []
  else
    match s with
    | [] => None
    | c :: s' =>
        match lazyCapture s' with
        | Some cap => Some (c :: cap)
        | None => None
        end
    end.

Definition orElse {A : Type} (a b : option A) : option A :=
  match a with Some _ => a | None => b end.

(** After the white space: the optional new line, taken first. *)
Definition afterSpace (s : jsstring) : option jsstring :=
  match s with
  | 10%N :: s' => orElse (lazyCapture s') (lazyCapture s)
  | _ => lazyCapture s
  end.

Fixpoint leadingSpace (s : jsstring) : nat :=
  match s with
  | c :: s' => if isWhiteSpace c then S (leadingSpace s') else O
  | [] => O
  end.

(** The greedy white space gives back one unit at a time. *)
Fixpoint spaceThenCapture (k : nat) (s : jsstring) : option jsstring :=
  match afterSpace (skipn k s) with
  | Some cap => Some cap
  | None =>
      match k with
      | O => None
      | S k' => spaceThenCapture k' s
      end
  end.

Definition afterLanguage (s : jsstring) : option jsstring :=
  spaceThenCapture (leadingSpace s) s.

(** [jsonStr.match(fenceRegex)]: the text of capture group 1 of the match,
    when there is one. *)
Definition fenceMatch (s : jsstring) : option jsstring :=
  match stripPrefix backticks s with
  | None => None
  | Some r =>
      orElse
        (match stripPrefix (js "json") r with
         | Some r' => afterLanguage r'
         | None => None
         end)
        (afterLanguage r)
  end.

End Fence.

(** The GameAIResponse handed back is the parsed object itself. *)
Definition GameAIResponse := Json.

Definition sceneDescriptionKey : jsstring := js "sceneDescription".
Definition imagePromptKey : jsstring := js "imagePrompt".

(** The text handed to [JSON.parse]: trimmed, and replaced by the trimmed
    capture when the fence matches with a non-empty capture
    ([match && match[1]]). *)
Definition unfence (responseText : jsstring) : jsstring :=
  let jsonStr := trim responseText in
  match Fence.fenceMatch jsonStr with
  | Some (c :: cap) => trim (c :: cap)
  | Some [] => jsonStr
  | None => jsonStr
  end.

(** The body of the [try] block of [parseGeminiResponse]. *)
Definition parseGeminiResponse_try (responseText : jsstring)
  : Completion (option GameAIResponse) :=
  let jsonStr := unfence responseText in
  bindC (JSON_parse jsonStr) (fun parsed =>
  bindC (getProp parsed sceneDescriptionKey) (fun sceneDescription =>
  if truthy sceneDescription then
    bindC (getProp parsed imagePromptKey) (fun imagePrompt =>
    if truthy imagePrompt then Return (Some parsed) else Return None)
  else Return None)).

Definition parseGeminiResponse (responseText : jsstring)
  : Completion (option GameAIResponse) :=
  tryCatchC (parseGeminiResponse_try responseText) (fun _ => Return None).

(** ** The world the service runs in *)

(** [let circuitBreakerState = { failures, lastFailureTime, isOpen, openUntil }] *)
Record CircuitBreakerState : Type := mkBreaker {
  failures : Z;
  lastFailureTime : Z;
  isOpen : bool;
  openUntil : Z
}.

(** A chat session: the model it was created for and which session it is. *)
Record Chat : Type := mkChat {
  chatModel : jsstring;
  chatId : nat
}.

(** What one [await chat.sendMessage({ message })] does: it resolves to a
    response whose [text] is a string or [undefined], or it rejects. *)
Inductive ProviderOutcome : Type :=
| Responds (text : option jsstring)
| Rejects (thrown : JsThrown).

(** What an observer of a run sees, in order.  The three breaker events mark
    the places where the code writes [circuitBreakerState]. *)
Inductive Event : Type :=
| EvCreateChat (chat : Chat)
| EvSendMessage (chat : Chat) (message : jsstring)
| EvDelay (ms : Q)
| EvBreakerReset
| EvRecordSuccess
| EvRecordFailure.

(** The breaker, the three oracles with the number of values already read
    from each, the number of sessions created, and the trace. *)
Record World : Type := mkWorld {
  circuitBreakerState : CircuitBreakerState;
  clock : nat -> Z;
  clockReads : nat;
  provider : nat -> ProviderOutcome;
  sent : nat;
  randomSource : nat -> Q;
  randomReads : nat;
  sessions : nat;
  trace : list Event
}.

Definition setBreaker (b : CircuitBreakerState) (w : World) : World :=
  mkWorld b (clock w) (clockReads w) (provider w) (sent w)
          (randomSource w) (randomReads w) (sessions w) (trace w).

Definition emit (e : Event) (w : World) : World :=
  mkWorld (circuitBreakerState w) (clock w) (clockReads w) (provider w)
          (sent w) (randomSource w) (randomReads w) (sessions w)
          (trace w ++ [e]).

(** ** The monad of the service: state and exceptions *)

Definition M (A : Type) : Type := World -> Completion A * World.

Definition ret {A : Type} (a : A) : M A := fun w => (Return a, w).

Definition throw {A : Type} (e : JsThrown) : M A := fun w => (Throw e, w).

Definition bind {A B : Type} (c : M A) (k : A -> M B) : M B :=
  fun w =>
    match c w with
    | (Return a, w') => k a w'
    | (Throw e, w') => (Throw e, w')
    end.

(** [try { body } catch (error) { handler error }] *)
Definition tryCatch {A : Type} (body : M A) (handler : JsThrown -> M A) : M A :=
  fun w =>
    match body w with
    | (Return a, w') => (Return a, w')
    | (Throw e, w') => handler e w'
    end.

Definition liftC {A : Type} (c : Completion A) : M A := fun w => (c, w).

Declare Scope service_scope.
Delimit Scope service_scope with service.
Notation "x <- c ;; k" := (bind c (fun x => k))
  (at level 61, c at next level, right associativity) : service_scope.
Notation "c ;;; k" := (bind c (fun _ => k))
  (at level 61, right associativity) : service_scope.
Open Scope service_scope.

(** [Date.now()] *)
Definition Date_now : M Z :=
  fun w =>
    (Return (clock w (clockReads w)),
     mkWorld (circuitBreakerState w) (clock w) (S (clockReads w)) (provider w)
             (sent w) (randomSource w) (randomReads w) (sessions w) (trace w)).

(** [Math.random()] *)
Definition Math_random : M Q :=
  fun w =>
    (Return (randomSource w (randomReads w)),
     mkWorld (circuitBreakerState w) (clock w) (clockReads w) (provider w)
             (sent w) (randomSource w) (S (randomReads w)) (sessions w)
             (trace w)).

(** [await delay(ms)] *)
Definition delay (ms : Q) : M unit :=
  fun w => (Return tt, emit (EvDelay ms) w).

(** [const response = await chat.sendMessage({ message }); response.text] *)
Definition sendMessage (chat : Chat) (message : jsstring)
  : M (option jsstring) :=
  fun w =>
    let w' :=
      mkWorld (circuitBreakerState w) (clock w) (clockReads w) (provider w)
              (S (sent w)) (randomSource w) (randomReads w) (sessions w)
              (trace w ++ [EvSendMessage chat message]) in
    match provider w (sent w) with
    | Responds text => (Return text, w')
    | Rejects e => (Throw e, w')
    end.

Definition getBreaker : M CircuitBreakerState :=
  fun w => (Return (circuitBreakerState w), w).

Definition putBreaker (b : CircuitBreakerState) : M unit :=
  fun w => (Return tt, setBreaker b w).

Definition mark (e : Event) : M unit := fun w => (Return tt, emit e w).

(** ** Configuration *)

Definition GEMINI_MODEL_NAME : jsstring := js "gemini-2.0-flash".
Definition FALLBACK_MODEL_NAME : jsstring := js "gemini-1.5-flash".

Record RetryConfig : Type := {
  maxRetries : nat;
  baseDelay : Z;
  maxDelay : Z;
  backoffFactor : Z
}.

Definition RETRY_CONFIG : RetryConfig :=
  {| maxRetries := 3; baseDelay := 1000; maxDelay := 8000; backoffFactor := 2 |}.

Record CircuitBreakerConfig : Type := {
  failureThreshold : Z;
  resetTimeout : Z;
  halfOpenRetryTimeout : Z
}.

Definition CIRCUIT_BREAKER_CONFIG : CircuitBreakerConfig :=
  {| failureThreshold := 5; resetTimeout := 30000;
     halfOpenRetryTimeout := 10000 |}.

Definition initialBreaker : CircuitBreakerState :=
  {| failures := 0; lastFailureTime := 0; isOpen := false; openUntil := 0 |}.

(** [createChatSession(modelName)] *)
Definition createChatSession (modelName : jsstring) : M Chat :=
  fun w =>
    let chat := mkChat modelName (sessions w) in
    (Return chat,
     mkWorld (circuitBreakerState w) (clock w) (clockReads w) (provider w)
             (sent w) (randomSource w) (randomReads w) (S (sessions w))
             (trace w ++ [EvCreateChat chat])).

(** ** The circuit breaker *)

Definition checkCircuitBreaker : M bool :=
  now <- Date_now ;;
  st <- getBreaker ;;
  if isOpen st then
    if (now >? openUntil st)%Z then
      putBreaker (mkBreaker 0 (lastFailureTime st) false (openUntil st)) ;;;
      mark EvBreakerReset ;;;
      ret true
    else ret false
  else ret true.

Definition recordFailure : M unit :=
  mark EvRecordFailure ;;;
  st <- getBreaker ;;
  t1 <- Date_now ;;
  let failures' := (failures st + 1)%Z in
  if (failures' >=? failureThreshold CIRCUIT_BREAKER_CONFIG)%Z then
    t2 <- Date_now ;;
    putBreaker (mkBreaker failures' t1 true
                  (t2 + resetTimeout CIRCUIT_BREAKER_CONFIG)%Z)
  else
    putBreaker (mkBreaker failures' t1 (isOpen st) (openUntil st)).

Definition recordSuccess : M unit :=
  mark EvRecordSuccess ;;;
  st <- getBreaker ;;
  putBreaker (mkBreaker 0 (lastFailureTime st) false (openUntil st)).

(** ** Error markers *)

Definition isInvalidApiKey (m : jsstring) : bool :=
  includes (js "API key not valid") m.

Definition isQuotaExceeded (m : jsstring) : bool :=
  includes (js "429") m && includes (js "RESOURCE_EXHAUSTED") (toUpperCase m).

Definition isRetryableError (m : jsstring) : bool :=
  includes (js "503") m || includes (js "502") m || includes (js "500") m
  || includes (js "UNAVAILABLE") m || includes (js "overloaded") m
  || includes (js "temporarily unavailable") m.

(** The three markers that trigger the fallback model and the overload
    message. *)
Definition isOverloaded (m : jsstring) : bool :=
  includes (js "503") m || includes (js "UNAVAILABLE") m
  || includes (js "overloaded") m.

Definition invalidApiKeyMessage : jsstring :=
  js "Invalid API Key. Please check your API_KEY environment variable.".
Definition rateLimitMessage : jsstring :=
  js "RateLimitError: API quota exceeded for text generation. Please check your plan/billing or try again later.".
Definition overloadedMessage : jsstring :=
  js "The Gemini AI service is currently overloaded. Please try again in a few minutes. If the problem persists, consider switching to a different model or checking Google AI Studio for service status.".
Definition bothUnavailableMessage : jsstring :=
  js "Both primary and fallback AI services are temporarily unavailable due to repeated failures. Please wait a moment and try again.".
Definition unknownMessage : jsstring :=
  js "Unknown error occurred during retry attempts".

(** ** Backoff *)

(** [Math.min(baseDelay * Math.pow(backoffFactor, attempt), maxDelay)] *)
Definition backoffBase (attempt : nat) : Z :=
  Z.min (baseDelay RETRY_CONFIG
         * backoffFactor RETRY_CONFIG ^ Z.of_nat attempt)
        (maxDelay RETRY_CONFIG).

(** [Math.random() * 0.3 * baseDelay] *)
Definition jitterOf (r : Q) (attempt : nat) : Q :=
  r * (3 # 10) * inject_Z (backoffBase attempt).

Definition delayMsOf (r : Q) (attempt : nat) : Q :=
  inject_Z (backoffBase attempt) + jitterOf r attempt.

(** ** [sendMessageToGemini] *)

(** [!responseText] *)
Definition emptyText (text : option jsstring) : bool :=
  match text with
  | None => true
  | Some [] => true
  | Some (_ :: _) => false
  end.

Definition textOf (text : option jsstring) : jsstring :=
  match text with Some t => t | None => [] end.

Section Orchestrator.

(** The function itself, for the two places where it calls itself. *)
Variable self : Chat -> jsstring -> bool -> M (option GameAIResponse).

(** The body of the [try] block of one attempt. *)
Definition attemptTry (chat : Chat) (message : jsstring)
  : M (option GameAIResponse) :=
  responseText <- sendMessage chat message ;;
  if emptyText responseText then ret None
  else
    recordSuccess ;;;
    liftC (parseGeminiResponse (textOf responseText)).

(** The part of the [catch] block under [if (error instanceof Error)]: it
    throws, returns from the function ([Some]), or falls through ([None]). *)
Definition classify (error : JsThrown) (message : jsstring)
  (useFallback : bool) (attempt : nat)
  : M (option (option GameAIResponse)) :=
  match error with
  | NonError _ => ret None
  | ErrorObj m =>
      if isInvalidApiKey m then throw (ErrorObj invalidApiKeyMessage)
      else if isQuotaExceeded m then throw (ErrorObj rateLimitMessage)
      else if negb (isRetryableError m) then throw error
      else if negb useFallback && Nat.eqb attempt 0 && isOverloaded m then
        tryCatch
          (fallbackChat <- createChatSession FALLBACK_MODEL_NAME ;;
           r <- self fallbackChat message true ;;
           ret (Some r))
          (fun _ => ret None)
      else ret None
  end.

(** The [catch] block of one attempt; [continue] is the rest of the loop,
    given the error it remembers in [lastError]. *)
Definition catchBlock (continue : jsstring -> M (option GameAIResponse))
  (error : JsThrown) (message : jsstring) (useFallback : bool)
  (attempt : nat) : M (option GameAIResponse) :=
  let lastError := asError error in
  escaped <- classify error message useFallback attempt ;;
  match escaped with
  | Some r => ret r
  | None =>
      if Nat.eqb attempt (maxRetries RETRY_CONFIG) then
        recordFailure ;;;
        if isOverloaded lastError
        then throw (ErrorObj overloadedMessage)
        else throw (ErrorObj lastError)
      else
        r <- Math_random ;;
        delay (delayMsOf r attempt) ;;;
        continue lastError
  end.

(** The [for] loop, by the number of iterations left:
    [attempt + remaining = maxRetries + 1] at every call. *)
Fixpoint retryLoop (remaining attempt : nat) (lastError : option jsstring)
  (chat : Chat) (message : jsstring) (useFallback : bool)
  : M (option GameAIResponse) :=
  match remaining with
  | O =>
      throw (ErrorObj (match lastError with
                       | Some m => m
                       | None => unknownMessage
                       end))
  | S remaining' =>
      tryCatch (attemptTry chat message)
        (fun error =>
           catchBlock
             (fun lastError' =>
                retryLoop remaining' (S attempt) (Some lastError')
                          chat message useFallback)
             error message useFallback attempt)
  end.

Definition sendMessageToGemini_body (chat : Chat) (message : jsstring)
  (useFallback : bool) : M (option GameAIResponse) :=
  allowed <- checkCircuitBreaker ;;
  if negb allowed then
    if negb useFallback then
      fallbackChat <- createChatSession FALLBACK_MODEL_NAME ;;
      self fallbackChat message true
    else throw (ErrorObj bothUnavailableMessage)
  else
    retryLoop (S (maxRetries RETRY_CONFIG)) 0 None chat message useFallback.

End Orchestrator.

(** The recursion is one level deep: a call with [useFallback = true] never
    calls itself ([sendMessageToGemini_unfold] is the equation of the source
    function). *)
Definition sendMessageToGemini_leaf
  : Chat -> jsstring -> bool -> M (option GameAIResponse) :=
  sendMessageToGemini_body (fun _ _ _ => throw (ErrorObj unknownMessage)).

Definition sendMessageToGemini
  : Chat -> jsstring -> bool -> M (option GameAIResponse) :=
  sendMessageToGemini_body sendMessageToGemini_leaf.

(** ** The image request *)

(** Decimal rendering of a status code, as a template literal prints it. *)
Definition decimal (n : N) : jsstring :=
  js (NilZero.string_of_uint (N.to_uint n)).

(** The response of [fetch]: [status], [statusText] and what
    [await response.json()] gives. *)
Record HttpResponse : Type := mkResponse {
  status : N;
  statusText : jsstring;
  json : Completion Json
}.

(** [response.ok] *)
Definition ok (r : HttpResponse) : bool :=
  ((200 <=? status r) && (status r <=? 299))%N.

(** An environment variable is [undefined] or a string; [!v] holds for
    [undefined] and for the empty string. *)
Definition configured (key : option jsstring) : bool :=
  match key with
  | Some (_ :: _) => true
  | _ => false
  end.

Definition notConfiguredMessage : jsstring :=
  js "Cloudflare API key is not configured".
Definition cloudflareQuotaMessage : jsstring :=
  js "RateLimitError: Cloudflare API quota exceeded. Please check your plan/billing or try again later.".
Definition cloudflareKeyMessage : jsstring :=
  js "Invalid Cloudflare API Key. Please check your CLOUDFLARE_API_KEY environment variable.".

Section ImageRequest.

(** The ToString conversion a template literal applies to a value that is
    not a string. *)
Variable ToString : Json -> jsstring.

(** [${v || ''}] *)
Definition orEmpty (v : JsVal) : jsstring :=
  if truthy v then
    match v with
    | Some (JString t) => t
    | Some other => ToString other
    | None => []
    end
  else [].

(** [`Cloudflare API error: ${status} ${statusText}. ${errorData.error || ''}`] *)
Definition cloudflareErrorMessage (r : HttpResponse) (detail : JsVal)
  : jsstring :=
  js "Cloudflare API error: " ++ decimal (status r) ++ js " "
     ++ statusText r ++ js ". " ++ orEmpty detail.

(** [generateImageWithCloudflare(prompt)], given the module constant
    [CLOUDFLARE_API_KEY] and what the [fetch] of the relay settles to.  The
    outer [catch] logs and rethrows the error it caught. *)
Definition generateImageWithCloudflare (CLOUDFLARE_API_KEY : option jsstring)
  (fetched : Completion HttpResponse) (prompt : jsstring) : Completion JsVal :=
  tryCatchC
    (if negb (configured CLOUDFLARE_API_KEY)
     then Throw (ErrorObj notConfiguredMessage)
     else
       bindC fetched (fun response =>
       if negb (ok response) then
         bindC (json response) (fun errorData =>
         if (status response =? 429)%N
         then Throw (ErrorObj cloudflareQuotaMessage)
         else if (status response =? 401)%N
         then Throw (ErrorObj cloudflareKeyMessage)
         else
           bindC (getProp errorData (js "error")) (fun detail =>
           Throw (ErrorObj (cloudflareErrorMessage response detail))))
       else
         bindC (json response) (fun data =>
         getProp data (js "imageUrl"))))
    (fun error => Throw error).

End ImageRequest.

(** ** The relay: [app.post('/api/generate-image')] of [proxy-server/server.js] *)

(** What the request to the image provider settles to, as the handler reads
    it: the status line, what [await response.text()] gives and the base64
    rendering of what [await response.arrayBuffer()] gives. *)
Record Upstream : Type := mkUpstream {
  upStatus : N;
  upStatusText : jsstring;
  upText : Completion jsstring;
  upBase64 : Completion jsstring
}.

Definition upOk (u : Upstream) : bool :=
  ((200 <=? upStatus u) && (upStatus u <=? 299))%N.

(** What the handler answers: [res.status(code).json(body)]. *)
Record RelayAnswer : Type := mkAnswer {
  answerStatus : N;
  answerBody : Json
}.

(** The [try] block of the handler. *)
Definition relayTry (prompt : JsVal) (CLOUDFLARE_API_KEY : option jsstring)
  (upstream : Completion Upstream) : Completion RelayAnswer :=
  if negb (truthy prompt) then
    Return (mkAnswer 400
              (JObject [(js "error", JString (js "Prompt is required"))]))
  else if negb (configured CLOUDFLARE_API_KEY) then
    Return (mkAnswer 500
              (JObject [(js "error",
                         JString (js "Cloudflare API key not configured"))]))
  else
    bindC upstream (fun response =>
    if negb (upOk response) then
      bindC (upText response) (fun errorText =>
      Return (mkAnswer (upStatus response)
                (JObject
                   [(js "error",
                     JString (js "Cloudflare API error: "
                                ++ decimal (upStatus response) ++ js " "
                                ++ upStatusText response));
                    (js "details", JString errorText)])))
    else
      bindC (upBase64 response) (fun base64Image =>
      Return (mkAnswer 200
                (JObject
                   [(js "imageUrl",
                     JString (js "data:image/png;base64," ++ base64Image))])))).

(** [details: error.message]: a thrown value that is no [Error] has no
    message, and the member is left out of the body. *)
Definition errorDetails (e : JsThrown) : list (jsstring * Json) :=
  match e with
  | ErrorObj m => [(js "details", JString m)]
  | NonError _ => []
  end.

Definition relayHandler (prompt : JsVal) (CLOUDFLARE_API_KEY : option jsstring)
  (upstream : Completion Upstream) : RelayAnswer :=
  match relayTry prompt CLOUDFLARE_API_KEY upstream with
  | Return answer => answer
  | Throw e =>
      mkAnswer 500
        (JObject ((js "error", JString (js "Internal server error"))
                    :: errorDetails e))
  end.

(** A status under which a response has no body: the null body statuses of
    Fetch.  Express writes no body under 204 and 304, whatever [res.json]
    was given. *)
Definition nullBodyStatus (s : N) : bool :=
  ((s =? 101) || (s =? 103) || (s =? 204) || (s =? 205) || (s =? 304))%N.

(** A status a settled [fetch] carries: informational responses are not
    handed to the caller and a status line has three digits. *)
Definition finalStatus (s : N) : bool := ((200 <=? s) && (s <=? 999))%N.

(** The response the client's [fetch] resolves to for an answer of the
    relay; [reason] is the reason phrase the server attaches to a code.
    [response.json()] parses the text of the body: the body [res.json]
    wrote, or the empty text under a status without body, which is a
    syntax error. *)
Definition answerAsResponse (reason : N -> jsstring) (a : RelayAnswer)
  : HttpResponse :=
  mkResponse (answerStatus a) (reason (answerStatus a))
    (if nullBodyStatus (answerStatus a) then JSON_parse []
     else Return (answerBody a)).


(** ** Worlds and runs used as examples *)

Definition primaryChat : Chat := mkChat GEMINI_MODEL_NAME 0.

(** A fresh process: the initial breaker, one session created, nothing read
    yet. *)
Definition freshWorld (clk : nat -> Z) (prov : nat -> ProviderOutcome)
  (rnd : nat -> Q) : World :=
  mkWorld initialBreaker clk 0 prov 0 rnd 0 1 [].

Definition error503 : JsThrown :=
  ErrorObj (js "503 Service Unavailable: The model is overloaded.").
Definition error502 : JsThrown := ErrorObj (js "502 Bad Gateway").
Definition errorKey : JsThrown :=
  ErrorObj (js "400 API key not valid. Please pass a valid API key.").
Definition error404 : JsThrown := ErrorObj (js "404 model not found").

(** Top-level calls made one after the other. *)
Fixpoint runCalls (calls : list (Chat * jsstring)) (w : World) : World :=
  match calls with
  | [] => w
  | (chat, message) :: rest =>
      runCalls rest (snd (sendMessageToGemini chat message false w))
  end.

Definition isSendTo (model : jsstring) (e : Event) : bool :=
  match e with
  | EvSendMessage chat _ => str_eqb (chatModel chat) model
  | _ => false
  end.

Definition isCreateChat (e : Event) : bool :=
  match e with EvCreateChat _ => true | _ => false end.

Definition isDelay (e : Event) : bool :=
  match e with EvDelay _ => true | _ => false end.

Definition isSend (e : Event) : bool :=
  match e with EvSendMessage _ _ => true | _ => false end.

Definition isRecord (e : Event) : bool :=
  match e with EvRecordSuccess | EvRecordFailure => true | _ => false end.

Definition isReset (e : Event) : bool :=
  match e with EvBreakerReset => true | _ => false end.

Definition count (p : Event -> bool) (t : list Event) : nat :=
  List.length (List.filter p t).


(** ** The worlds an attempt leaves behind *)

(** After [chat.sendMessage] has settled, either way. *)
Definition afterSend (chat : Chat) (message : jsstring) (w : World) : World :=
  mkWorld (circuitBreakerState w) (clock w) (clockReads w) (provider w)
          (S (sent w)) (randomSource w) (randomReads w) (sessions w)
          (trace w ++ [EvSendMessage chat message]).

Definition afterSuccess (w : World) : World := snd (recordSuccess w).

Definition afterFailure (w : World) : World := snd (recordFailure w).

(** After [Math.random()] and the [delay] that follows attempt [attempt]. *)
Definition afterBackoff (attempt : nat) (w : World) : World :=
  mkWorld (circuitBreakerState w) (clock w) (clockReads w) (provider w)
          (sent w) (randomSource w) (S (randomReads w)) (sessions w)
          (trace w ++ [EvDelay (delayMsOf (randomSource w (randomReads w))
                                          attempt)]).

(** After [createChatSession(FALLBACK_MODEL_NAME)]. *)
Definition fallbackChatOf (w : World) : Chat :=
  mkChat FALLBACK_MODEL_NAME (sessions w).

Definition afterCreate (w : World) : World :=
  snd (createChatSession FALLBACK_MODEL_NAME w).

(** The error falls through the [instanceof Error] block to the retry
    logic without a fallback call being made at this attempt. *)
Definition fallsThrough (error : JsThrown) (useFallback : bool)
  (attempt : nat) : bool :=
  match error with
  | NonError _ => true
  | ErrorObj m =>
      negb (isInvalidApiKey m) && negb (isQuotaExceeded m)
      && isRetryableError m
      && negb (negb useFallback && Nat.eqb attempt 0 && isOverloaded m)
  end.

(** The error makes a first primary attempt call the fallback model. *)
Definition escalates (error : JsThrown) : bool :=
  match error with
  | NonError _ => false
  | ErrorObj m =>
      negb (isInvalidApiKey m) && negb (isQuotaExceeded m)
      && isRetryableError m && isOverloaded m
  end.

(** The terminal error of an exhausted loop. *)
Definition exhaustedError (error : JsThrown) : JsThrown :=
  if isOverloaded (asError error) then ErrorObj overloadedMessage
  else ErrorObj (asError error).

(** A key of a parsed object is missing, or holds the empty string. *)
Definition missingOrEmpty (key : jsstring) (ms : list (jsstring * Json))
  : Prop :=
  lookupLast key ms = None \/ lookupLast key ms = Some (JString []).



(** A process whose breaker has counted three failures and whose provider
    answers with text that is not JSON. *)
Definition chattyWorld : World :=
  mkWorld (mkBreaker 3 7 false 0) (fun _ => 100%Z) 0
          (fun _ => Responds (Some (js "not json at all"))) 0
          (fun _ => 0) 0 1 [].

(** A fresh process whose provider rejects the API key. *)
Definition badKeyWorld : World :=
  mkWorld initialBreaker (fun _ => 0%Z) 0 (fun _ => Rejects errorKey) 0
          (fun _ => 0) 0 1 [].

(** After one [Date.now()]. *)
Definition afterClockRead (w : World) : World :=
  mkWorld (circuitBreakerState w) (clock w) (S (clockReads w)) (provider w)
          (sent w) (randomSource w) (randomReads w) (sessions w) (trace w).

(** After an admission check that found the reset timeout elapsed. *)
Definition afterReset (w : World) : World :=
  mkWorld (mkBreaker 0 (lastFailureTime (circuitBreakerState w)) false
                     (openUntil (circuitBreakerState w)))
          (clock w) (S (clockReads w)) (provider w)
          (sent w) (randomSource w) (randomReads w) (sessions w)
          (trace w ++ [EvBreakerReset]).

(** A relay answer for an upstream quota error, as the client receives it. *)
Definition quotaResponse : HttpResponse :=
  mkResponse 429 (js "Too Many Requests")
    (Return (JObject [(js "error",
                       JString (js "Cloudflare API error: 429 Too Many Requests"));
                      (js "details", JString (js "rate limited"))])).

(** ** The shapes a run can take *)

(** A run of the retry loop from attempt [attempt] that makes no fallback
    call: the loop of a fallback invocation, and the loop of a primary one
    after its first attempt or when the first failure does not escalate. *)
Inductive LoopPath (chat : Chat) (message : jsstring)
  : nat -> World -> Completion (option GameAIResponse) -> World -> Prop :=
| PathEmptyText (attempt : nat) (w : World) (text : option jsstring) :
    provider w (sent w) = Responds text ->
    emptyText text = true ->
    LoopPath chat message attempt w (Return None) (afterSend chat message w)
| PathParsed (attempt : nat) (w : World) (c : N) (t : jsstring) :
    provider w (sent w) = Responds (Some (c :: t)) ->
    LoopPath chat message attempt w (parseGeminiResponse (c :: t))
             (afterSuccess (afterSend chat message w))
| PathRethrown (attempt : nat) (w : World) (m : jsstring) (e : JsThrown) :
    provider w (sent w) = Rejects (ErrorObj m) ->
    isInvalidApiKey m || isQuotaExceeded m || negb (isRetryableError m) = true ->
    LoopPath chat message attempt w (Throw e) (afterSend chat message w)
| PathExhausted (attempt : nat) (w : World) (error : JsThrown) :
    provider w (sent w) = Rejects error ->
    attempt = maxRetries RETRY_CONFIG ->
    LoopPath chat message attempt w (Throw (exhaustedError error))
             (afterFailure (afterSend chat message w))
| PathRetried (attempt : nat) (w : World) (error : JsThrown)
    (r : Completion (option GameAIResponse)) (w' : World) :
    provider w (sent w) = Rejects error ->
    attempt <> maxRetries RETRY_CONFIG ->
    LoopPath chat message (S attempt)
             (afterBackoff attempt (afterSend chat message w)) r w' ->
    LoopPath chat message attempt w r w'
| PathFellOff (attempt : nat) (w : World) (e : JsThrown) :
    LoopPath chat message attempt w (Throw e) w.

(** A whole fallback invocation: refused at admission, or admitted into its
    loop. *)
Inductive LeafCall (chat : Chat) (message : jsstring)
  : World -> Completion (option GameAIResponse) -> World -> Prop :=
| LeafRefused (w : World) :
    checkCircuitBreaker w = (Return false, afterClockRead w) ->
    LeafCall chat message w (Throw (ErrorObj bothUnavailableMessage))
             (afterClockRead w)
| LeafEntered (w w1 : World) (r : Completion (option GameAIResponse))
    (w' : World) :
    checkCircuitBreaker w = (Return true, w1) ->
    LoopPath chat message 0 w1 r w' ->
    LeafCall chat message w r w'.

(** A whole primary invocation. *)
Inductive TopCall (chat : Chat) (message : jsstring)
  : World -> Completion (option GameAIResponse) -> World -> Prop :=
| TopRefused (w : World) (r : Completion (option GameAIResponse))
    (w' : World) :
    checkCircuitBreaker w = (Return false, afterClockRead w) ->
    LeafCall (fallbackChatOf (afterClockRead w)) message
             (afterCreate (afterClockRead w)) r w' ->
    TopCall chat message w r w'
| TopPlain (w w1 : World) (r : Completion (option GameAIResponse))
    (w' : World) :
    checkCircuitBreaker w = (Return true, w1) ->
    LoopPath chat message 0 w1 r w' ->
    TopCall chat message w r w'
| TopFallbackReturned (w w1 : World) (error : JsThrown)
    (v : option GameAIResponse) (w' : World) :
    checkCircuitBreaker w = (Return true, w1) ->
    provider w1 (sent w1) = Rejects error ->
    escalates error = true ->
    LeafCall (fallbackChatOf (afterSend chat message w1)) message
             (afterCreate (afterSend chat message w1)) (Return v) w' ->
    TopCall chat message w (Return v) w'
| TopFallbackFailed (w w1 : World) (error e : JsThrown) (wf : World)
    (r : Completion (option GameAIResponse)) (w' : World) :
    checkCircuitBreaker w = (Return true, w1) ->
    provider w1 (sent w1) = Rejects error ->
    escalates error = true ->
    LeafCall (fallbackChatOf (afterSend chat message w1)) message
             (afterCreate (afterSend chat message w1)) (Throw e) wf ->
    LoopPath chat message 1 (afterBackoff 0 wf) r w' ->
    TopCall chat message w r w'.

(** A fresh process whose provider is overloaded at every attempt. *)
Definition overloadedWorld : World :=
  freshWorld (fun _ => 0%Z) (fun _ => Rejects error503) (fun _ => 0).

(** A fresh process whose provider answers 502 at every attempt. *)
Definition badGatewayWorld : World :=
  freshWorld (fun _ => 0%Z) (fun _ => Rejects error502) (fun _ => 0).


(** A process with two failures counted, whose provider rejects with an
    error that is not retryable. *)
Definition notFoundWorld : World :=
  mkWorld (mkBreaker 2 0 false 0) (fun _ => 0%Z) 0 (fun _ => Rejects error404)
          0 (fun _ => 0) 0 1 [].

(** A fresh process whose primary attempt is overloaded and whose fallback
    model answers at once. *)
Definition rescuedWorld : World :=
  freshWorld (fun _ => 0%Z)
    (fun i => match i with
              | O => Rejects error503
              | _ => Responds (Some (jq "{'sceneDescription':'You enter a cave.','imagePrompt':'dark cave entrance, torchlight'}"))
              end)
    (fun _ => 0).

(** Every attempt is rejected with a retryable error that is neither a
    credential nor a quota error. *)
Definition alwaysFailing (prov : nat -> ProviderOutcome) : Prop :=
  forall i, exists m,
    prov i = Rejects (ErrorObj m)
    /\ isInvalidApiKey m = false /\ isQuotaExceeded m = false
    /\ isRetryableError m = true.

(** A closed breaker has counted fewer failures than the threshold. *)
Definition belowThreshold (b : CircuitBreakerState) : Prop :=
  isOpen b = false ->
  (failures b < failureThreshold CIRCUIT_BREAKER_CONFIG)%Z.

Definition fiveCalls : list (Chat * jsstring) :=
  [(primaryChat, js "1"); (primaryChat, js "2"); (primaryChat, js "3");
   (primaryChat, js "4"); (primaryChat, js "5")].

(** An outage with a pause: the provider is overloaded at every attempt;
    the clock stands at 0 for its first fourteen readings (the first three
    calls) and at 60000 afterwards. *)
Definition outageWorld : World :=
  freshWorld (fun i => if Nat.ltb i 14 then 0%Z else 60000%Z)
             (fun _ => Rejects error503) (fun _ => 0).

(** The results of top-level calls made one after the other. *)
Fixpoint callResults (calls : list (Chat * jsstring)) (w : World)
  : list (Completion (option GameAIResponse)) :=
  match calls with
  | [] => []
  | (chat, message) :: rest =>
      fst (sendMessageToGemini chat message false w)
      :: callResults rest (snd (sendMessageToGemini chat message false w))
  end.

(** The events a run added to the trace. *)
Definition callEvents (w w' : World) : list Event :=
  skipn (List.length (trace w)) (trace w').

Definition isRecordFailure (e : Event) : bool :=
  match e with EvRecordFailure => true | _ => false end.

(** A call is fully exhausted when the last thing it does is to record the
    failure of its retry loop (the throw follows). *)
Definition fullyExhausted (chat : Chat) (message : jsstring) (w : World)
  : bool :=
  isRecordFailure
    (last (callEvents w (snd (sendMessageToGemini chat message false w)))
          EvBreakerReset).

Fixpoint allExhausted (calls : list (Chat * jsstring)) (w : World) : bool :=
  match calls with
  | [] => true
  | (chat, message) :: rest =>
      fullyExhausted chat message w
      && allExhausted rest (snd (sendMessageToGemini chat message false w))
  end.

(** A fresh process whose provider answers the first turn. *)
Definition caveWorld : World :=
  freshWorld (fun _ => 0%Z)
    (fun _ => Responds (Some (jq "{'sceneDescription':'You enter a cave.','imagePrompt':'dark cave entrance, torchlight'}")))
    (fun _ => 0).

(** A fresh process whose primary model is overloaded once, whose fallback
    model rejects the API key, and whose primary model answers afterwards. *)
Definition fallbackKeyWorld : World :=
  freshWorld (fun _ => 0%Z)
    (fun i => match i with
              | O => Rejects error503
              | S O => Rejects errorKey
              | _ => Responds (Some (jq "{'sceneDescription':'You enter a cave.','imagePrompt':'dark cave entrance, torchlight'}"))
              end)
    (fun _ => 0).

(** ** Exact runs *)

(** The error is retried by a loop that makes no fallback call at this
    attempt: a thrown value that is no [Error], or a retryable error that is
    neither a credential nor a quota error. *)
Definition retried (error : JsThrown) : bool :=
  match error with
  | NonError _ => true
  | ErrorObj m =>
      negb (isInvalidApiKey m) && negb (isQuotaExceeded m)
      && isRetryableError m
  end.

(** The run of the retry loop with [remaining] iterations left, when it
    makes no fallback call: the result and the world of each way out. *)
Inductive LoopRun (chat : Chat) (message : jsstring)
  : nat -> nat -> option jsstring -> World
    -> Completion (option GameAIResponse) -> World -> Prop :=
| RunOut (attempt : nat) (lastError : option jsstring) (w : World) :
    LoopRun chat message 0 attempt lastError w
      (Throw (ErrorObj (match lastError with
                        | Some m => m
                        | None => unknownMessage
                        end))) w
| RunEmptyText (k attempt : nat) (lastError : option jsstring) (w : World)
    (text : option jsstring) :
    provider w (sent w) = Responds text ->
    emptyText text = true ->
    LoopRun chat message (S k) attempt lastError w (Return None)
      (afterSend chat message w)
| RunParsed (k attempt : nat) (lastError : option jsstring) (w : World)
    (c : N) (t : jsstring) (r : option GameAIResponse) :
    provider w (sent w) = Responds (Some (c :: t)) ->
    parseGeminiResponse (c :: t) = Return r ->
    LoopRun chat message (S k) attempt lastError w (Return r)
      (afterSuccess (afterSend chat message w))
| RunPolicy (k attempt : nat) (lastError : option jsstring) (w : World)
    (m : jsstring) :
    provider w (sent w) = Rejects (ErrorObj m) ->
    isInvalidApiKey m || isQuotaExceeded m = true ->
    LoopRun chat message (S k) attempt lastError w
      (Throw (ErrorObj (if isInvalidApiKey m then invalidApiKeyMessage
                        else rateLimitMessage)))
      (afterSend chat message w)
| RunFatal (k attempt : nat) (lastError : option jsstring) (w : World)
    (m : jsstring) :
    provider w (sent w) = Rejects (ErrorObj m) ->
    isInvalidApiKey m = false -> isQuotaExceeded m = false ->
    isRetryableError m = false ->
    LoopRun chat message (S k) attempt lastError w (Throw (ErrorObj m))
      (afterSend chat message w)
| RunExhausted (k attempt : nat) (lastError : option jsstring) (w : World)
    (error : JsThrown) :
    provider w (sent w) = Rejects error ->
    retried error = true ->
    attempt = maxRetries RETRY_CONFIG ->
    LoopRun chat message (S k) attempt lastError w
      (Throw (exhaustedError error))
      (afterFailure (afterSend chat message w))
| RunRetried (k attempt : nat) (lastError : option jsstring) (w : World)
    (error : JsThrown) (r : Completion (option GameAIResponse)) (w' : World) :
    provider w (sent w) = Rejects error ->
    retried error = true ->
    attempt <> maxRetries RETRY_CONFIG ->
    LoopRun chat message k (S attempt) (Some (asError error))
      (afterBackoff attempt (afterSend chat message w)) r w' ->
    LoopRun chat message (S k) attempt lastError w r w'.

(** The run of a fallback invocation. *)
Inductive LeafRun (chat : Chat) (message : jsstring)
  : World -> Completion (option GameAIResponse) -> World -> Prop :=
| LeafRunRefused (w w1 : World) :
    checkCircuitBreaker w = (Return false, w1) ->
    LeafRun chat message w (Throw (ErrorObj bothUnavailableMessage)) w1
| LeafRunEntered (w w1 : World) (r : Completion (option GameAIResponse))
    (w' : World) :
    checkCircuitBreaker w = (Return true, w1) ->
    LoopRun chat message (S (maxRetries RETRY_CONFIG)) 0 None w1 r w' ->
    LeafRun chat message w r w'.

(** The run of a primary invocation: refused and handed to the fallback
    model, run on the primary model alone, rescued by the fallback model
    after a first overloaded attempt, or resumed on the primary model after
    the fallback invocation failed. *)
Inductive TopRun (chat : Chat) (message : jsstring)
  : World -> Completion (option GameAIResponse) -> World -> Prop :=
| TopRunRefused (w w1 : World) (r : Completion (option GameAIResponse))
    (w' : World) :
    checkCircuitBreaker w = (Return false, w1) ->
    LeafRun (fallbackChatOf w1) message (afterCreate w1) r w' ->
    TopRun chat message w r w'
| TopRunPlain (w w1 : World) (r : Completion (option GameAIResponse))
    (w' : World) :
    checkCircuitBreaker w = (Return true, w1) ->
    (forall error, provider w1 (sent w1) = Rejects error ->
                   escalates error = false) ->
    LoopRun chat message (S (maxRetries RETRY_CONFIG)) 0 None w1 r w' ->
    TopRun chat message w r w'
| TopRunRescued (w w1 : World) (error : JsThrown)
    (v : option GameAIResponse) (w' : World) :
    checkCircuitBreaker w = (Return true, w1) ->
    provider w1 (sent w1) = Rejects error ->
    escalates error = true ->
    LeafRun (fallbackChatOf (afterSend chat message w1)) message
            (afterCreate (afterSend chat message w1)) (Return v) w' ->
    TopRun chat message w (Return v) w'
| TopRunResumed (w w1 : World) (error e : JsThrown) (wf : World)
    (r : Completion (option GameAIResponse)) (w' : World) :
    checkCircuitBreaker w = (Return true, w1) ->
    provider w1 (sent w1) = Rejects error ->
    escalates error = true ->
    LeafRun (fallbackChatOf (afterSend chat message w1)) message
            (afterCreate (afterSend chat message w1)) (Throw e) wf ->
    LoopRun chat message (maxRetries RETRY_CONFIG) 1 (Some (asError error))
            (afterBackoff 0 wf) r w' ->
    TopRun chat message w r w'.

(** ** Invariants of the breaker *)

(** The failure count is not negative, and the breaker is open exactly when
    the count has reached the threshold. *)
Definition breakerSound (b : CircuitBreakerState) : Prop :=
  (0 <= failures b)%Z
  /\ (isOpen b = true <-> (failureThreshold CIRCUIT_BREAKER_CONFIG <= failures b)%Z).

(** A clock that never goes back. *)
Definition monotoneClock (clk : nat -> Z) : Prop :=
  forall i j, (i <= j)%nat -> (clk i <= clk j)%Z.

(** An open breaker stays shut for the reset timeout at least, counted from
    the last failure recorded. *)
Definition holdsOff (b : CircuitBreakerState) : Prop :=
  isOpen b = true ->
  (lastFailureTime b + resetTimeout CIRCUIT_BREAKER_CONFIG <= openUntil b)%Z.

(** The messages the service composes itself. *)
Definition ownMessages : list jsstring :=
  [invalidApiKeyMessage; rateLimitMessage; overloadedMessage;
   bothUnavailableMessage].

(** A process whose breaker opened at time 1000 (fifth failure) and whose
    clock reads 20000. *)
Definition heldWorld : World :=
  mkWorld (mkBreaker 5 1000 true 31000) (fun _ => 20000%Z) 0
          (fun _ => Responds None) 0 (fun _ => 0) 0 1 [].

(** The time a run sleeps: the sum of its [delay]s, in milliseconds. *)
Fixpoint totalDelay (t : list Event) : Q :=
  match t with
  | [] => 0
  | EvDelay ms :: rest => ms + totalDelay rest
  | _ :: rest => totalDelay rest
  end.

(** The longest sleep of [retries] retries in a row, the first one after
    attempt [attempt]: each waits less than 1.3 times its base delay. *)
Fixpoint backoffBudget (retries attempt : nat) : Q :=
  match retries with
  | O => 0
  | S retries' =>
      (13 # 10) * inject_Z (backoffBase attempt)
      + backoffBudget retries' (S attempt)
  end.

(** What [Math.random] promises: a number in the interval from 0 to 1,
    1 excluded. *)
Definition unitRandom (rnd : nat -> Q) : Prop :=
  forall i, 0 <= rnd i /\ rnd i < 1.

(** The error a call may throw: one of the four messages of the service, or
    the message of an error of the provider, which then carries no overload
    marker. *)
Definition thrownBy (prov : nat -> ProviderOutcome) (e : JsThrown) : Prop :=
  exists m, e = ErrorObj m
    /\ (In m ownMessages
        \/ (isOverloaded m = false
            /\ exists i error, prov i = Rejects error /\ m = asError error)).

(** ** Replies in the format the system instruction asks for *)

(** A code unit that stands for itself inside a JSON string literal: no
    quote, no backslash, no control character. *)
Definition plainUnit (c : N) : bool :=
  (negb (c =? 34) && negb (c =? 92) && negb (c <? 32))%N.

(** The object with the two keys, [sep] being the white space written after
    the colons and the comma. *)
Definition replyText (sep sceneDescription imagePrompt : jsstring) : jsstring :=
  jq "{'sceneDescription':" ++ sep ++ [34%N] ++ sceneDescription
     ++ jq "'," ++ sep ++ jq "'imagePrompt':" ++ sep ++ [34%N] ++ imagePrompt
     ++ jq "'}".

(** The same reply inside a Markdown fence tagged [json]. *)
Definition fencedReply (sep sceneDescription imagePrompt : jsstring)
  : jsstring :=
  Fence.backticks ++ js "json" ++ [10%N]
    ++ replyText sep sceneDescription imagePrompt ++ [10%N] ++ Fence.backticks.

(** A fresh process whose provider answers the first turn in the fenced
    format. *)
Definition fencedWorld : World :=
  freshWorld (fun _ => 0%Z)
    (fun _ => Responds (Some (fencedReply [32%N] (js "You enter a cave.")
                                (js "dark cave entrance, torchlight"))))
    (fun _ => 0).

(** ** The single-attempt variant of the service *)

Module SingleAttempt.

(** [sendMessageToGemini(chat, message)] of the variant without retries,
    fallback model and breaker: one request, the same parser, the same
    translation of credential and quota errors, anything else rethrown. *)
Definition sendMessageToGemini (chat : Chat) (message : jsstring)
  : M (option GameAIResponse) :=
  tryCatch
    (responseText <- sendMessage chat message ;;
     if emptyText responseText then ret None
     else liftC (parseGeminiResponse (textOf responseText)))
    (fun error =>
       match error with
       | ErrorObj m =>
           if isInvalidApiKey m then throw (ErrorObj invalidApiKeyMessage)
           else if isQuotaExceeded m then throw (ErrorObj rateLimitMessage)
           else throw error
       | NonError _ => throw error
       end).

End SingleAttempt.

(** ** The client and the relay together *)

(** The prefix of the data URL the relay builds. *)
Definition dataUrlPrefix : jsstring := js "data:image/png;base64,".

(** What the client's [fetch] resolves to when the handler of the relay
    runs on the request the client sent: [express.json()] has parsed the
    body, which is within its size limit and carries the client's prompt, a
    string. *)
Definition relayed (reason : N -> jsstring) (prompt : jsstring)
  (relayKey : option jsstring) (upstream : Completion Upstream)
  : Completion HttpResponse :=
  Return (answerAsResponse reason
            (relayHandler (Some (JString prompt)) relayKey upstream)).

(** An image provider that answers with one PNG. *)
Definition pngUpstream : Upstream :=
  mkUpstream 200 (js "OK") (Return (js "PNG bytes")) (Return (js "iVBORw0KGgo=")).

(** ** The component: [App.tsx] *)

(** The state of the component: its [useState] cells and [chatRef]. *)
Record AppState : Type := mkApp {
  gameStarted : bool;
  currentSceneDescription : JsVal;
  currentImageUrl : JsVal;
  playerAction : jsstring;
  isLoading : bool;
  error : option jsstring;
  loadingMessage : jsstring;
  chatRef : option Chat
}.

Definition quotaBanner : jsstring :=
  js "You've exceeded your current API usage quota. Please check your plan and billing details, or try again later. For more information, visit https://ai.google.dev/gemini-api/docs/rate-limits.".
Definition keyBanner : jsstring :=
  js "Invalid API Key. Please ensure your API_KEY is correctly configured in the environment variables and that the key is valid.".
Definition trafficBanner : jsstring :=
  js "The AI service is currently experiencing high traffic. We automatically retry failed requests, but if this persists, please try again in a few minutes.".
Definition startFailedBanner : jsstring :=
  js "Failed to initialize the game. The AI storyteller might be busy or returned an unexpected response.".
Definition turnFailedBanner : jsstring :=
  js "The story took an unexpected turn, or the AI is pondering. Try a different action or check if the AI returned an empty response.".

Section Component.

(** [String.prototype.toLowerCase] and the ToString conversion of a
    template literal, for values that are no strings. *)
Variable toLowerCase : jsstring -> jsstring.
Variable ToString : Json -> jsstring.

(** What [generateImageWithCloudflare] settles to for a prompt. *)
Variable generateImage : JsVal -> Completion JsVal.

(** The message [handleGenericError] puts into [error]. *)
Definition errorBanner (err : JsThrown) (context : jsstring) : jsstring :=
  match err with
  | ErrorObj m =>
      if startsWith (js "RateLimitError:") m then quotaBanner
      else if includes (js "Invalid API Key") m then keyBanner
      else if includes (js "overloaded") m || includes (js "UNAVAILABLE") m
      then trafficBanner
      else js "An error occurred: " ++ m
  | NonError _ =>
      js "An unknown error occurred while " ++ toLowerCase context ++ js "."
  end.

Definition handleGenericError (err : JsThrown) (context : jsstring)
  (st : AppState) : AppState :=
  mkApp (gameStarted st) (currentSceneDescription st) (currentImageUrl st)
        (playerAction st) (isLoading st)
        (Some (errorBanner err context)) [] (chatRef st).

(** [${v}] in a template literal. *)
Definition templ (v : JsVal) : jsstring :=
  match v with
  | Some (JString s) => s
  | Some other => ToString other
  | None => js "undefined"
  end.

(** [finally { setIsLoading(false) }] *)
Definition doneLoading (st : AppState) : AppState :=
  mkApp (gameStarted st) (currentSceneDescription st) (currentImageUrl st)
        (playerAction st) false (error st) (loadingMessage st) (chatRef st).

Definition setScene (v : JsVal) (st : AppState) : AppState :=
  mkApp (gameStarted st) v (currentImageUrl st) (playerAction st)
        (isLoading st) (error st) (loadingMessage st) (chatRef st).

Definition setLoadingMessage (m : jsstring) (st : AppState) : AppState :=
  mkApp (gameStarted st) (currentSceneDescription st) (currentImageUrl st)
        (playerAction st) (isLoading st) (error st) m (chatRef st).

Definition setError (e : option jsstring) (st : AppState) : AppState :=
  mkApp (gameStarted st) (currentSceneDescription st) (currentImageUrl st)
        (playerAction st) (isLoading st) e (loadingMessage st) (chatRef st).

(** The part of a handler after the service answered with a result: the
    image is requested for [response.imagePrompt]; [shown] is the state
    once the scene description is set, [onImage] what is done with the
    image, [onError] the [catch] block. *)
Definition withImage (response : Json) (shown : AppState)
  (onImage : JsVal -> AppState -> AppState)
  (onError : JsThrown -> AppState -> AppState) : AppState :=
  match getProp response imagePromptKey with
  | Throw e => onError e shown
  | Return imagePrompt =>
      match generateImage imagePrompt with
      | Return imageUrl => onImage imageUrl shown
      | Throw e => onError e shown
      end
  end.

(** [handleStartGame], run to its end. *)
Definition handleStartGame (st : AppState) (w : World) : AppState * World :=
  let st1 :=
    mkApp (gameStarted st) (Some (JString [])) (Some JNull) (playerAction st)
          true None (js "Starting your adventure...") (chatRef st) in
  let chat := mkChat GEMINI_MODEL_NAME (sessions w) in
  let w1 := snd (createChatSession GEMINI_MODEL_NAME w) in
  let st2 :=
    mkApp (gameStarted st1) (currentSceneDescription st1)
          (currentImageUrl st1) (playerAction st1) (isLoading st1)
          (error st1) (loadingMessage st1) (Some chat) in
  let onError := fun e s => handleGenericError e (js "starting game") s in
  match sendMessageToGemini chat (js "Start the adventure.") false w1 with
  | (Return initialResponse, w2) =>
      (doneLoading
         (match initialResponse with
          | Some r =>
              if truthy (Some r) then
                match getProp r sceneDescriptionKey with
                | Throw e => onError e st2
                | Return sceneDescription =>
                    withImage r
                      (setLoadingMessage (js "Generating scene artwork...")
                         (setScene sceneDescription st2))
                      (fun imageUrl s =>
                         mkApp true (currentSceneDescription s) imageUrl
                               (playerAction s) (isLoading s) (error s) []
                               (chatRef s))
                      onError
                end
              else setError (Some startFailedBanner) (setLoadingMessage [] st2)
          | None => setError (Some startFailedBanner) (setLoadingMessage [] st2)
          end), w2)
  | (Throw e, w2) => (doneLoading (onError e st2), w2)
  end.

(** [handlePlayerActionSubmit], run to its end. *)
Definition handlePlayerActionSubmit (st : AppState) (w : World)
  : AppState * World :=
  match trim (playerAction st), chatRef st, isLoading st with
  | _ :: _, Some chat, false =>
      let actionToSubmit := playerAction st in
      let st1 :=
        mkApp (gameStarted st) (currentSceneDescription st)
              (currentImageUrl st) [] true None
              (js "Processing your action...") (chatRef st) in
      let st2 :=
        setScene (Some (JString (templ (currentSceneDescription st1)
                                   ++ [10%N; 10%N; 62%N; 32%N]
                                   ++ actionToSubmit ++ [10%N]))) st1 in
      let onError := fun e s =>
        setScene (Some (JString
                          (templ (currentSceneDescription
                                    (handleGenericError e
                                       (js "processing your action") s))
                             ++ [10%N; 10%N]
                             ++ js "[An ominous silence fills the air as your words echo unanswered...]")))
                 (handleGenericError e (js "processing your action") s) in
      let onNothing := fun s =>
        setScene (Some (JString
                          (templ (currentSceneDescription s) ++ [10%N; 10%N]
                             ++ js "[The narrator seems to have lost their train of thought...]")))
                 (setError (Some turnFailedBanner) (setLoadingMessage [] s)) in
      match sendMessageToGemini chat actionToSubmit false w with
      | (Return gameResponse, w2) =>
          (doneLoading
             (match gameResponse with
              | Some r =>
                  if truthy (Some r) then
                    match getProp r sceneDescriptionKey with
                    | Throw e => onError e st2
                    | Return sceneDescription =>
                        withImage r
                          (setLoadingMessage (js "Creating scene artwork...")
                             (setScene
                                (Some (JString
                                         (templ (currentSceneDescription st2)
                                            ++ [10%N] ++ templ sceneDescription)))
                                st2))
                          (fun imageUrl s =>
                             mkApp (gameStarted s) (currentSceneDescription s)
                                   imageUrl (playerAction s) (isLoading s)
                                   (error s) [] (chatRef s))
                          onError
                    end
                  else onNothing st2
              | None => onNothing st2
              end), w2)
      | (Throw e, w2) => (doneLoading (onError e st2), w2)
      end
  | _, _, _ => (st, w)
  end.

(** [handleRestartGame] *)
Definition handleRestartGame (st : AppState) : AppState :=
  mkApp false (Some (JString [])) (Some JNull) [] false None [] None.

End Component.

(** The state of the component when it is mounted. *)
Definition mountedApp : AppState :=
  mkApp false (Some (JString [])) (Some JNull) [] false None [] None.

(** A component in the middle of a game, with an action typed in. *)
Definition playingApp : AppState :=
  mkApp true (Some (JString (js "You enter a cave.")))
        (Some (JString (js "data:image/png;base64,AAAA")))
        (js "light a torch") false None [] (Some primaryChat).

(** An image service that always answers with the same picture. *)
Definition samePicture : JsVal -> Completion JsVal :=
  fun _ => Return (Some (JString (js "data:image/png;base64,BBBB"))).

(** ** The outcome of a call, by its last request *)

(** The error a loop throws for the rejection of its last request. *)
Definition thrownFor (error : JsThrown) : JsThrown :=
  match error with
  | NonError _ => exhaustedError error
  | ErrorObj m =>
      if isInvalidApiKey m then ErrorObj invalidApiKeyMessage
      else if isQuotaExceeded m then ErrorObj rateLimitMessage
      else if isRetryableError m then exhaustedError error
      else error
  end.

(** The result [r] is the one the answer [outcome] of a request gives. *)
Definition outcomeOf (outcome : ProviderOutcome)
  (r : Completion (option GameAIResponse)) : Prop :=
  match outcome with
  | Responds text =>
      if emptyText text then r = Return None
      else r = parseGeminiResponse (textOf text)
  | Rejects error => r = Throw (thrownFor error)
  end.

(** A call that made no request was refused. *)
Definition lastRequest (w : World) (r : Completion (option GameAIResponse))
  (w' : World) : Prop :=
  (r = Throw (ErrorObj bothUnavailableMessage) /\ sent w' = sent w)
  \/ ((sent w < sent w')%nat /\ outcomeOf (provider w (sent w' - 1)) r).

(** Three calls in a row. *)
Definition threeCalls : list (Chat * jsstring) :=
  [(primaryChat, js "1"); (primaryChat, js "2"); (primaryChat, js "3")].

(** ** The length of one delay *)

(** A delay of at most 5200 ms: 1.3 times the base delay of attempt 2. *)
Definition shortDelay (e : Event) : Prop :=
  match e with
  | EvDelay ms => ms <= 5200
  | _ => True
  end.

(** The world [b] has the trace of [a] and more events, all of them
    satisfying [P]. *)
Definition segment (P : Event -> Prop) (a b : World) : Prop :=
  exists evs, trace b = trace a ++ evs /\ Forall P evs.

(** ** Answers of the relay without a body *)

(** An image provider that answers 304 with nothing. *)
Definition notModifiedUpstream : Upstream :=
  mkUpstream 304 (js "Not Modified") (Return []) (Return []).

(** ** Calls that end without a write *)


(** A fresh process whose provider is overloaded for the first five
    requests and answers without text afterwards. *)
Definition overloadThenSilentWorld : World :=
  freshWorld (fun _ => 0%Z)
    (fun i => if Nat.ltb i 5 then Rejects error503 else Responds None)
    (fun _ => 0).

(** A fresh process whose provider is overloaded for the first five
    requests and rejects with an error that is not retryable afterwards. *)
Definition overloadThenNotFoundWorld : World :=
  freshWorld (fun _ => 0%Z)
    (fun i => if Nat.ltb i 5 then Rejects error503 else Rejects error404)
    (fun _ => 0).

(** * Properties *)

Unset Implicit Arguments.

(** ** Running the monad *)

Ltac run_monad :=
  unfold bind, ret, throw, tryCatch, liftC, mark, getBreaker, putBreaker,
    Date_now, Math_random, delay, emit, setBreaker; cbn [fst snd].

Lemma gtb_false_of_le (a b : Z) : (a <= b)%Z -> (a >? b)%Z = false.
Proof. intros H. rewrite Z.gtb_ltb. apply Z.ltb_ge. exact H. Qed.

Lemma gtb_true_of_lt (a b : Z) : (b < a)%Z -> (a >? b)%Z = true.
Proof. intros H. rewrite Z.gtb_ltb. apply Z.ltb_lt. exact H. Qed.

(** ** The circuit breaker *)

(** A closed breaker admits and is left as it is. *)
Lemma checkCircuitBreaker_closed (w : World) :
  isOpen (circuitBreakerState w) = false ->
  checkCircuitBreaker w = (Return true, afterClockRead w).
Proof.
  intros H. unfold checkCircuitBreaker. run_monad. cbn. rewrite H. reflexivity.
Qed.

(** An open breaker whose time has not come refuses and is left as it is. *)
Lemma checkCircuitBreaker_refuses (w : World) :
  isOpen (circuitBreakerState w) = true ->
  (clock w (clockReads w) <= openUntil (circuitBreakerState w))%Z ->
  checkCircuitBreaker w = (Return false, afterClockRead w).
Proof.
  intros H Hle. unfold checkCircuitBreaker. run_monad. cbn. rewrite H.
  rewrite (gtb_false_of_le _ _ Hle). reflexivity.
Qed.

(** An open breaker whose time has passed is closed on the spot. *)
Lemma checkCircuitBreaker_resets (w : World) :
  isOpen (circuitBreakerState w) = true ->
  (clock w (clockReads w) > openUntil (circuitBreakerState w))%Z ->
  checkCircuitBreaker w = (Return true, afterReset w).
Proof.
  intros H Hgt. unfold checkCircuitBreaker. run_monad. cbn. rewrite H.
  rewrite gtb_true_of_lt by lia. reflexivity.
Qed.

(** The three ways an admission check can go. *)
Lemma checkCircuitBreaker_cases (w : World) :
  (isOpen (circuitBreakerState w) = false
   /\ checkCircuitBreaker w = (Return true, afterClockRead w))
  \/ (isOpen (circuitBreakerState w) = true
      /\ (clock w (clockReads w) <= openUntil (circuitBreakerState w))%Z
      /\ checkCircuitBreaker w = (Return false, afterClockRead w))
  \/ (isOpen (circuitBreakerState w) = true
      /\ (clock w (clockReads w) > openUntil (circuitBreakerState w))%Z
      /\ checkCircuitBreaker w = (Return true, afterReset w)).
Proof.
  destruct (isOpen (circuitBreakerState w)) eqn:Ho.
  - destruct (Z_le_gt_dec (clock w (clockReads w))
                          (openUntil (circuitBreakerState w))) as [Hle | Hgt].
    + right; left. auto using checkCircuitBreaker_refuses.
    + right; right. auto using checkCircuitBreaker_resets.
  - left. auto using checkCircuitBreaker_closed.
Qed.

Lemma count_app (p : Event -> bool) (a b : list Event) :
  count p (a ++ b) = (count p a + count p b)%nat.
Proof. unfold count. rewrite filter_app, length_app. reflexivity. Qed.

(** An admitted call starts its loop on a closed breaker, with the trace it
    had, but for the reset mark. *)
Lemma entered_world (w0 w : World) :
  checkCircuitBreaker w0 = (Return true, w) ->
  isOpen (circuitBreakerState w) = false
  /\ (failures (circuitBreakerState w) = failures (circuitBreakerState w0)
      \/ failures (circuitBreakerState w) = 0%Z)
  /\ sent w = sent w0 /\ provider w = provider w0 /\ clock w = clock w0
  /\ count isDelay (trace w) = count isDelay (trace w0)
  /\ count isSend (trace w) = count isSend (trace w0)
  /\ count isRecord (trace w) = count isRecord (trace w0)
  /\ count isCreateChat (trace w) = count isCreateChat (trace w0)
  /\ (count isReset (trace w0) <= count isReset (trace w))%nat.
Proof.
  intros H.
  destruct (checkCircuitBreaker_cases w0) as [[Ho E] | [[Ho [Hc E]] | [Ho [Hc E]]]];
    rewrite E in H; inversion H; subst w;
    unfold afterReset, afterClockRead;
    cbn [trace circuitBreakerState sent provider clock isOpen failures].
  - repeat split; auto.
  - rewrite !count_app. unfold count at 2 4 6 8 11.
    cbn [filter isDelay isSend isRecord isCreateChat isReset List.length].
    rewrite !Nat.add_0_r. repeat split; auto. lia.
Qed.

(** With the breaker open and both admission checks made in time, a primary
    call is refused on both paths. *)
Lemma sendMessageToGemini_refused_both (chat : Chat) (message : jsstring)
  (w : World) :
  isOpen (circuitBreakerState w) = true ->
  (clock w (clockReads w) <= openUntil (circuitBreakerState w))%Z ->
  (clock w (S (clockReads w)) <= openUntil (circuitBreakerState w))%Z ->
  sendMessageToGemini chat message false w
    = (Throw (ErrorObj bothUnavailableMessage),
       mkWorld (circuitBreakerState w) (clock w) (S (S (clockReads w)))
         (provider w) (sent w) (randomSource w) (randomReads w)
         (S (sessions w))
         (trace w ++ [EvCreateChat (mkChat FALLBACK_MODEL_NAME (sessions w))])).
Proof.
  intros Hopen H1 H2.
  unfold sendMessageToGemini, sendMessageToGemini_body at 1.
  unfold bind at 1. rewrite (checkCircuitBreaker_refuses w Hopen H1).
  cbn [negb]. unfold bind at 1. unfold createChatSession at 1.
  unfold sendMessageToGemini_leaf, sendMessageToGemini_body.
  unfold bind at 1.
  rewrite checkCircuitBreaker_refuses; [reflexivity | exact Hopen | exact H2].
Qed.

(** C9. With the breaker open and both admission checks made no later than
    [openUntil], a call with [useFallback = false] creates the fallback
    session, is refused a second time by the same breaker, and throws the
    "both unavailable" error; nothing is sent to either model and the
    breaker is untouched. *)
Theorem open_breaker_refuses_both_paths (chat : Chat) (message : jsstring)
  (w : World) :
  isOpen (circuitBreakerState w) = true ->
  (clock w (clockReads w) <= openUntil (circuitBreakerState w))%Z ->
  (clock w (S (clockReads w)) <= openUntil (circuitBreakerState w))%Z ->
  let w' :=
    mkWorld (circuitBreakerState w) (clock w) (S (S (clockReads w)))
            (provider w) (sent w) (randomSource w) (randomReads w)
            (S (sessions w))
            (trace w ++ [EvCreateChat (mkChat FALLBACK_MODEL_NAME (sessions w))])
  in
  sendMessageToGemini chat message false w
    = (Throw (ErrorObj bothUnavailableMessage), w')
  /\ sent w' = sent w
  /\ count isSend (trace w') = count isSend (trace w).
Proof.
  intros Hopen H1 H2 w'. split; [| split].
  - apply sendMessageToGemini_refused_both; assumption.
  - reflexivity.
  - unfold w', count. cbn [trace]. rewrite filter_app. cbn.
    rewrite app_nil_r. reflexivity.
Qed.

Lemma open_breaker_refuses_both_paths_witness :
  sendMessageToGemini primaryChat (js "go") false
    (mkWorld (mkBreaker 5 0 true 30000) (fun _ => 100%Z) 0
             (fun _ => Responds None) 0 (fun _ => 0) 0 1 [])
  = (Throw (ErrorObj bothUnavailableMessage),
     mkWorld (mkBreaker 5 0 true 30000) (fun _ => 100%Z) 2
             (fun _ => Responds None) 0 (fun _ => 0) 0 2
             [EvCreateChat (mkChat FALLBACK_MODEL_NAME 1)]).
Proof.
  apply (open_breaker_refuses_both_paths primaryChat (js "go")
           (mkWorld (mkBreaker 5 0 true 30000) (fun _ => 100%Z) 0
                    (fun _ => Responds None) 0 (fun _ => 0) 0 1 [])).
  - reflexivity.
  - cbn. lia.
  - cbn. lia.
Defined.

(** ** One iteration of the retry loop *)

Lemma recordSuccess_run (w : World) :
  recordSuccess w = (Return tt, afterSuccess w).
Proof. reflexivity. Qed.

Lemma recordFailure_run (w : World) :
  recordFailure w = (Return tt, afterFailure w).
Proof.
  unfold afterFailure, recordFailure. run_monad. cbn.
  destruct (_ >=? _)%Z; reflexivity.
Qed.

Lemma sendMessage_run (chat : Chat) (message : jsstring) (w : World) :
  sendMessage chat message w =
    (match provider w (sent w) with
     | Responds text => Return text
     | Rejects e => Throw e
     end, afterSend chat message w).
Proof. unfold sendMessage, afterSend. destruct (provider w (sent w)); reflexivity. Qed.

Section LoopSteps.

Variable self : Chat -> jsstring -> bool -> M (option GameAIResponse).
Variables (chat : Chat) (message : jsstring) (useFallback : bool).

(** An empty or missing text: [null] is returned, nothing else happens. *)
Lemma retryLoop_empty_text (k attempt : nat) (lastError : option jsstring)
  (w : World) (text : option jsstring) :
  provider w (sent w) = Responds text ->
  emptyText text = true ->
  retryLoop self (S k) attempt lastError chat message useFallback w
    = (Return None, afterSend chat message w).
Proof.
  intros Hp He. cbn [retryLoop]. unfold tryCatch, attemptTry, bind at 1.
  rewrite sendMessage_run, Hp, He. reflexivity.
Qed.

(** A rejected attempt enters the [catch] block. *)
Lemma retryLoop_rejected (k attempt : nat) (lastError : option jsstring)
  (w : World) (error : JsThrown) :
  provider w (sent w) = Rejects error ->
  retryLoop self (S k) attempt lastError chat message useFallback w
    = catchBlock self
        (fun lastError' =>
           retryLoop self k (S attempt) (Some lastError') chat message
                     useFallback)
        error message useFallback attempt (afterSend chat message w).
Proof.
  intros Hp. cbn [retryLoop]. unfold tryCatch at 1, attemptTry, bind at 1.
  rewrite sendMessage_run, Hp. reflexivity.
Qed.

Lemma classify_falls_through (error : JsThrown) (attempt : nat) (w : World) :
  fallsThrough error useFallback attempt = true ->
  classify self error message useFallback attempt w = (Return None, w).
Proof.
  unfold fallsThrough, classify. destruct error as [m | v]; [| reflexivity].
  intros H. apply andb_prop in H as [H H4]. apply andb_prop in H as [H H3].
  apply andb_prop in H as [H1 H2].
  apply negb_true_iff in H1, H2, H4. rewrite H1, H2, H3, H4. reflexivity.
Qed.

(** A failure that falls through before the last attempt: backoff, then the
    next attempt. *)
Lemma catchBlock_retries (continue : jsstring -> M (option GameAIResponse))
  (error : JsThrown) (attempt : nat) (w : World) :
  fallsThrough error useFallback attempt = true ->
  Nat.eqb attempt (maxRetries RETRY_CONFIG) = false ->
  catchBlock self continue error message useFallback attempt w
    = continue (asError error) (afterBackoff attempt w).
Proof.
  intros Hf Ha. unfold catchBlock. unfold bind at 1.
  rewrite (classify_falls_through _ _ _ Hf). rewrite Ha. reflexivity.
Qed.

(** A failure that falls through at the last attempt: the failure is
    recorded and the terminal error thrown. *)
Lemma catchBlock_exhausted (continue : jsstring -> M (option GameAIResponse))
  (error : JsThrown) (attempt : nat) (w : World) :
  fallsThrough error useFallback attempt = true ->
  Nat.eqb attempt (maxRetries RETRY_CONFIG) = true ->
  catchBlock self continue error message useFallback attempt w
    = (Throw (exhaustedError error), afterFailure w).
Proof.
  intros Hf Ha. unfold catchBlock. unfold bind at 1.
  rewrite (classify_falls_through _ _ _ Hf). rewrite Ha.
  unfold bind. rewrite recordFailure_run. unfold exhaustedError.
  destruct (isOverloaded (asError error)); reflexivity.
Qed.

(** A credential or quota error leaves the [catch] block at once. *)
Lemma catchBlock_policy_error (continue : jsstring -> M (option GameAIResponse))
  (m : jsstring) (attempt : nat) (w : World) :
  isInvalidApiKey m || isQuotaExceeded m = true ->
  catchBlock self continue (ErrorObj m) message useFallback attempt w
    = (Throw (ErrorObj (if isInvalidApiKey m then invalidApiKeyMessage
                        else rateLimitMessage)), w).
Proof.
  intros H. unfold catchBlock, classify. unfold bind at 1.
  destruct (isInvalidApiKey m); [reflexivity |].
  cbn in H. rewrite H. reflexivity.
Qed.

(** Any other error that is not retryable is rethrown as it is. *)
Lemma catchBlock_not_retryable (continue : jsstring -> M (option GameAIResponse))
  (m : jsstring) (attempt : nat) (w : World) :
  isInvalidApiKey m = false -> isQuotaExceeded m = false ->
  isRetryableError m = false ->
  catchBlock self continue (ErrorObj m) message useFallback attempt w
    = (Throw (ErrorObj m), w).
Proof.
  intros H1 H2 H3. unfold catchBlock, classify. unfold bind at 1.
  rewrite H1, H2, H3. reflexivity.
Qed.

End LoopSteps.

(** ** The recursion budget of [JSON.parse] *)

Module JsonBudget.
Import JsonParse.

Lemma skipWs_length (s : jsstring) :
  (List.length (skipWs s) <= List.length s)%nat.
Proof.
  induction s as [| c s IH]; cbn [skipWs]; [lia |].
  destruct (isJsonWs c); cbn [List.length]; lia.
Qed.

Lemma expectUnit_length (k : N) (s r : jsstring) :
  expectUnit k s = Some r -> List.length s = S (List.length r).
Proof.
  destruct s as [| c s]; cbn [expectUnit]; [discriminate |].
  destruct (c =? k)%N; [| discriminate]. intros [= ->]. reflexivity.
Qed.

Lemma stripPrefix_length (p : jsstring) :
  forall s r, stripPrefix p s = Some r ->
              List.length s = (List.length p + List.length r)%nat.
Proof.
  induction p as [| x p IH]; intros s r; cbn [stripPrefix].
  - intros [= ->]. reflexivity.
  - destruct s as [| y s]; [discriminate |].
    destruct (x =? y)%N; [| discriminate].
    intros H. cbn [List.length]. rewrite (IH _ _ H). reflexivity.
Qed.

Lemma consUnit_ok (u : N) (p : PR jsstring) (t r : jsstring) :
  consUnit u p = Ok t r -> exists t', p = Ok t' r.
Proof. destruct p; cbn; try discriminate. intros [= _ ->]. eauto. Qed.

Lemma consUnit_exhausted (u : N) (p : PR jsstring) :
  consUnit u p = Exhausted -> p = Exhausted.
Proof. destruct p; cbn; (discriminate || reflexivity). Qed.

(** A string literal never uses the budget and always consumes input. *)
Lemma parseChars_shorter (n : nat) :
  forall s, (List.length s <= n)%nat ->
    parseChars s <> Exhausted
    /\ forall t r, parseChars s = Ok t r ->
                   (List.length r < List.length s)%nat.
Proof.
  induction n as [| n IH]; intros s Hn.
  - destruct s; [| cbn in Hn; lia]. cbn. split; discriminate.
  - destruct s as [| c rest]; [cbn; split; discriminate |].
    cbn [List.length] in Hn. cbn [parseChars].
    destruct (c =? 34)%N.
    { split; [discriminate |]. intros t r [= _ ->]. cbn. lia. }
    destruct (c =? 92)%N.
    + destruct rest as [| e rest1]; [split; discriminate |].
      cbn [List.length] in Hn.
      destruct (e =? 117)%N.
      * destruct rest1 as [| a [| b [| c' [| d rest2]]]];
          try (split; discriminate).
        destruct (hex4 a b c' d); [| split; discriminate].
        cbn [List.length] in Hn.
        destruct (IH rest2 ltac:(lia)) as [Hne Hlen]. split.
        -- intros H. apply consUnit_exhausted in H. contradiction.
        -- intros t r H. apply consUnit_ok in H as [t' H].
           specialize (Hlen _ _ H). cbn [List.length]. lia.
      * destruct (escapeUnit e); [| split; discriminate].
        destruct (IH rest1 ltac:(lia)) as [Hne Hlen]. split.
        -- intros H. apply consUnit_exhausted in H. contradiction.
        -- intros t r H. apply consUnit_ok in H as [t' H].
           specialize (Hlen _ _ H). cbn [List.length]. lia.
    + destruct (c <? 32)%N; [split; discriminate |].
      destruct (IH rest ltac:(lia)) as [Hne Hlen]. split.
      * intros H. apply consUnit_exhausted in H. contradiction.
      * intros t r H. apply consUnit_ok in H as [t' H].
        specialize (Hlen _ _ H). cbn [List.length]. lia.
Qed.

Lemma spanDigits_length (s : jsstring) :
  (List.length (fst (spanDigits s)) + List.length (snd (spanDigits s))
   = List.length s)%nat.
Proof.
  induction s as [| c s IH]; cbn [spanDigits]; [reflexivity |].
  destruct (isDigit c); cbn [fst snd List.length]; lia.
Qed.

Lemma parseFraction_length (s fp r : jsstring) :
  parseFraction s = Some (fp, r) -> (List.length r <= List.length s)%nat.
Proof.
  unfold parseFraction. destruct (expectUnit 46 s) as [r0 |] eqn:E.
  - apply expectUnit_length in E.
    pose proof (spanDigits_length r0) as H.
    destruct (fst (spanDigits r0)); [discriminate |].
    destruct (spanDigits r0) as [d r']. intros [= _ <-]. cbn [snd] in H. lia.
  - intros [= _ <-]. lia.
Qed.

Lemma parseExponent_length (s r : jsstring) (ex : Z) :
  parseExponent s = Some (ex, r) -> (List.length r <= List.length s)%nat.
Proof.
  unfold parseExponent. destruct s as [| c s']; [intros [= _ <-]; lia |].
  destruct ((c =? 101)%N || (c =? 69)%N); [| intros [= _ <-]; lia].
  set (signed := match expectUnit 45 s' with
                 | Some r' => (true, r')
                 | None => match expectUnit 43 s' with
                           | Some r' => (false, r')
                           | None => (false, s')
                           end
                 end).
  assert (Hs : (List.length (snd signed) <= List.length s')%nat).
  { unfold signed. destruct (expectUnit 45 s') as [r' |] eqn:E1.
    - apply expectUnit_length in E1. cbn [snd]. lia.
    - destruct (expectUnit 43 s') as [r' |] eqn:E2.
      + apply expectUnit_length in E2. cbn [snd]. lia.
      + cbn [snd]. lia. }
  pose proof (spanDigits_length (snd signed)) as H.
  destruct (fst (spanDigits (snd signed))); [discriminate |].
  intros [= _ <-]. cbn [List.length]. lia.
Qed.

(** A number never uses the budget and always consumes input. *)
Lemma parseNumber_shorter (s : jsstring) :
  parseNumber s <> Exhausted
  /\ forall v r, parseNumber s = Ok v r ->
                 (List.length r < List.length s)%nat.
Proof.
  unfold parseNumber.
  set (s1 := match expectUnit 45 s with Some r => r | None => s end).
  assert (Hs1 : (List.length s1 <= List.length s)%nat).
  { unfold s1. destruct (expectUnit 45 s) as [r |] eqn:E; [| lia].
    apply expectUnit_length in E. lia. }
  pose proof (spanDigits_length s1) as Hspan.
  destruct (fst (spanDigits s1)) as [| d0 more]; [split; discriminate |].
  destruct ((d0 =? 48)%N && negb match more with [] => true | _ => false end);
    [split; discriminate |].
  destruct (parseFraction (snd (spanDigits s1))) as [[fp s3] |] eqn:Ef;
    [| split; discriminate].
  apply parseFraction_length in Ef.
  destruct (parseExponent s3) as [[ex s4] |] eqn:Ee; [| split; discriminate].
  apply parseExponent_length in Ee.
  split; [discriminate |]. intros v r [= _ <-].
  cbn [List.length] in Hspan. lia.
Qed.

Lemma parseLiteral_shorter (s : jsstring) :
  parseLiteral s <> Exhausted
  /\ forall v r, parseLiteral s = Ok v r ->
                 (List.length r < List.length s)%nat.
Proof.
  unfold parseLiteral.
  destruct (stripPrefix (js "true") s) as [r0 |] eqn:E1.
  { apply stripPrefix_length in E1. split; [discriminate |].
    intros v r [= _ <-]. cbn in E1. lia. }
  destruct (stripPrefix (js "false") s) as [r0 |] eqn:E2.
  { apply stripPrefix_length in E2. split; [discriminate |].
    intros v r [= _ <-]. cbn in E2. lia. }
  destruct (stripPrefix (js "null") s) as [r0 |] eqn:E3.
  { apply stripPrefix_length in E3. split; [discriminate |].
    intros v r [= _ <-]. cbn in E3. lia. }
  split; discriminate.
Qed.

(** With a budget of twice the input and one more, a value is parsed
    without using the budget up, and so are elements and members with one
    more again; a parsed value has consumed input. *)
Lemma parse_budget (fuel : nat) :
  (forall s, (2 * List.length s + 1 <= fuel)%nat ->
     parseValue fuel s <> Exhausted
     /\ forall v r, parseValue fuel s = Ok v r ->
                    (List.length r < List.length s)%nat)
  /\ (forall acc s, (2 * List.length s + 2 <= fuel)%nat ->
        parseElements fuel acc s <> Exhausted
        /\ forall v r, parseElements fuel acc s = Ok v r ->
                       (List.length r < List.length s)%nat)
  /\ (forall acc s, (2 * List.length s + 2 <= fuel)%nat ->
        parseMembers fuel acc s <> Exhausted
        /\ forall v r, parseMembers fuel acc s = Ok v r ->
                       (List.length r < List.length s)%nat).
Proof.
  induction fuel as [| f (IHv & IHe & IHm)].
  - repeat split; intros; lia.
  - split; [| split].
    + (* values *)
      intros s Hf. cbn [parseValue].
      destruct (expectUnit 123 s) as [r0 |] eqn:Eo.
      { apply expectUnit_length in Eo. pose proof (skipWs_length r0) as Hw.
        destruct (expectUnit 125 (skipWs r0)) as [r' |] eqn:Ec.
        - apply expectUnit_length in Ec. split; [discriminate |].
          intros v r [= _ <-]. lia.
        - destruct (IHm [] (skipWs r0) ltac:(lia)) as [Hne Hlen].
          split; [exact Hne |]. intros v r H. specialize (Hlen _ _ H). lia. }
      destruct (expectUnit 91 s) as [r0 |] eqn:Ea.
      { apply expectUnit_length in Ea. pose proof (skipWs_length r0) as Hw.
        destruct (expectUnit 93 (skipWs r0)) as [r' |] eqn:Ec.
        - apply expectUnit_length in Ec. split; [discriminate |].
          intros v r [= _ <-]. lia.
        - destruct (IHe [] (skipWs r0) ltac:(lia)) as [Hne Hlen].
          split; [exact Hne |]. intros v r H. specialize (Hlen _ _ H). lia. }
      destruct (expectUnit 34 s) as [r0 |] eqn:Eq.
      { apply expectUnit_length in Eq.
        destruct (parseChars_shorter (List.length r0) r0 (le_n _))
          as [Hne Hlen].
        destruct (parseChars r0) as [t r' | |] eqn:Ech.
        - split; [discriminate |]. intros v r [= _ <-].
          specialize (Hlen _ _ eq_refl). lia.
        - split; discriminate.
        - contradiction. }
      destruct (startsNumber s);
        [apply parseNumber_shorter | apply parseLiteral_shorter].
    + (* elements *)
      intros acc s Hf. cbn [parseElements].
      destruct (IHv s ltac:(lia)) as [Hne Hlen].
      destruct (parseValue f s) as [v0 r0 | |] eqn:Ev;
        [| split; discriminate | contradiction].
      specialize (Hlen _ _ eq_refl). pose proof (skipWs_length r0) as Hw.
      destruct (expectUnit 44 (skipWs r0)) as [r' |] eqn:Ec.
      * apply expectUnit_length in Ec. pose proof (skipWs_length r') as Hw'.
        destruct (IHe (v0 :: acc) (skipWs r') ltac:(lia)) as [Hne' Hlen'].
        split; [exact Hne' |]. intros v r H. specialize (Hlen' _ _ H). lia.
      * destruct (expectUnit 93 (skipWs r0)) as [r' |] eqn:Ed;
          [| split; discriminate].
        apply expectUnit_length in Ed. split; [discriminate |].
        intros v r [= _ <-]. lia.
    + (* members *)
      intros acc s Hf. cbn [parseMembers].
      destruct (expectUnit 34 s) as [r0 |] eqn:Eq; [| split; discriminate].
      apply expectUnit_length in Eq.
      destruct (parseChars_shorter (List.length r0) r0 (le_n _))
        as [Hnec Hlenc].
      destruct (parseChars r0) as [k r1 | |] eqn:Ech;
        [| split; discriminate | contradiction].
      specialize (Hlenc _ _ eq_refl). pose proof (skipWs_length r1) as Hw1.
      destruct (expectUnit 58 (skipWs r1)) as [r2 |] eqn:Ecolon;
        [| split; discriminate].
      apply expectUnit_length in Ecolon.
      pose proof (skipWs_length r2) as Hw2.
      destruct (IHv (skipWs r2) ltac:(lia)) as [Hne Hlen].
      destruct (parseValue f (skipWs r2)) as [v0 r3 | |] eqn:Ev;
        [| split; discriminate | contradiction].
      specialize (Hlen _ _ eq_refl). pose proof (skipWs_length r3) as Hw3.
      destruct (expectUnit 44 (skipWs r3)) as [r' |] eqn:Ec.
      * apply expectUnit_length in Ec. pose proof (skipWs_length r') as Hw'.
        destruct (IHm ((k, v0) :: acc) (skipWs r') ltac:(lia)) as [Hne' Hlen'].
        split; [exact Hne' |]. intros v r H. specialize (Hlen' _ _ H). lia.
      * destruct (expectUnit 125 (skipWs r3)) as [r' |] eqn:Ed;
          [| split; discriminate].
        apply expectUnit_length in Ed. split; [discriminate |].
        intros v r [= _ <-]. lia.
Qed.

End JsonBudget.

(** The budget [JSON_parse] gives its parser is never used up: the model
    throws syntax errors only. *)
Lemma JSON_parse_budget (text : jsstring) :
  JsonParse.parseValue (S (2 * List.length (JsonParse.skipWs text)))
    (JsonParse.skipWs text) <> JsonParse.Exhausted.
Proof.
  apply (proj1 (JsonBudget.parse_budget _)). lia.
Qed.

(** ** The response parser *)

Lemma parseGeminiResponse_returns (responseText : jsstring) :
  exists r, parseGeminiResponse responseText = Return r.
Proof.
  unfold parseGeminiResponse, tryCatchC.
  destruct (parseGeminiResponse_try responseText) as [r | e]; eauto.
Qed.

Lemma truthy_not_empty_string (v : Json) :
  truthy (Some v) = true -> v <> JString [].
Proof. intros H E. subst v. discriminate H. Qed.

(** What the parser answers, by what [JSON.parse] made of the text. *)
Lemma parseGeminiResponse_by_cases (responseText : jsstring) :
  parseGeminiResponse responseText =
    match JSON_parse (unfence responseText) with
    | Return (JObject ms) =>
        if truthy (lookupLast sceneDescriptionKey ms)
           && truthy (lookupLast imagePromptKey ms)
        then Return (Some (JObject ms)) else Return None
    | _ => Return None
    end.
Proof.
  unfold parseGeminiResponse, parseGeminiResponse_try, tryCatchC, bindC.
  destruct (JSON_parse (unfence responseText)) as [v | e]; [| reflexivity].
  destruct v; cbn [getProp truthy]; try reflexivity.
  destruct (truthy (lookupLast sceneDescriptionKey members)); [| reflexivity].
  destruct (truthy (lookupLast imagePromptKey members)); reflexivity.
Qed.

(** C7. The parser never raises; it answers a result only for a decoded
    object whose two keys are present with non-empty values, and answers no
    result when decoding fails, when the decoded value is not an object, and
    when a key is missing or holds the empty string. *)
Theorem parseGeminiResponse_never_raises (responseText : jsstring) :
  (exists r, parseGeminiResponse responseText = Return r)
  /\ (forall v, parseGeminiResponse responseText = Return (Some v) ->
        JSON_parse (unfence responseText) = Return v
        /\ exists ms sd ip,
             v = JObject ms
             /\ lookupLast sceneDescriptionKey ms = Some sd
             /\ lookupLast imagePromptKey ms = Some ip
             /\ truthy (Some sd) = true /\ truthy (Some ip) = true
             /\ sd <> JString [] /\ ip <> JString [])
  /\ (forall e, JSON_parse (unfence responseText) = Throw e ->
        parseGeminiResponse responseText = Return None)
  /\ (forall v, JSON_parse (unfence responseText) = Return v ->
        (forall ms, v <> JObject ms) ->
        parseGeminiResponse responseText = Return None)
  /\ (forall ms, JSON_parse (unfence responseText) = Return (JObject ms) ->
        missingOrEmpty sceneDescriptionKey ms
        \/ missingOrEmpty imagePromptKey ms ->
        parseGeminiResponse responseText = Return None).
Proof.
  split; [apply parseGeminiResponse_returns |].
  rewrite parseGeminiResponse_by_cases.
  destruct (JSON_parse (unfence responseText)) as [v | e].
  - repeat split.
    + destruct v; try discriminate.
      destruct (truthy (lookupLast sceneDescriptionKey members)) eqn:Hs;
        [| discriminate].
      destruct (truthy (lookupLast imagePromptKey members)) eqn:Hi;
        [| discriminate].
      cbn [andb] in H. injection H as <-. reflexivity.
    + destruct v; try discriminate.
      destruct (lookupLast sceneDescriptionKey members) as [sd |] eqn:Hs;
        [| discriminate].
      destruct (lookupLast imagePromptKey members) as [ip |] eqn:Hi;
        [| rewrite andb_false_r in H; discriminate].
      destruct (truthy (Some sd)) eqn:Ts; [| discriminate].
      destruct (truthy (Some ip)) eqn:Ti; [| discriminate].
      cbn [andb] in H. injection H as <-.
      exists members, sd, ip.
      repeat split; auto using truthy_not_empty_string.
    + intros e He. discriminate He.
    + intros v' Hv Hno. injection Hv as <-.
      destruct v; try reflexivity. exfalso. exact (Hno members eq_refl).
    + intros ms Hv Hmiss. injection Hv as ->.
      destruct Hmiss as [[H | H] | [H | H]]; rewrite H; cbn [truthy andb];
        try reflexivity; rewrite andb_false_r; reflexivity.
  - repeat split; try discriminate; reflexivity.
Qed.

(** The parser turns down free text without raising. *)
Lemma parseGeminiResponse_never_raises_witness :
  parseGeminiResponse (js "not json at all") = Return None.
Proof.
  apply (proj1 (proj2 (proj2 (parseGeminiResponse_never_raises
                                (js "not json at all"))))
           (ErrorObj (js "SyntaxError: Unexpected token in JSON"))).
  vm_compute. reflexivity.
Defined.

(** The examples of the specification, with the keys the code reads. *)
Example parse_fenced :
  parseGeminiResponse (jq "```json
{'sceneDescription':'a','imagePrompt':'b'}
```")
  = Return (Some (JObject [(sceneDescriptionKey, JString (js "a"));
                           (imagePromptKey, JString (js "b"))])).
Proof. vm_compute. reflexivity. Qed.

Example parse_missing_field :
  parseGeminiResponse (jq "{'sceneDescription':'a'}") = Return None.
Proof. vm_compute. reflexivity. Qed.

Example parse_empty_field :
  parseGeminiResponse (jq " {'sceneDescription':'a', 'imagePrompt':''} ")
  = Return None.
Proof. vm_compute. reflexivity. Qed.

Example parse_null_literal :
  parseGeminiResponse (js "null") = Return None.
Proof. vm_compute. reflexivity. Qed.




(** ** Backoff *)

Lemma backoffBase_pos (n : nat) : (0 < backoffBase n)%Z.
Proof.
  unfold backoffBase. cbn [baseDelay backoffFactor maxDelay RETRY_CONFIG].
  apply Z.min_glb_lt; [| lia].
  assert (0 < 2 ^ Z.of_nat n)%Z by (apply Z.pow_pos_nonneg; lia). lia.
Qed.

Lemma jitter_bounds (b r : Q) :
  0 <= b -> 0 <= r -> r < 1 ->
  0 <= r * (3 # 10) * b /\ r * (3 # 10) * b <= (3 # 10) * b.
Proof.
  intros Hb Hr Hr1. split.
  - apply Qmult_le_0_compat; [| exact Hb].
    apply Qmult_le_0_compat; [exact Hr | discriminate].
  - apply Qmult_le_compat_r; [| exact Hb].
    setoid_replace (3 # 10) with (1 * (3 # 10)) at 2 by ring.
    apply Qmult_le_compat_r; [apply Qlt_le_weak; exact Hr1 | discriminate].
Qed.

(** C6. The delay before the retry that follows attempt [n] starts from
    [min(1000 * 2^n, 8000)], which is 1000, 2000, 4000 and 8000 for
    n = 0, 1, 2, 3, and with a random factor in [0, 1) the delay waited
    lies between that base and 1.3 times that base; a retried attempt of
    the loop waits exactly this delay. *)
Theorem backoff_delay_bounds (n : nat) :
  backoffBase n = Z.min (1000 * 2 ^ Z.of_nat n) 8000
  /\ (backoffBase 0 = 1000 /\ backoffBase 1 = 2000
      /\ backoffBase 2 = 4000 /\ backoffBase 3 = 8000)%Z
  /\ (forall r : Q, 0 <= r -> r < 1 ->
        0 <= jitterOf r n
        /\ jitterOf r n <= (3 # 10) * inject_Z (backoffBase n)
        /\ inject_Z (backoffBase n) <= delayMsOf r n
        /\ delayMsOf r n <= (13 # 10) * inject_Z (backoffBase n))
  /\ (forall self continue error message useFallback w,
        fallsThrough error useFallback n = true ->
        Nat.eqb n (maxRetries RETRY_CONFIG) = false ->
        catchBlock self continue error message useFallback n w
          = continue (asError error) (afterBackoff n w)
        /\ trace (afterBackoff n w)
           = trace w ++ [EvDelay (delayMsOf (randomSource w (randomReads w)) n)]).
Proof.
  split; [reflexivity |]. split; [repeat split |]. split.
  - intros r Hr Hr1.
    assert (Hb : 0 <= inject_Z (backoffBase n)).
    { change 0 with (inject_Z 0). rewrite <- Zle_Qle.
      pose proof (backoffBase_pos n). lia. }
    destruct (jitter_bounds _ _ Hb Hr Hr1) as [H0 H1].
    unfold delayMsOf, jitterOf. repeat split; try assumption; lra.
  - intros self continue error message useFallback w Hf Hn. split.
    + apply catchBlock_retries; assumption.
    + reflexivity.
Qed.

Lemma backoff_delay_bounds_witness :
  0 <= jitterOf (1 # 2) 2
  /\ jitterOf (1 # 2) 2 <= (3 # 10) * inject_Z (backoffBase 2)
  /\ inject_Z (backoffBase 2) <= delayMsOf (1 # 2) 2
  /\ delayMsOf (1 # 2) 2 <= (13 # 10) * inject_Z (backoffBase 2).
Proof.
  apply (proj1 (proj2 (proj2 (backoff_delay_bounds 2))) (1 # 2)).
  - discriminate.
  - reflexivity.
Defined.

(** ** Success and policy errors inside the loop *)

Lemma retryLoop_success (self : Chat -> jsstring -> bool -> M (option GameAIResponse))
  (chat : Chat) (message : jsstring) (useFallback : bool)
  (k attempt : nat) (lastError : option jsstring) (w : World)
  (c : N) (t : jsstring) :
  provider w (sent w) = Responds (Some (c :: t)) ->
  retryLoop self (S k) attempt lastError chat message useFallback w
    = (parseGeminiResponse (c :: t), afterSuccess (afterSend chat message w)).
Proof.
  intros Hp. cbn [retryLoop]. unfold tryCatch at 1, attemptTry, bind at 1.
  rewrite sendMessage_run, Hp. cbn [emptyText textOf].
  unfold bind, liftC. rewrite recordSuccess_run.
  destruct (parseGeminiResponse_returns (c :: t)) as [r Hr]. rewrite Hr.
  reflexivity.
Qed.

Lemma retryLoop_policy_error (self : Chat -> jsstring -> bool -> M (option GameAIResponse))
  (chat : Chat) (message : jsstring) (useFallback : bool)
  (k attempt : nat) (lastError : option jsstring) (w : World) (m : jsstring) :
  provider w (sent w) = Rejects (ErrorObj m) ->
  isInvalidApiKey m || isQuotaExceeded m = true ->
  retryLoop self (S k) attempt lastError chat message useFallback w
    = (Throw (ErrorObj (if isInvalidApiKey m then invalidApiKeyMessage
                        else rateLimitMessage)),
       afterSend chat message w).
Proof.
  intros Hp Hm. rewrite retryLoop_rejected with (error := ErrorObj m) by exact Hp.
  apply catchBlock_policy_error. exact Hm.
Qed.

Lemma sendMessageToGemini_entered (chat : Chat) (message : jsstring)
  (useFallback : bool) (w0 w : World) :
  checkCircuitBreaker w0 = (Return true, w) ->
  sendMessageToGemini chat message useFallback w0
    = retryLoop sendMessageToGemini_leaf (S (maxRetries RETRY_CONFIG)) 0 None
        chat message useFallback w.
Proof.
  intros H. unfold sendMessageToGemini, sendMessageToGemini_body.
  unfold bind at 1. rewrite H. reflexivity.
Qed.

(** C10. When an attempt gets a non-empty text, [recordSuccess] runs before
    the parser: the call ends with the parser's answer and a breaker that is
    closed with zero failures, also when that answer is [null]. *)
Theorem success_resets_breaker_before_parsing
  (chat : Chat) (message : jsstring) (useFallback : bool)
  (w : World) (c : N) (t : jsstring) :
  provider w (sent w) = Responds (Some (c :: t)) ->
  let w' := afterSuccess (afterSend chat message w) in
  (forall self k attempt lastError,
     retryLoop self (S k) attempt lastError chat message useFallback w
       = (parseGeminiResponse (c :: t), w'))
  /\ (forall w0, checkCircuitBreaker w0 = (Return true, w) ->
        sendMessageToGemini chat message useFallback w0
          = (parseGeminiResponse (c :: t), w'))
  /\ (exists r, parseGeminiResponse (c :: t) = Return r)
  /\ failures (circuitBreakerState w') = 0%Z
  /\ isOpen (circuitBreakerState w') = false
  /\ trace w' = trace w ++ [EvSendMessage chat message; EvRecordSuccess]
  /\ (parseGeminiResponse (c :: t) = Return None ->
      forall w0, checkCircuitBreaker w0 = (Return true, w) ->
        sendMessageToGemini chat message useFallback w0 = (Return None, w')).
Proof.
  intros Hp w'. repeat split.
  - intros. apply retryLoop_success. exact Hp.
  - intros w0 H0. rewrite sendMessageToGemini_entered with (w := w) by exact H0.
    apply retryLoop_success. exact Hp.
  - apply parseGeminiResponse_returns.
  - unfold w'. cbn. rewrite <- app_assoc. reflexivity.
  - intros Hnone w0 H0. rewrite sendMessageToGemini_entered with (w := w) by exact H0.
    rewrite <- Hnone. apply retryLoop_success. exact Hp.
Qed.

Lemma success_resets_breaker_before_parsing_witness :
  sendMessageToGemini primaryChat (js "look around") false chattyWorld
    = (Return None,
       afterSuccess (afterSend primaryChat (js "look around")
                       (snd (checkCircuitBreaker chattyWorld)))).
Proof.
  assert (Hp : provider (snd (checkCircuitBreaker chattyWorld))
                 (sent (snd (checkCircuitBreaker chattyWorld)))
               = Responds (Some (110%N :: js "ot json at all")))
    by reflexivity.
  destruct (success_resets_breaker_before_parsing primaryChat
              (js "look around") false _ _ _ Hp)
    as (_ & _ & _ & _ & _ & _ & H).
  apply H.
  - vm_compute. reflexivity.
  - reflexivity.
Defined.

(** C4. An attempt rejected with a credential or quota error throws its
    translated error at once: the world is the one the rejected send left,
    so nothing more is sent, no delay is waited and the breaker is as it
    was; so it is for the first attempt of a call. *)
Theorem policy_errors_propagate_at_once
  (chat : Chat) (message : jsstring) (useFallback : bool)
  (w : World) (m : jsstring) :
  provider w (sent w) = Rejects (ErrorObj m) ->
  isInvalidApiKey m || isQuotaExceeded m = true ->
  let thrown :=
    ErrorObj (if isInvalidApiKey m then invalidApiKeyMessage
              else rateLimitMessage) in
  let w' := afterSend chat message w in
  (forall self k attempt lastError,
     retryLoop self (S k) attempt lastError chat message useFallback w
       = (Throw thrown, w'))
  /\ (forall w0, checkCircuitBreaker w0 = (Return true, w) ->
        sendMessageToGemini chat message useFallback w0 = (Throw thrown, w')
        /\ count isDelay (trace w') = count isDelay (trace w0)
        /\ count isSend (trace w') = S (count isSend (trace w0)))
  /\ sent w' = S (sent w)
  /\ trace w' = trace w ++ [EvSendMessage chat message]
  /\ circuitBreakerState w' = circuitBreakerState w
  /\ failures (circuitBreakerState w') = failures (circuitBreakerState w).
Proof.
  intros Hp Hm thrown w'. repeat split.
  - intros. apply retryLoop_policy_error; assumption.
  - rewrite sendMessageToGemini_entered with (w := w) by exact H.
    apply retryLoop_policy_error; assumption.
  - destruct (entered_world _ _ H) as (_ & _ & _ & _ & _ & Hd & _).
    rewrite <- Hd. unfold w', afterSend. cbn [trace]. rewrite count_app. cbn. lia.
  - destruct (entered_world _ _ H) as (_ & _ & _ & _ & _ & _ & Hs & _).
    rewrite <- Hs. unfold w', afterSend. cbn [trace]. rewrite count_app. cbn. lia.
Qed.

Lemma policy_errors_propagate_at_once_witness :
  sendMessageToGemini primaryChat (js "go") false badKeyWorld
    = (Throw (ErrorObj invalidApiKeyMessage),
       afterSend primaryChat (js "go") (afterClockRead badKeyWorld))
    /\ count isDelay (trace (afterSend primaryChat (js "go")
                               (afterClockRead badKeyWorld)))
       = count isDelay (trace badKeyWorld)
    /\ count isSend (trace (afterSend primaryChat (js "go")
                              (afterClockRead badKeyWorld)))
       = S (count isSend (trace badKeyWorld)).
Proof.
  assert (Hp : provider (afterClockRead badKeyWorld)
                 (sent (afterClockRead badKeyWorld))
               = Rejects errorKey) by reflexivity.
  assert (Hm : isInvalidApiKey (js "400 API key not valid. Please pass a valid API key.")
               || isQuotaExceeded (js "400 API key not valid. Please pass a valid API key.")
               = true) by (vm_compute; reflexivity).
  destruct (policy_errors_propagate_at_once primaryChat (js "go") false _ _ Hp Hm)
    as (_ & H & _).
  apply (H badKeyWorld). reflexivity.
Defined.


(** ** The image request *)

Lemma orEmpty_string (ToString : Json -> jsstring) (t : jsstring) :
  orEmpty ToString (Some (JString t)) = t.
Proof. destruct t; reflexivity. Qed.

Lemma lookup_error_with_details (v : Json) (e : JsThrown) :
  lookupLast (js "error") ((js "error", v) :: errorDetails e) = Some v.
Proof. destruct e; reflexivity. Qed.

(** What the relay answers is always an object: with [imageUrl] under
    status 200, with an [error] text under any other status, and the other
    statuses are never in the success range. *)
Lemma relayHandler_answers (prompt : JsVal) (key : option jsstring)
  (upstream : Completion Upstream) :
  let a := relayHandler prompt key upstream in
  (exists url,
     answerStatus a = 200%N
     /\ answerBody a = JObject [(js "imageUrl", JString url)])
  \/ (exists e rest,
        ((200 <=? answerStatus a) && (answerStatus a <=? 299))%N = false
        /\ answerBody a = JObject ((js "error", JString e) :: rest)
        /\ lookupLast (js "error") ((js "error", JString e) :: rest)
           = Some (JString e)).
Proof.
  unfold relayHandler, relayTry.
  destruct (truthy prompt); cbn [negb].
  2:{ right. eexists. eexists. cbn. repeat split. }
  destruct (configured key); cbn [negb].
  2:{ right. eexists. eexists. cbn. repeat split. }
  destruct upstream as [response | e]; cbn [bindC].
  - destruct (upOk response) eqn:Hok; cbn [negb].
    + destruct (upBase64 response) as [base64Image | e]; cbn [bindC].
      * left. eexists. cbn. split; reflexivity.
      * right. eexists. eexists. cbn [answerStatus answerBody].
        split; [reflexivity |].
        split; [reflexivity | apply lookup_error_with_details].
    + destruct (upText response) as [errorText | e]; cbn [bindC].
      * right. eexists. eexists. cbn [answerStatus answerBody].
        split; [exact Hok |]. split; reflexivity.
      * right. eexists. eexists. cbn [answerStatus answerBody].
        split; [reflexivity |].
        split; [reflexivity | apply lookup_error_with_details].
  - right. eexists. eexists. cbn [answerStatus answerBody].
    split; [reflexivity |].
    split; [reflexivity | apply lookup_error_with_details].
Qed.

(** Of the answers of the handler, for a provider status that a settled
    request carries, only the one with status 304 has no body. *)
Lemma relayHandler_null_body (prompt : JsVal) (key : option jsstring)
  (upstream : Completion Upstream) :
  (forall u, upstream = Return u -> finalStatus (upStatus u) = true) ->
  nullBodyStatus (answerStatus (relayHandler prompt key upstream)) = true ->
  answerStatus (relayHandler prompt key upstream) = 304%N.
Proof.
  intros Hfinal. unfold relayHandler, relayTry.
  destruct (truthy prompt); cbn [negb]; [| discriminate].
  destruct (configured key); cbn [negb]; [| discriminate].
  destruct upstream as [u | e]; cbn [bindC]; [| discriminate].
  specialize (Hfinal u eq_refl).
  destruct (upOk u) eqn:Hok; cbn [negb].
  - destruct (upBase64 u); cbn [bindC]; discriminate.
  - destruct (upText u); cbn [bindC answerStatus]; [| discriminate].
    unfold nullBodyStatus. intros H.
    unfold upOk in Hok. unfold finalStatus in Hfinal.
    repeat (apply orb_prop in H; destruct H as [H | H]);
      apply N.eqb_eq in H; rewrite H in *; try discriminate; reflexivity.
Qed.

(** C8 as stated fails: when the image provider answers 304, the handler
    hands that status on, the answer reaches the client without a body, and
    reading it raises a syntax error before the status is looked at: the
    error thrown is no generic error and carries neither the status nor a
    text of the relay. *)
Lemma not_modified_answer_raises_syntax_error :
  let response :=
    answerAsResponse (fun _ => js "Not Modified")
      (relayHandler (Some (JString (js "dark cave entrance")))
         (Some (js "cf-key")) (Return notModifiedUpstream)) in
  status response = 304%N /\ ok response = false
  /\ generateImageWithCloudflare (fun _ => js "[object Object]")
       (Some (js "cf-key")) (Return response) (js "dark cave entrance")
     = Throw (ErrorObj (js "SyntaxError: Unexpected token in JSON"))
  /\ includes (js "Cloudflare API error")
       (js "SyntaxError: Unexpected token in JSON") = false
  /\ includes (js "304") (js "SyntaxError: Unexpected token in JSON") = false.
Proof. vm_compute. repeat split; reflexivity. Qed.

(** C8, amended. With the key configured, an answer whose body can be read
    as JSON is mapped by its status: 429 raises the quota error (the
    RateLimitError message), 401 raises the invalid-key error, any other
    status outside 200..299 raises the generic error whose message carries
    the status, the status text and the relay's [error] text, and a success
    hands back the relay's [imageUrl] as it is.  The body is read before the
    status is tested: an answer whose body cannot be read raises the error
    of reading it, whatever its status.  Every answer the relay handler can
    give for a provider status from 200 to 999 is covered: its body can be
    read, except under status 304, where there is none. *)
Theorem relay_outcomes_map_to_errors (ToString : Json -> jsstring)
  (key : option jsstring) (prompt : jsstring) :
  configured key = true ->
  (forall response d,
     json response = Return d ->
     (status response = 429%N ->
      generateImageWithCloudflare ToString key (Return response) prompt
        = Throw (ErrorObj cloudflareQuotaMessage))
     /\ (status response = 401%N ->
         generateImageWithCloudflare ToString key (Return response) prompt
           = Throw (ErrorObj cloudflareKeyMessage))
     /\ (forall detail,
           ok response = false ->
           status response <> 429%N -> status response <> 401%N ->
           getProp d (js "error") = Return detail ->
           generateImageWithCloudflare ToString key (Return response) prompt
             = Throw (ErrorObj
                        (js "Cloudflare API error: "
                           ++ decimal (status response) ++ js " "
                           ++ statusText response ++ js ". "
                           ++ orEmpty ToString detail)))
     /\ (forall url,
           ok response = true ->
           getProp d (js "imageUrl") = Return url ->
           generateImageWithCloudflare ToString key (Return response) prompt
             = Return url))
  /\ (forall response e,
        json response = Throw e ->
        generateImageWithCloudflare ToString key (Return response) prompt
        = Throw e)
  /\ startsWith (js "RateLimitError:") cloudflareQuotaMessage = true
  /\ (forall reason relayPrompt relayKey upstream,
        (forall u, upstream = Return u -> finalStatus (upStatus u) = true) ->
        let a := relayHandler relayPrompt relayKey upstream in
        let result :=
          generateImageWithCloudflare ToString key
            (Return (answerAsResponse reason a)) prompt in
        (exists url,
           answerStatus a = 200%N
           /\ answerBody a = JObject [(js "imageUrl", JString url)]
           /\ result = Return (Some (JString url)))
        \/ (answerStatus a = 429%N
            /\ result = Throw (ErrorObj cloudflareQuotaMessage))
        \/ (answerStatus a = 401%N
            /\ result = Throw (ErrorObj cloudflareKeyMessage))
        \/ (answerStatus a = 304%N
            /\ json (answerAsResponse reason a) = JSON_parse []
            /\ result
               = Throw (ErrorObj (js "SyntaxError: Unexpected token in JSON")))
        \/ (exists e,
              nullBodyStatus (answerStatus a) = false
              /\ lookupLast (js "error")
                   (match answerBody a with JObject ms => ms | _ => [] end)
                 = Some (JString e)
              /\ result = Throw (ErrorObj
                                   (js "Cloudflare API error: "
                                      ++ decimal (answerStatus a) ++ js " "
                                      ++ reason (answerStatus a) ++ js ". "
                                      ++ e)))).
Proof.
  intros Hkey.
  assert (Hclient : forall response d,
     json response = Return d ->
     (status response = 429%N ->
      generateImageWithCloudflare ToString key (Return response) prompt
        = Throw (ErrorObj cloudflareQuotaMessage))
     /\ (status response = 401%N ->
         generateImageWithCloudflare ToString key (Return response) prompt
           = Throw (ErrorObj cloudflareKeyMessage))
     /\ (forall detail,
           ok response = false ->
           status response <> 429%N -> status response <> 401%N ->
           getProp d (js "error") = Return detail ->
           generateImageWithCloudflare ToString key (Return response) prompt
             = Throw (ErrorObj
                        (js "Cloudflare API error: "
                           ++ decimal (status response) ++ js " "
                           ++ statusText response ++ js ". "
                           ++ orEmpty ToString detail)))
     /\ (forall url,
           ok response = true ->
           getProp d (js "imageUrl") = Return url ->
           generateImageWithCloudflare ToString key (Return response) prompt
             = Return url)).
  { intros response d Hd.
    unfold generateImageWithCloudflare, tryCatchC, bindC.
    rewrite Hkey; cbn [negb]. rewrite Hd. repeat split.
    - intros Hs. unfold ok. rewrite Hs. reflexivity.
    - intros Hs. unfold ok. rewrite Hs. reflexivity.
    - intros detail Hok H429 H401 Hdetail. rewrite Hok; cbn [negb].
      apply N.eqb_neq in H429, H401. rewrite H429, H401, Hdetail.
      reflexivity.
    - intros url Hok Hurl. rewrite Hok; cbn [negb]. rewrite Hurl.
      destruct url; reflexivity. }
  assert (Hunread : forall response e,
            json response = Throw e ->
            generateImageWithCloudflare ToString key (Return response) prompt
            = Throw e).
  { intros response e He.
    unfold generateImageWithCloudflare, tryCatchC, bindC.
    rewrite Hkey; cbn [negb]. rewrite He.
    destruct (ok response); reflexivity. }
  split; [exact Hclient |]. split; [exact Hunread |].
  split; [vm_compute; reflexivity |].
  intros reason relayPrompt relayKey upstream Hfinal a result.
  destruct (nullBodyStatus (answerStatus a)) eqn:Hnull.
  - right. right. right. left.
    pose proof (relayHandler_null_body relayPrompt relayKey upstream Hfinal
                  Hnull) as H304.
    fold a in H304. split; [exact H304 |].
    assert (Hj : json (answerAsResponse reason a) = JSON_parse []).
    { unfold answerAsResponse. cbn [json]. rewrite Hnull. reflexivity. }
    split; [exact Hj |].
    apply Hunread. rewrite Hj. reflexivity.
  - assert (Hj : json (answerAsResponse reason a) = Return (answerBody a)).
    { unfold answerAsResponse. cbn [json]. rewrite Hnull. reflexivity. }
    destruct (relayHandler_answers relayPrompt relayKey upstream)
      as [[url [Hs Hb]] | [e [rest [Hs [Hb Hl]]]]]; fold a in Hs, Hb.
    + left. exists url. split; [exact Hs |]. split; [exact Hb |].
      destruct (Hclient (answerAsResponse reason a) (answerBody a) Hj)
        as (_ & _ & _ & Hok).
      apply Hok.
      * unfold ok, answerAsResponse. cbn [status]. rewrite Hs. reflexivity.
      * rewrite Hb. reflexivity.
    + right.
      destruct (Hclient (answerAsResponse reason a) (answerBody a) Hj)
        as (H429 & H401 & Hgen & _).
      destruct (N.eq_dec (answerStatus a) 429) as [E429 | N429];
        [left; split; [exact E429 | apply H429; exact E429] | right].
      destruct (N.eq_dec (answerStatus a) 401) as [E401 | N401];
        [left; split; [exact E401 | apply H401; exact E401] | right].
      right. exists e. split; [reflexivity |].
      split; [rewrite Hb; exact Hl |].
      rewrite <- (orEmpty_string ToString e).
      apply (Hgen (Some (JString e)) Hs N429 N401).
      rewrite Hb. unfold getProp. rewrite Hl. reflexivity.
Qed.

Lemma relay_outcomes_map_to_errors_witness :
  generateImageWithCloudflare (fun _ => js "[object Object]")
    (Some (js "cf-key")) (Return quotaResponse) (js "dark cave entrance")
  = Throw (ErrorObj cloudflareQuotaMessage)
  /\ generateImageWithCloudflare (fun _ => js "[object Object]")
       (Some (js "cf-key"))
       (Return (mkResponse 502 (js "Bad Gateway")
                  (Throw (ErrorObj (js "SyntaxError: Unexpected token in JSON")))))
       (js "dark cave entrance")
     = Throw (ErrorObj (js "SyntaxError: Unexpected token in JSON"))
  /\ answerStatus (relayHandler (Some (JString (js "dark cave entrance")))
                     (Some (js "cf-key")) (Return notModifiedUpstream))
     = 304%N.
Proof.
  assert (Hkey : configured (Some (js "cf-key")) = true) by reflexivity.
  destruct (relay_outcomes_map_to_errors (fun _ => js "[object Object]")
              (Some (js "cf-key")) (js "dark cave entrance") Hkey)
    as (H & Hunread & _ & Hrelay).
  split; [| split].
  - destruct (H quotaResponse _ eq_refl) as (H429 & _).
    apply H429. reflexivity.
  - apply Hunread. reflexivity.
  - assert (Hfinal : forall u, Return notModifiedUpstream = Return u ->
                               finalStatus (upStatus u) = true).
    { intros u Hu. injection Hu as <-. reflexivity. }
    destruct (Hrelay (fun _ => js "Not Modified")
                (Some (JString (js "dark cave entrance")))
                (Some (js "cf-key")) (Return notModifiedUpstream) Hfinal)
      as [(url & Hs & _) | [[Hs _] | [[Hs _] | [[Hs _] | (e & Hn & _)]]]];
      try exact Hs; try discriminate Hs.
    discriminate Hn.
Defined.

(** The end-to-end example of the specification. *)
Example image_reference_unchanged :
  generateImageWithCloudflare (fun _ => js "[object Object]")
    (Some (js "cf-key"))
    (Return (mkResponse 200 (js "OK")
               (JSON_parse (jq "{'imageUrl':'data:image/png;base64,AAAA'}"))))
    (js "dark cave entrance, torchlight")
  = Return (Some (JString (js "data:image/png;base64,AAAA"))).
Proof. vm_compute. reflexivity. Qed.

Example decimal_of_status :
  decimal 429 = js "429" /\ decimal 500 = js "500" /\ decimal 0 = js "0".
Proof. vm_compute. repeat split. Qed.

(** ** The recursion of [sendMessageToGemini] *)

Section SelfCalls.

Variables s1 s2 : Chat -> jsstring -> bool -> M (option GameAIResponse).

Lemma classify_ext (error : JsThrown) (message : jsstring)
  (useFallback : bool) (attempt : nat) (w : World) :
  (negb useFallback && Nat.eqb attempt 0 = true ->
   forall c m w', s1 c m true w' = s2 c m true w') ->
  classify s1 error message useFallback attempt w
    = classify s2 error message useFallback attempt w.
Proof.
  intros Hs. unfold classify. destruct error as [m | v]; [| reflexivity].
  destruct (isInvalidApiKey m); [reflexivity |].
  destruct (isQuotaExceeded m); [reflexivity |].
  destruct (negb (isRetryableError m)); [reflexivity |].
  destruct (negb useFallback && Nat.eqb attempt 0) eqn:Hc; [| reflexivity].
  destruct (isOverloaded m); [| reflexivity]. cbn [andb].
  unfold tryCatch, bind. destruct (createChatSession FALLBACK_MODEL_NAME w) as [[c | e] w1];
    [| reflexivity].
  rewrite (Hs eq_refl). reflexivity.
Qed.

Lemma catchBlock_unfold
  (self : Chat -> jsstring -> bool -> M (option GameAIResponse))
  (continue : jsstring -> M (option GameAIResponse))
  (error : JsThrown) (message : jsstring) (useFallback : bool)
  (attempt : nat) (w : World) :
  catchBlock self continue error message useFallback attempt w
    = match classify self error message useFallback attempt w with
      | (Return (Some r), w1) => (Return r, w1)
      | (Return None, w1) =>
          if Nat.eqb attempt (maxRetries RETRY_CONFIG)
          then (Throw (exhaustedError error), afterFailure w1)
          else continue (asError error) (afterBackoff attempt w1)
      | (Throw e, w1) => (Throw e, w1)
      end.
Proof.
  unfold catchBlock. unfold bind at 1.
  destruct (classify self error message useFallback attempt w)
    as [[[r |] | e] w1]; try reflexivity.
  destruct (Nat.eqb attempt (maxRetries RETRY_CONFIG)); [| reflexivity].
  unfold bind. rewrite recordFailure_run. unfold exhaustedError.
  destruct (isOverloaded (asError error)); reflexivity.
Qed.

Lemma catchBlock_ext (c1 c2 : jsstring -> M (option GameAIResponse))
  (error : JsThrown) (message : jsstring) (useFallback : bool)
  (attempt : nat) (w : World) :
  (negb useFallback && Nat.eqb attempt 0 = true ->
   forall c m w', s1 c m true w' = s2 c m true w') ->
  (forall m w', c1 m w' = c2 m w') ->
  catchBlock s1 c1 error message useFallback attempt w
    = catchBlock s2 c2 error message useFallback attempt w.
Proof.
  intros Hs Hc. rewrite !catchBlock_unfold.
  rewrite (classify_ext _ _ _ _ _ Hs).
  destruct (classify s2 error message useFallback attempt w) as [[[r |] | e] w1];
    try reflexivity.
  destruct (Nat.eqb attempt (maxRetries RETRY_CONFIG)); [reflexivity |].
  apply Hc.
Qed.

Lemma retryLoop_ext (k : nat) :
  forall (attempt : nat) (lastError : option jsstring) (chat : Chat)
         (message : jsstring) (useFallback : bool) (w : World),
    (negb useFallback && Nat.eqb attempt 0 = true ->
     forall c m w', s1 c m true w' = s2 c m true w') ->
    retryLoop s1 k attempt lastError chat message useFallback w
      = retryLoop s2 k attempt lastError chat message useFallback w.
Proof.
  induction k as [| k IH]; intros attempt lastError chat message useFallback w Hs;
    [reflexivity |].
  cbn [retryLoop]. unfold tryCatch.
  destruct (attemptTry chat message w) as [[r | e] w1]; [reflexivity |].
  apply catchBlock_ext; [exact Hs |].
  intros m w'. apply IH. rewrite andb_false_r. discriminate.
Qed.

Lemma sendMessageToGemini_body_ext (chat : Chat) (message : jsstring)
  (useFallback : bool) (w : World) :
  (useFallback = false -> forall c m w', s1 c m true w' = s2 c m true w') ->
  sendMessageToGemini_body s1 chat message useFallback w
    = sendMessageToGemini_body s2 chat message useFallback w.
Proof.
  intros Hs. unfold sendMessageToGemini_body, bind.
  destruct (checkCircuitBreaker w) as [[[|] | e] w1]; cbn [negb].
  - apply retryLoop_ext. intros Hc. apply Hs.
    destruct useFallback; [discriminate Hc | reflexivity].
  - destruct useFallback; cbn [negb]; [reflexivity |].
    destruct (createChatSession FALLBACK_MODEL_NAME w1) as [[c | e] w2];
      [| reflexivity].
    apply Hs. reflexivity.
  - reflexivity.
Qed.

End SelfCalls.

(** A fallback invocation is the same function whatever stands for its
    self-calls: it makes none. *)
Lemma sendMessageToGemini_leaf_eq (chat : Chat) (message : jsstring) (w : World) :
  sendMessageToGemini_leaf chat message true w
    = sendMessageToGemini chat message true w.
Proof.
  unfold sendMessageToGemini, sendMessageToGemini_leaf.
  apply sendMessageToGemini_body_ext. discriminate.
Qed.

(** The equation of the source function: its body, calling itself. *)
Lemma sendMessageToGemini_unfold (chat : Chat) (message : jsstring)
  (useFallback : bool) (w : World) :
  sendMessageToGemini chat message useFallback w
    = sendMessageToGemini_body sendMessageToGemini chat message useFallback w.
Proof.
  unfold sendMessageToGemini at 1.
  apply sendMessageToGemini_body_ext. intros _ c m w'.
  apply sendMessageToGemini_leaf_eq.
Qed.

(** ** Every run follows one of the paths *)

Lemma createChatSession_run (w : World) :
  createChatSession FALLBACK_MODEL_NAME w
    = (Return (fallbackChatOf w), afterCreate w).
Proof. reflexivity. Qed.

(** The first attempt of a primary call escalates: the fallback call is
    made, its result returned, its failure swallowed. *)
Lemma catchBlock_escalates
  (self : Chat -> jsstring -> bool -> M (option GameAIResponse))
  (continue : jsstring -> M (option GameAIResponse))
  (error : JsThrown) (message : jsstring) (w : World) :
  escalates error = true ->
  catchBlock self continue error message false 0 w
    = match self (fallbackChatOf w) message true (afterCreate w) with
      | (Return v, w') => (Return v, w')
      | (Throw _, w') => continue (asError error) (afterBackoff 0 w')
      end.
Proof.
  unfold escalates. destruct error as [m | v]; [| discriminate].
  intros H. apply andb_prop in H as [H H4]. apply andb_prop in H as [H H3].
  apply andb_prop in H as [H1 H2]. apply negb_true_iff in H1, H2.
  unfold catchBlock, classify. rewrite H1, H2, H3, H4. cbn [negb andb Nat.eqb].
  unfold bind at 1. unfold tryCatch. unfold bind at 1.
  rewrite createChatSession_run. unfold bind at 1.
  destruct (self (fallbackChatOf w) message true (afterCreate w)) as [[v | e] w'];
    reflexivity.
Qed.

Lemma fallsThrough_or_not (error : JsThrown) (useFallback : bool) (attempt : nat) :
  useFallback = true \/ attempt <> 0%nat ->
  fallsThrough error useFallback attempt = true
  \/ exists m, error = ErrorObj m
       /\ isInvalidApiKey m || isQuotaExceeded m || negb (isRetryableError m) = true.
Proof.
  intros Hne. destruct error as [m | v]; [| left; reflexivity].
  unfold fallsThrough.
  assert (Hc : negb useFallback && Nat.eqb attempt 0 = false).
  { destruct Hne as [-> | Hn]; [reflexivity |].
    apply Nat.eqb_neq in Hn. rewrite Hn. apply andb_false_r. }
  rewrite Hc. cbn [andb negb]. rewrite andb_true_r.
  destruct (isInvalidApiKey m) eqn:H1.
  { right. exists m. rewrite H1. split; reflexivity. }
  destruct (isQuotaExceeded m) eqn:H2.
  { right. exists m. rewrite H1, H2. split; reflexivity. }
  destruct (isRetryableError m) eqn:H3.
  - left. reflexivity.
  - right. exists m. rewrite H1, H2, H3. split; reflexivity.
Qed.

Lemma catchBlock_rethrows
  (self : Chat -> jsstring -> bool -> M (option GameAIResponse))
  (continue : jsstring -> M (option GameAIResponse))
  (m message : jsstring) (useFallback : bool) (attempt : nat) (w : World) :
  isInvalidApiKey m || isQuotaExceeded m || negb (isRetryableError m) = true ->
  exists e,
    catchBlock self continue (ErrorObj m) message useFallback attempt w
      = (Throw e, w).
Proof.
  intros H. unfold catchBlock, classify. unfold bind at 1.
  destruct (isInvalidApiKey m); [eexists; reflexivity |].
  destruct (isQuotaExceeded m); [eexists; reflexivity |].
  cbn [orb] in H. rewrite H. eexists; reflexivity.
Qed.

(** A loop that makes no fallback call follows a [LoopPath]. *)
Lemma retryLoop_path
  (self : Chat -> jsstring -> bool -> M (option GameAIResponse))
  (chat : Chat) (message : jsstring) (useFallback : bool) (k : nat) :
  forall (attempt : nat) (lastError : option jsstring) (w : World),
    useFallback = true \/ attempt <> 0%nat ->
    LoopPath chat message attempt w
      (fst (retryLoop self k attempt lastError chat message useFallback w))
      (snd (retryLoop self k attempt lastError chat message useFallback w)).
Proof.
  induction k as [| k IH]; intros attempt lastError w Hne.
  - cbn. apply PathFellOff.
  - destruct (provider w (sent w)) as [text | error] eqn:Hp.
    + destruct text as [[| c t] |].
      * rewrite retryLoop_empty_text with (text := Some []) by auto.
        cbn [fst snd]. eapply PathEmptyText; [exact Hp | reflexivity].
      * rewrite retryLoop_success with (c := c) (t := t) by exact Hp.
        cbn [fst snd]. apply PathParsed. exact Hp.
      * rewrite retryLoop_empty_text with (text := None) by auto.
        cbn [fst snd]. eapply PathEmptyText; [exact Hp | reflexivity].
    + rewrite retryLoop_rejected with (error := error) by exact Hp.
      destruct (fallsThrough_or_not error useFallback attempt Hne)
        as [Hf | [m [-> Hm]]].
      * destruct (Nat.eqb attempt (maxRetries RETRY_CONFIG)) eqn:Ha.
        -- rewrite catchBlock_exhausted by assumption. cbn [fst snd].
           apply PathExhausted; [exact Hp |]. apply Nat.eqb_eq. exact Ha.
        -- rewrite catchBlock_retries by assumption.
           eapply PathRetried; [exact Hp | apply Nat.eqb_neq; exact Ha |].
           apply IH. right. discriminate.
      * destruct (catchBlock_rethrows self
                    (fun lastError' =>
                       retryLoop self k (S attempt) (Some lastError') chat
                                 message useFallback)
                    m message useFallback attempt
                    (afterSend chat message w) Hm) as [e He].
        rewrite He. cbn [fst snd]. eapply PathRethrown; [exact Hp | exact Hm].
Qed.

Lemma not_escalating (error : JsThrown) :
  escalates error = false ->
  fallsThrough error false 0 = true
  \/ exists m, error = ErrorObj m
       /\ isInvalidApiKey m || isQuotaExceeded m || negb (isRetryableError m) = true.
Proof.
  destruct error as [m | v]; [| left; reflexivity].
  unfold escalates, fallsThrough. cbn [negb andb Nat.eqb].
  destruct (isInvalidApiKey m) eqn:H1.
  { right. exists m. rewrite H1. split; reflexivity. }
  destruct (isQuotaExceeded m) eqn:H2.
  { right. exists m. rewrite H1, H2. split; reflexivity. }
  destruct (isRetryableError m) eqn:H3.
  - cbn [negb andb]. intros ->. left. reflexivity.
  - right. exists m. rewrite H1, H2, H3. split; reflexivity.
Qed.

Lemma sendMessageToGemini_refused_leaf (chat : Chat) (message : jsstring)
  (w w1 : World) :
  checkCircuitBreaker w = (Return false, w1) ->
  sendMessageToGemini chat message true w
    = (Throw (ErrorObj bothUnavailableMessage), w1).
Proof.
  intros E. unfold sendMessageToGemini, sendMessageToGemini_body.
  unfold bind at 1. rewrite E. reflexivity.
Qed.

(** A fallback invocation follows a [LeafCall]. *)
Lemma sendMessageToGemini_leaf_call (chat : Chat) (message : jsstring)
  (w : World) :
  LeafCall chat message w
    (fst (sendMessageToGemini chat message true w))
    (snd (sendMessageToGemini chat message true w)).
Proof.
  destruct (checkCircuitBreaker_cases w)
    as [[Ho E] | [[Ho [Hc E]] | [Ho [Hc E]]]].
  - rewrite sendMessageToGemini_entered with (w := afterClockRead w) by exact E.
    eapply LeafEntered; [exact E |]. apply retryLoop_path. left; reflexivity.
  - rewrite sendMessageToGemini_refused_leaf with (w1 := afterClockRead w)
      by exact E.
    cbn [fst snd]. apply LeafRefused. exact E.
  - rewrite sendMessageToGemini_entered with (w := afterReset w) by exact E.
    eapply LeafEntered; [exact E |]. apply retryLoop_path. left; reflexivity.
Qed.

Lemma entered_loop_call (chat : Chat) (message : jsstring) (w w1 : World) :
  checkCircuitBreaker w = (Return true, w1) ->
  TopCall chat message w
    (fst (retryLoop sendMessageToGemini_leaf (S (maxRetries RETRY_CONFIG)) 0
            None chat message false w1))
    (snd (retryLoop sendMessageToGemini_leaf (S (maxRetries RETRY_CONFIG)) 0
            None chat message false w1)).
Proof.
  intros E. destruct (provider w1 (sent w1)) as [text | error] eqn:Hp.
  - eapply TopPlain; [exact E |]. destruct text as [[| c t] |].
    + rewrite retryLoop_empty_text with (text := Some []) by auto.
      eapply PathEmptyText; [exact Hp | reflexivity].
    + rewrite retryLoop_success with (c := c) (t := t) by exact Hp.
      apply PathParsed. exact Hp.
    + rewrite retryLoop_empty_text with (text := None) by auto.
      eapply PathEmptyText; [exact Hp | reflexivity].
  - rewrite retryLoop_rejected with (error := error) by exact Hp.
    destruct (escalates error) eqn:He.
    + rewrite catchBlock_escalates by exact He.
      rewrite sendMessageToGemini_leaf_eq.
      pose proof (sendMessageToGemini_leaf_call
                    (fallbackChatOf (afterSend chat message w1)) message
                    (afterCreate (afterSend chat message w1))) as Hleaf.
      destruct (sendMessageToGemini
                  (fallbackChatOf (afterSend chat message w1)) message true
                  (afterCreate (afterSend chat message w1))) as [[v | e] wf];
        cbn [fst snd] in Hleaf.
      * cbn [fst snd]. eapply TopFallbackReturned; eassumption.
      * eapply TopFallbackFailed; try eassumption.
        apply retryLoop_path. right. discriminate.
    + eapply TopPlain; [exact E |].
      destruct (not_escalating error He) as [Hf | [m [-> Hm]]].
      * rewrite catchBlock_retries by (assumption || reflexivity).
        eapply PathRetried; [exact Hp | discriminate |].
        apply retryLoop_path. right. discriminate.
      * destruct (catchBlock_rethrows sendMessageToGemini_leaf
                    (fun lastError' =>
                       retryLoop sendMessageToGemini_leaf
                         (maxRetries RETRY_CONFIG) 1 (Some lastError') chat
                         message false)
                    m message false 0
                    (afterSend chat message w1) Hm) as [e Hthrow].
        rewrite Hthrow. cbn [fst snd].
        eapply PathRethrown; [exact Hp | exact Hm].
Qed.

Lemma sendMessageToGemini_refused_top (chat : Chat) (message : jsstring)
  (w w1 : World) :
  checkCircuitBreaker w = (Return false, w1) ->
  sendMessageToGemini chat message false w
    = sendMessageToGemini (fallbackChatOf w1) message true (afterCreate w1).
Proof.
  intros E. unfold sendMessageToGemini at 1, sendMessageToGemini_body.
  unfold bind at 1. rewrite E. cbn [negb]. unfold bind at 1.
  rewrite createChatSession_run. apply sendMessageToGemini_leaf_eq.
Qed.

(** A primary invocation follows a [TopCall]. *)
Lemma sendMessageToGemini_top_call (chat : Chat) (message : jsstring)
  (w : World) :
  TopCall chat message w
    (fst (sendMessageToGemini chat message false w))
    (snd (sendMessageToGemini chat message false w)).
Proof.
  destruct (checkCircuitBreaker_cases w)
    as [[Ho E] | [[Ho [Hc E]] | [Ho [Hc E]]]].
  - rewrite sendMessageToGemini_entered with (w := afterClockRead w) by exact E.
    apply entered_loop_call. exact E.
  - rewrite sendMessageToGemini_refused_top with (w1 := afterClockRead w)
      by exact E.
    apply TopRefused; [exact E |]. apply sendMessageToGemini_leaf_call.
  - rewrite sendMessageToGemini_entered with (w := afterReset w) by exact E.
    apply entered_loop_call. exact E.
Qed.

(** ** What the paths leave in the world *)

Lemma afterFailure_trace (w : World) :
  trace (afterFailure w) = trace w ++ [EvRecordFailure].
Proof.
  unfold afterFailure, recordFailure. run_monad. cbn.
  destruct (_ >=? _)%Z; reflexivity.
Qed.

Lemma afterFailure_frame (w : World) :
  provider (afterFailure w) = provider w
  /\ clock (afterFailure w) = clock w
  /\ randomSource (afterFailure w) = randomSource w
  /\ sent (afterFailure w) = sent w
  /\ sessions (afterFailure w) = sessions w.
Proof.
  unfold afterFailure, recordFailure. run_monad. cbn.
  destruct (_ >=? _)%Z; repeat split.
Qed.

(** What [recordFailure] does to the breaker. *)
Lemma afterFailure_breaker (w : World) :
  let b := circuitBreakerState w in
  let b' := circuitBreakerState (afterFailure w) in
  failures b' = (failures b + 1)%Z
  /\ lastFailureTime b' = clock w (clockReads w)
  /\ ((failures b + 1 >= 5)%Z ->
      isOpen b' = true
      /\ openUntil b' = (clock w (S (clockReads w)) + 30000)%Z)
  /\ ((failures b + 1 < 5)%Z ->
      isOpen b' = isOpen b /\ openUntil b' = openUntil b).
Proof.
  unfold afterFailure, recordFailure. run_monad. cbn.
  destruct (failures (circuitBreakerState w) + 1 >=? 5)%Z eqn:Hth; cbn.
  - apply Z.geb_le in Hth. repeat split; intros; lia.
  - rewrite Z.geb_leb in Hth. apply Z.leb_gt in Hth.
    repeat split; intros; lia.
Qed.

Lemma afterSuccess_trace (w : World) :
  trace (afterSuccess w) = trace w ++ [EvRecordSuccess].
Proof. reflexivity. Qed.

Ltac world_fields :=
  cbn [afterSend afterBackoff afterClockRead afterReset afterCreate
       createChatSession snd trace provider clock sent sessions clockReads
       randomSource randomReads circuitBreakerState] in *.

Ltac count_trace :=
  unfold count in *; world_fields;
  rewrite ?afterFailure_trace, ?afterSuccess_trace in *; world_fields;
  rewrite ?filter_app, ?length_app in *;
  cbn [filter List.length isRecord isCreateChat isReset isSend isDelay] in *.

(** A loop path reads no oracle but its own, creates no session, resets
    nothing and records at most once. *)
Lemma LoopPath_effects (chat : Chat) (message : jsstring) (attempt : nat)
  (w : World) (r : Completion (option GameAIResponse)) (w' : World) :
  LoopPath chat message attempt w r w' ->
  provider w' = provider w /\ clock w' = clock w
  /\ count isCreateChat (trace w') = count isCreateChat (trace w)
  /\ count isReset (trace w') = count isReset (trace w)
  /\ (count isRecord (trace w) <= count isRecord (trace w')
      <= count isRecord (trace w) + 1)%nat.
Proof.
  induction 1 as [attempt w text Hp He | attempt w c t Hp
                  | attempt w m e Hp Hm | attempt w error Hp Ha
                  | attempt w error r w' Hp Ha Hpath IH | attempt w e].
  - count_trace. repeat split; lia.
  - count_trace. repeat split; lia.
  - count_trace. repeat split; lia.
  - destruct (afterFailure_frame (afterSend chat message w)) as (Hp' & Hc' & _).
    rewrite Hp', Hc'. count_trace. repeat split; lia.
  - destruct IH as (Hp' & Hc' & Hcr & Hrs & Hrec).
    rewrite Hp', Hc'. count_trace. repeat split; lia.
  - repeat split; lia.
Qed.

Lemma LeafCall_effects (chat : Chat) (message : jsstring)
  (w : World) (r : Completion (option GameAIResponse)) (w' : World) :
  LeafCall chat message w r w' ->
  provider w' = provider w /\ clock w' = clock w
  /\ count isCreateChat (trace w') = count isCreateChat (trace w)
  /\ (count isRecord (trace w) <= count isRecord (trace w')
      <= count isRecord (trace w) + 1)%nat
  /\ (count isReset (trace w) <= count isReset (trace w'))%nat.
Proof.
  destruct 1 as [w E | w w1 r w' E Hpath].
  - count_trace. repeat split; lia.
  - destruct (entered_world _ _ E)
      as (_ & _ & _ & Hp1 & Hc1 & _ & _ & Hr1 & Hcr1 & Hrs1).
    destruct (LoopPath_effects _ _ _ _ _ _ Hpath) as (Hp & Hc & Hcr & Hrs & Hrec).
    rewrite Hp, Hc, Hp1, Hc1. count_trace. repeat split; lia.
Qed.

(** A primary invocation creates at most one session and records at most
    twice. *)
Lemma TopCall_effects (chat : Chat) (message : jsstring)
  (w : World) (r : Completion (option GameAIResponse)) (w' : World) :
  TopCall chat message w r w' ->
  provider w' = provider w /\ clock w' = clock w
  /\ (count isCreateChat (trace w) <= count isCreateChat (trace w')
      <= count isCreateChat (trace w) + 1)%nat
  /\ (count isRecord (trace w) <= count isRecord (trace w')
      <= count isRecord (trace w) + 2)%nat
  /\ (count isReset (trace w) <= count isReset (trace w'))%nat.
Proof.
  destruct 1 as [w r w' E Hleaf | w w1 r w' E Hpath
                 | w w1 error v w' E Hp He Hleaf
                 | w w1 error e wf r w' E Hp He Hleaf Hpath].
  - destruct (LeafCall_effects _ _ _ _ _ Hleaf) as (Hp & Hc & Hcr & Hrec & Hrs).
    rewrite Hp, Hc. count_trace. repeat split; lia.
  - destruct (entered_world _ _ E)
      as (_ & _ & _ & Hp1 & Hc1 & _ & _ & Hr1 & Hcr1 & Hrs1).
    destruct (LoopPath_effects _ _ _ _ _ _ Hpath) as (Hp & Hc & Hcr & Hrs & Hrec).
    rewrite Hp, Hc, Hp1, Hc1. count_trace. repeat split; lia.
  - destruct (entered_world _ _ E)
      as (_ & _ & _ & Hp1 & Hc1 & _ & _ & Hr1 & Hcr1 & Hrs1).
    destruct (LeafCall_effects _ _ _ _ _ Hleaf) as (Hpf & Hcf & Hcrf & Hrecf & Hrsf).
    rewrite Hpf, Hcf. count_trace. repeat split; try assumption; lia.
  - destruct (entered_world _ _ E)
      as (_ & _ & _ & Hp1 & Hc1 & _ & _ & Hr1 & Hcr1 & Hrs1).
    destruct (LeafCall_effects _ _ _ _ _ Hleaf) as (Hpf & Hcf & Hcrf & Hrecf & Hrsf).
    destruct (LoopPath_effects _ _ _ _ _ _ Hpath) as (Hp' & Hc' & Hcr' & Hrs' & Hrec').
    rewrite Hp', Hc'. count_trace. rewrite Hpf, Hcf.
    repeat split; try assumption; lia.
Qed.

(** ** Fallback escalation *)

(** C1 as stated fails: with a provider that is overloaded at every attempt,
    the fallback invocation is no single attempt: it runs a retry loop of
    its own, four sends to the fallback model with three delays between
    them, before the primary loop goes on. *)
Lemma fallback_call_retries_four_times :
  let w' := snd (sendMessageToGemini primaryChat (js "go") false
                   overloadedWorld) in
  count (isSendTo FALLBACK_MODEL_NAME) (trace w') = 4%nat
  /\ count (isSendTo FALLBACK_MODEL_NAME) (trace w') <> 1%nat
  /\ count isCreateChat (trace w') = 1%nat
  /\ count (isSendTo GEMINI_MODEL_NAME) (trace w') = 4%nat
  /\ count isDelay (trace w') = 6%nat.
Proof. vm_compute. repeat split; discriminate. Qed.

(** A retryable error without an overload marker makes no fallback call. *)
Example bad_gateway_makes_no_fallback_call :
  isRetryableError (js "502 Bad Gateway") = true
  /\ count isCreateChat
       (trace (snd (sendMessageToGemini primaryChat (js "go") false
                      badGatewayWorld))) = 0%nat.
Proof. vm_compute. split; reflexivity. Qed.

(** C1, amended. When the first attempt of a primary call is rejected with
    an error carrying an overload marker (503, UNAVAILABLE or overloaded),
    the call creates one fresh session for the fallback model and invokes
    itself on it once, as a fallback invocation with its own admission check
    and retry loop; what that invocation returns is returned, with nothing
    done after it; if it throws, the error is dropped and the primary loop
    goes on with its backoff and the attempts 1 to 3.  No other session is
    created during the call. *)
Theorem overload_escalates_to_fallback_once (chat : Chat) (message : jsstring)
  (w0 w : World) (error : JsThrown) :
  checkCircuitBreaker w0 = (Return true, w) ->
  provider w (sent w) = Rejects error ->
  escalates error = true ->
  let ws := afterSend chat message w in
  let fallback :=
    sendMessageToGemini (fallbackChatOf ws) message true (afterCreate ws) in
  let result := sendMessageToGemini chat message false w0 in
  result
    = match fallback with
      | (Return v, wf) => (Return v, wf)
      | (Throw _, wf) =>
          retryLoop sendMessageToGemini (maxRetries RETRY_CONFIG) 1
            (Some (asError error)) chat message false (afterBackoff 0 wf)
      end
  /\ count isCreateChat (trace (snd result))
     = S (count isCreateChat (trace w0))
  /\ trace (afterCreate ws)
     = trace w ++ [EvSendMessage chat message; EvCreateChat (fallbackChatOf ws)]
  /\ chatModel (fallbackChatOf ws) = FALLBACK_MODEL_NAME
  /\ LeafCall (fallbackChatOf ws) message (afterCreate ws)
       (fst fallback) (snd fallback).
Proof.
  intros E Hp He ws fallback result.
  assert (Heq : result
    = match fallback with
      | (Return v, wf) => (Return v, wf)
      | (Throw _, wf) =>
          retryLoop sendMessageToGemini (maxRetries RETRY_CONFIG) 1
            (Some (asError error)) chat message false (afterBackoff 0 wf)
      end).
  { unfold result.
    rewrite sendMessageToGemini_entered with (w := w) by exact E.
    rewrite retryLoop_rejected with (error := error) by exact Hp.
    rewrite catchBlock_escalates by exact He.
    rewrite sendMessageToGemini_leaf_eq. fold ws. fold fallback.
    destruct fallback as [[v | e] wf]; [reflexivity |].
    apply retryLoop_ext. discriminate. }
  pose proof (sendMessageToGemini_leaf_call (fallbackChatOf ws) message
                (afterCreate ws)) as Hleaf.
  fold fallback in Hleaf.
  split; [exact Heq |]. split; [| split; [| split; [reflexivity | exact Hleaf]]].
  - destruct (entered_world _ _ E) as (_ & _ & _ & _ & _ & _ & _ & _ & Hcr0 & _).
    destruct (LeafCall_effects _ _ _ _ _ Hleaf) as (_ & _ & Hcr & _ & _).
    rewrite Heq. destruct fallback as [[v | e] wf]; cbn [fst snd] in *.
    + rewrite Hcr. unfold ws. count_trace. lia.
    + pose proof (retryLoop_path sendMessageToGemini chat message false
                    (maxRetries RETRY_CONFIG) 1 (Some (asError error))
                    (afterBackoff 0 wf) (or_intror (Nat.neq_succ_0 0)))
        as Hpath.
      destruct (LoopPath_effects _ _ _ _ _ _ Hpath) as (_ & _ & Hcr' & _).
      rewrite Hcr'. unfold ws in *. count_trace. lia.
  - unfold ws. cbn. rewrite <- app_assoc. reflexivity.
Qed.

Lemma overload_escalates_to_fallback_once_witness :
  sendMessageToGemini primaryChat (js "Start the adventure.") false
    rescuedWorld
  = match
      sendMessageToGemini
        (fallbackChatOf (afterSend primaryChat (js "Start the adventure.")
                           (afterClockRead rescuedWorld)))
        (js "Start the adventure.") true
        (afterCreate (afterSend primaryChat (js "Start the adventure.")
                        (afterClockRead rescuedWorld)))
    with
    | (Return v, wf) => (Return v, wf)
    | (Throw _, wf) =>
        retryLoop sendMessageToGemini (maxRetries RETRY_CONFIG) 1
          (Some (asError error503)) primaryChat (js "Start the adventure.")
          false (afterBackoff 0 wf)
    end.
Proof.
  assert (E : checkCircuitBreaker rescuedWorld
              = (Return true, afterClockRead rescuedWorld)) by reflexivity.
  assert (Hp : provider (afterClockRead rescuedWorld)
                 (sent (afterClockRead rescuedWorld)) = Rejects error503)
    by reflexivity.
  assert (He : escalates error503 = true) by (vm_compute; reflexivity).
  exact (proj1 (overload_escalates_to_fallback_once primaryChat
                  (js "Start the adventure.") rescuedWorld
                  (afterClockRead rescuedWorld) error503 E Hp He)).
Defined.

(** The rescued turn of the example: the fallback answer is returned and
    the primary model is asked only once. *)
Example rescued_by_fallback :
  let (r, w') := sendMessageToGemini primaryChat (js "Start the adventure.")
                   false rescuedWorld in
  r = Return (Some (JObject
        [(sceneDescriptionKey, JString (js "You enter a cave."));
         (imagePromptKey, JString (js "dark cave entrance, torchlight"))]))
  /\ count (isSendTo GEMINI_MODEL_NAME) (trace w') = 1%nat
  /\ count (isSendTo FALLBACK_MODEL_NAME) (trace w') = 1%nat
  /\ count isDelay (trace w') = 0%nat.
Proof. vm_compute. repeat split. Qed.

(** Whatever the fallback invocation throws is dropped, a rejected API key
    too: the primary loop goes on and here gets its answer at attempt 1. *)
Example fallback_key_error_is_swallowed :
  let (r, w') := sendMessageToGemini primaryChat (js "Start the adventure.")
                   false fallbackKeyWorld in
  r = Return (Some (JObject
        [(sceneDescriptionKey, JString (js "You enter a cave."));
         (imagePromptKey, JString (js "dark cave entrance, torchlight"))]))
  /\ count (isSendTo GEMINI_MODEL_NAME) (trace w') = 2%nat
  /\ count (isSendTo FALLBACK_MODEL_NAME) (trace w') = 1%nat
  /\ count isDelay (trace w') = 1%nat.
Proof. vm_compute. repeat split. Qed.

(** The first turn of the end-to-end example of the specification. *)
Example start_the_adventure :
  fst (sendMessageToGemini primaryChat (js "Start the adventure.") false
         caveWorld)
  = Return (Some (JObject
      [(sceneDescriptionKey, JString (js "You enter a cave."));
       (imagePromptKey, JString (js "dark cave entrance, torchlight"))])).
Proof. vm_compute. reflexivity. Qed.

(** ** Breaker writes per call *)


(** An exhausted call whose fallback invocation was exhausted too records
    two failures. *)
Example exhausted_overload_records_twice :
  let w' := snd (sendMessageToGemini primaryChat (js "go") false
                   overloadedWorld) in
  count isRecord (trace w') = 2%nat
  /\ failures (circuitBreakerState w') = 2%Z.
Proof. vm_compute. split; reflexivity. Qed.


(** ** Exhausted calls and the threshold *)

Lemma alwaysFailing_falls_through (w : World) (useFallback : bool)
  (attempt : nat) :
  alwaysFailing (provider w) ->
  useFallback = true \/ attempt <> 0%nat ->
  exists error,
    provider w (sent w) = Rejects error
    /\ fallsThrough error useFallback attempt = true.
Proof.
  intros Hf Hne. destruct (Hf (sent w)) as (m & Hp & H1 & H2 & H3).
  exists (ErrorObj m). split; [exact Hp |].
  unfold fallsThrough. rewrite H1, H2, H3. cbn [negb andb].
  destruct Hne as [-> | Hn]; [reflexivity |].
  apply Nat.eqb_neq in Hn. rewrite Hn, andb_false_r. reflexivity.
Qed.

(** Against a provider that always fails, a loop that makes no fallback
    call runs to its last attempt and records one failure. *)
Lemma retryLoop_exhausts
  (self : Chat -> jsstring -> bool -> M (option GameAIResponse))
  (chat : Chat) (message : jsstring) (useFallback : bool) (k : nat) :
  forall (attempt : nat) (lastError : option jsstring) (w : World),
    alwaysFailing (provider w) ->
    (attempt + k = maxRetries RETRY_CONFIG)%nat ->
    useFallback = true \/ attempt <> 0%nat ->
    exists e wk,
      retryLoop self (S k) attempt lastError chat message useFallback w
        = (Throw e, afterFailure wk)
      /\ circuitBreakerState wk = circuitBreakerState w
      /\ provider wk = provider w
      /\ count isReset (trace wk) = count isReset (trace w)
      /\ (sent wk = sent w + S k)%nat.
Proof.
  induction k as [| k IH]; intros attempt lastError w Hf Hk Hne;
    destruct (alwaysFailing_falls_through w useFallback attempt Hf Hne)
      as (error & Hp & Hft);
    rewrite retryLoop_rejected with (error := error) by exact Hp.
  - rewrite catchBlock_exhausted;
      [| exact Hft | apply Nat.eqb_eq; lia].
    exists (exhaustedError error), (afterSend chat message w).
    count_trace. repeat split; lia.
  - rewrite catchBlock_retries;
      [| exact Hft | apply Nat.eqb_neq; lia].
    destruct (IH (S attempt) (Some (asError error))
                (afterBackoff attempt (afterSend chat message w)))
      as (e & wk & Hrun & Hb & Hpr & Hrs & Hs).
    + exact Hf.
    + lia.
    + right. discriminate.
    + exists e, wk. split; [exact Hrun |]. revert Hb Hpr Hrs Hs. count_trace.
      intros Hb Hpr Hrs Hs. repeat split; try assumption; lia.
Qed.

(** One recorded failure: the count goes up by one, an open breaker stays
    open, and a breaker left closed is below the threshold. *)
Lemma afterFailure_threshold (w : World) :
  let b := circuitBreakerState w in
  let b' := circuitBreakerState (afterFailure w) in
  failures b' = (failures b + 1)%Z
  /\ (isOpen b = true -> isOpen b' = true)
  /\ belowThreshold b'.
Proof.
  intros b b'. destruct (afterFailure_breaker w) as (Hf & _ & Hge & Hlt).
  fold b b' in Hf, Hge, Hlt. unfold belowThreshold.
  cbn [failureThreshold CIRCUIT_BREAKER_CONFIG].
  destruct (Z_lt_ge_dec (failures b + 1) 5) as [Hsmall | Hbig].
  - destruct (Hlt Hsmall) as [Ho _]. repeat split; [exact Hf | congruence | lia].
  - destruct (Hge Hbig) as [Ho _]. repeat split; [exact Hf | congruence | congruence].
Qed.

Lemma afterFailure_resets (w : World) :
  count isReset (trace (afterFailure w)) = count isReset (trace w).
Proof. count_trace. lia. Qed.

(** An admitted primary call against a provider that always fails: it
    records one failure, or two when its fallback invocation is exhausted
    as well, and resets nothing. *)
Lemma entered_call_fails (chat : Chat) (message : jsstring) (w1 : World) :
  alwaysFailing (provider w1) ->
  isOpen (circuitBreakerState w1) = false ->
  let w' := snd (retryLoop sendMessageToGemini_leaf
                   (S (maxRetries RETRY_CONFIG)) 0 None chat message false w1)
  in
  count isReset (trace w') = count isReset (trace w1)
  /\ belowThreshold (circuitBreakerState w')
  /\ (failures (circuitBreakerState w')
      >= failures (circuitBreakerState w1) + 1)%Z.
Proof.
  intros Hf Ho w'. subst w'.
  destruct (Hf (sent w1)) as (m & Hp & H1 & H2 & H3).
  rewrite retryLoop_rejected with (error := ErrorObj m) by exact Hp.
  destruct (isOverloaded m) eqn:Hov.
  - (* the first failure escalates *)
    rewrite catchBlock_escalates
      by (unfold escalates; rewrite H1, H2, H3, Hov; reflexivity).
    set (ws := afterSend chat message w1).
    rewrite sendMessageToGemini_leaf_eq.
    rewrite sendMessageToGemini_entered
      with (w := afterClockRead (afterCreate ws))
      by (apply checkCircuitBreaker_closed; exact Ho).
    destruct (retryLoop_exhausts sendMessageToGemini_leaf (fallbackChatOf ws)
                message true (maxRetries RETRY_CONFIG) 0 None
                (afterClockRead (afterCreate ws)) Hf eq_refl
                (or_introl eq_refl))
      as (e & wk & Hrun & Hb & Hpr & Hrs & _).
    rewrite Hrun.
    destruct (afterFailure_frame wk) as (Hpf & _).
    destruct (retryLoop_exhausts sendMessageToGemini_leaf chat message false
                2 1 (Some (asError (ErrorObj m)))
                (afterBackoff 0 (afterFailure wk)))
      as (e2 & wk2 & Hrun2 & Hb2 & Hpr2 & Hrs2 & _).
    + cbn [afterBackoff provider]. rewrite Hpf, Hpr. exact Hf.
    + reflexivity.
    + right. discriminate.
    + cbn [maxRetries RETRY_CONFIG]. rewrite Hrun2. cbn [snd].
      destruct (afterFailure_threshold wk) as (Hfa & _ & _).
      destruct (afterFailure_threshold wk2) as (Hfa2 & _ & Hbelow2).
      rewrite afterFailure_resets, Hrs2.
      cbn [afterBackoff circuitBreakerState trace] in Hb2 |- *.
      rewrite count_app, afterFailure_resets, Hrs.
      split; [subst ws; count_trace; lia |]. split; [exact Hbelow2 |].
      rewrite Hfa2, Hb2, Hfa, Hb. subst ws. world_fields. lia.
  - (* no escalation: backoff and the attempts 1 to 3 *)
    rewrite catchBlock_retries;
      [| unfold fallsThrough; rewrite H1, H2, H3, Hov; reflexivity
       | reflexivity].
    destruct (retryLoop_exhausts sendMessageToGemini_leaf chat message false
                2 1 (Some (asError (ErrorObj m)))
                (afterBackoff 0 (afterSend chat message w1)))
      as (e2 & wk2 & Hrun2 & Hb2 & Hpr2 & Hrs2 & _).
    + exact Hf.
    + reflexivity.
    + right. discriminate.
    + cbn [maxRetries RETRY_CONFIG]. rewrite Hrun2. cbn [snd].
      destruct (afterFailure_threshold wk2) as (Hfa2 & _ & Hbelow2).
      rewrite afterFailure_resets, Hrs2.
      split; [count_trace; lia |]. split; [exact Hbelow2 |].
      rewrite Hfa2, Hb2. world_fields. lia.
Qed.

(** One primary call against a provider that always fails, when no
    admission check of the call finds the reset timeout elapsed. *)
Lemma failing_call_step (chat : Chat) (message : jsstring) (w : World) :
  alwaysFailing (provider w) ->
  let w' := snd (sendMessageToGemini chat message false w) in
  count isReset (trace w') = count isReset (trace w) ->
  belowThreshold (circuitBreakerState w')
  /\ (isOpen (circuitBreakerState w) = true ->
      isOpen (circuitBreakerState w') = true)
  /\ (isOpen (circuitBreakerState w) = false ->
      (failures (circuitBreakerState w')
       >= failures (circuitBreakerState w) + 1)%Z).
Proof.
  intros Hf w'. subst w'.
  destruct (checkCircuitBreaker_cases w)
    as [[Ho E] | [[Ho [Hc E]] | [Ho [Hc E]]]].
  - rewrite sendMessageToGemini_entered with (w := afterClockRead w) by exact E.
    destruct (entered_call_fails chat message (afterClockRead w) Hf Ho)
      as (_ & Hbelow & Hinc).
    intros _. split; [exact Hbelow |]. split; [congruence |].
    intros _. exact Hinc.
  - rewrite sendMessageToGemini_refused_top with (w1 := afterClockRead w)
      by exact E.
    set (w2 := afterCreate (afterClockRead w)).
    destruct (checkCircuitBreaker_cases w2)
      as [[Ho2 E2] | [[Ho2 [Hc2 E2]] | [Ho2 [Hc2 E2]]]].
    + exfalso. subst w2. world_fields. congruence.
    + rewrite sendMessageToGemini_refused_leaf with (w1 := afterClockRead w2)
        by exact E2.
      intros _. cbn [snd]. subst w2. world_fields.
      split; [unfold belowThreshold; congruence |].
      split; [auto | congruence].
    + rewrite sendMessageToGemini_entered with (w := afterReset w2)
        by exact E2.
      destruct (retryLoop_exhausts sendMessageToGemini_leaf
                  (fallbackChatOf (afterClockRead w)) message true
                  (maxRetries RETRY_CONFIG) 0 None (afterReset w2) Hf eq_refl
                  (or_introl eq_refl))
        as (e & wk & Hrun & _ & _ & Hrs & _).
      rewrite Hrun. cbn [snd]. rewrite afterFailure_resets, Hrs.
      subst w2. count_trace. intros Habs. exfalso. lia.
  - rewrite sendMessageToGemini_entered with (w := afterReset w) by exact E.
    destruct (entered_call_fails chat message (afterReset w) Hf eq_refl)
      as (Hrs & _ & _).
    rewrite Hrs. count_trace. intros Habs. exfalso. lia.
Qed.

Lemma call_keeps_provider (chat : Chat) (message : jsstring) (w : World) :
  provider (snd (sendMessageToGemini chat message false w)) = provider w
  /\ (count isReset (trace w)
      <= count isReset (trace (snd (sendMessageToGemini chat message false w))))%nat.
Proof.
  destruct (TopCall_effects _ _ _ _ _
              (sendMessageToGemini_top_call chat message w))
    as (Hp & _ & _ & _ & Hrs).
  split; assumption.
Qed.

Lemma runCalls_resets (calls : list (Chat * jsstring)) :
  forall w,
    (count isReset (trace w) <= count isReset (trace (runCalls calls w)))%nat.
Proof.
  induction calls as [| [chat message] rest IH]; intros w; cbn [runCalls].
  - lia.
  - destruct (call_keeps_provider chat message w) as (_ & H).
    specialize (IH (snd (sendMessageToGemini chat message false w))). lia.
Qed.

(** Calls made one after the other against a provider that always fails,
    with no reset: the breaker is open, or every call added a failure. *)
Lemma failing_calls (calls : list (Chat * jsstring)) :
  forall w,
    alwaysFailing (provider w) ->
    count isReset (trace (runCalls calls w)) = count isReset (trace w) ->
    (calls <> [] -> belowThreshold (circuitBreakerState (runCalls calls w)))
    /\ (isOpen (circuitBreakerState (runCalls calls w)) = true
        \/ (isOpen (circuitBreakerState w) = false
            /\ (failures (circuitBreakerState (runCalls calls w))
                >= failures (circuitBreakerState w)
                   + Z.of_nat (List.length calls))%Z)).
Proof.
  induction calls as [| [chat message] rest IH]; intros w Hf Hrs.
  - cbn [runCalls List.length]. split; [congruence |].
    destruct (isOpen (circuitBreakerState w)); [left | right; split];
      (reflexivity || lia).
  - cbn [runCalls] in *.
    set (w1 := snd (sendMessageToGemini chat message false w)) in *.
    destruct (call_keeps_provider chat message w) as (Hp1 & Hmono1).
    fold w1 in Hp1, Hmono1.
    pose proof (runCalls_resets rest w1) as Hmono2.
    assert (Hrs1 : count isReset (trace w1) = count isReset (trace w)) by lia.
    assert (Hrs2 : count isReset (trace (runCalls rest w1))
                   = count isReset (trace w1)) by lia.
    destruct (failing_call_step chat message w Hf Hrs1)
      as (Hbelow1 & Hstay1 & Hinc1). fold w1 in Hbelow1, Hstay1, Hinc1.
    assert (Hf1 : alwaysFailing (provider w1)) by (rewrite Hp1; exact Hf).
    destruct (IH w1 Hf1 Hrs2) as (Hbelow & Hlevel).
    split.
    + intros _. destruct rest as [| c rest'];
        [exact Hbelow1 | apply Hbelow; discriminate].
    + destruct Hlevel as [Hopen | [Hclosed1 Hge]]; [left; exact Hopen |].
      destruct (isOpen (circuitBreakerState w)) eqn:Ho.
      * rewrite (Hstay1 eq_refl) in Hclosed1. discriminate.
      * right. split; [reflexivity |]. specialize (Hinc1 eq_refl).
        change (List.length ((chat, message) :: rest))
          with (S (List.length rest)). lia.
Qed.


(** During an outage no admission check of which finds the reset timeout
    elapsed, the breaker is open after five calls at the latest (it opens
    during the third call when the fallback invocations are exhausted too). *)
Lemma outage_opens_breaker (calls : list (Chat * jsstring)) (w : World) :
  List.length calls = 5%nat ->
  failures (circuitBreakerState w) = 0%Z ->
  alwaysFailing (provider w) ->
  count isReset (trace (runCalls calls w)) = count isReset (trace w) ->
  isOpen (circuitBreakerState (runCalls calls w)) = true.
Proof.
  intros Hlen Hzero Hf Hrs.
  destruct (failing_calls calls w Hf Hrs) as (Hbelow & [Hopen | [_ Hge]]);
    [exact Hopen |].
  assert (Hne : calls <> []) by (destruct calls; discriminate).
  specialize (Hbelow Hne).
  destruct (isOpen (circuitBreakerState (runCalls calls w))) eqn:Ho5;
    [reflexivity |].
  specialize (Hbelow Ho5).
  cbn [failureThreshold CIRCUIT_BREAKER_CONFIG] in Hbelow.
  rewrite Hlen, Hzero in Hge. lia.
Qed.

Lemma alwaysFailing_overloaded : alwaysFailing (fun _ => Rejects error503).
Proof.
  intros i. exists (js "503 Service Unavailable: The model is overloaded.").
  vm_compute. repeat split.
Qed.

Example outage_without_pause :
  isOpen (circuitBreakerState (runCalls fiveCalls overloadedWorld)) = true.
Proof.
  apply outage_opens_breaker.
  - reflexivity.
  - reflexivity.
  - exact alwaysFailing_overloaded.
  - vm_compute. reflexivity.
Qed.

Example overload_opens_breaker_at_third_call :
  isOpen (circuitBreakerState
            (runCalls (firstn 2 fiveCalls) overloadedWorld)) = false
  /\ isOpen (circuitBreakerState
               (runCalls (firstn 3 fiveCalls) overloadedWorld)) = true
  /\ failures (circuitBreakerState
                 (runCalls (firstn 3 fiveCalls) overloadedWorld)) = 6%Z.
Proof. vm_compute. repeat split. Qed.

(** ** Fully exhausted calls *)

Lemma last_app_cons (a b : list Event) (x d : Event) :
  last (a ++ x :: b) d = last (x :: b) d.
Proof.
  induction a as [| y a IH]; [reflexivity |].
  cbn [app]. rewrite <- IH.
  destruct (a ++ x :: b) eqn:E; [destruct a; discriminate | reflexivity].
Qed.

Lemma last_after (a b : list Event) (x d : Event) :
  isRecordFailure x = false ->
  isRecordFailure d = false ->
  isRecordFailure (last (a ++ x :: b) d) = isRecordFailure (last b d).
Proof.
  intros Hx Hd. rewrite last_app_cons. destruct b as [| y b].
  - cbn. rewrite Hx, Hd. reflexivity.
  - reflexivity.
Qed.

Lemma callEvents_app (w w' : World) (suf : list Event) :
  trace w' = trace w ++ suf -> callEvents w w' = suf.
Proof.
  intros H. unfold callEvents. rewrite H.
  rewrite skipn_app, skipn_all, Nat.sub_diag. reflexivity.
Qed.

(** What a loop path does to the breaker: it ends by recording its failure,
    which adds one to the count, or, when it throws otherwise, it leaves the
    breaker as it was. *)
Lemma LoopPath_breaker (chat : Chat) (message : jsstring) (attempt : nat)
  (w : World) (r : Completion (option GameAIResponse)) (w' : World) :
  LoopPath chat message attempt w r w' ->
  exists suf,
    trace w' = trace w ++ suf
    /\ ((isRecordFailure (last suf EvBreakerReset) = true
         /\ (exists e, r = Throw e)
         /\ failures (circuitBreakerState w')
            = (failures (circuitBreakerState w) + 1)%Z
         /\ belowThreshold (circuitBreakerState w'))
        \/ (isRecordFailure (last suf EvBreakerReset) = false
            /\ ((exists e, r = Throw e) ->
                circuitBreakerState w' = circuitBreakerState w))).
Proof.
  induction 1 as [attempt w text Hp He | attempt w c t Hp
                  | attempt w m e Hp Hm | attempt w error Hp Ha
                  | attempt w error r w' Hp Ha Hpath IH | attempt w e].
  - exists [EvSendMessage chat message]. split; [reflexivity |].
    right. split; [reflexivity |]. intros [e He']. discriminate.
  - exists [EvSendMessage chat message; EvRecordSuccess].
    split; [rewrite afterSuccess_trace; cbn; rewrite <- app_assoc; reflexivity |].
    right. split; [reflexivity |]. intros [e He'].
    destruct (parseGeminiResponse_returns (c :: t)) as [v Hv]. congruence.
  - exists [EvSendMessage chat message]. split; [reflexivity |].
    right. split; reflexivity.
  - exists [EvSendMessage chat message; EvRecordFailure].
    split; [rewrite afterFailure_trace; cbn; rewrite <- app_assoc; reflexivity |].
    left. destruct (afterFailure_threshold (afterSend chat message w))
      as (Hf & _ & Hbelow).
    split; [reflexivity |]. split; [eexists; reflexivity |].
    split; assumption.
  - destruct IH as (suf & Ht & Hcases).
    exists ([EvSendMessage chat message;
             EvDelay (delayMsOf (randomSource w (randomReads w)) attempt)]
              ++ suf).
    split; [rewrite Ht; cbn; rewrite <- !app_assoc; reflexivity |].
    assert (Hlast : isRecordFailure
                      (last ([EvSendMessage chat message;
                              EvDelay (delayMsOf (randomSource w (randomReads w))
                                                 attempt)] ++ suf)
                            EvBreakerReset)
                    = isRecordFailure (last suf EvBreakerReset)).
    { apply (last_after [EvSendMessage chat message] suf); reflexivity. }
    rewrite Hlast.
    destruct Hcases as [(Hl & Hthrow & Hf & Hbelow) | (Hl & Hsame)].
    + left. repeat split; assumption.
    + right. split; [exact Hl |]. intros Hthrow. apply (Hsame Hthrow).
  - exists []. split; [rewrite app_nil_r; reflexivity |].
    right. split; reflexivity.
Qed.

Lemma refused_is_open (w w1 : World) :
  checkCircuitBreaker w = (Return false, w1) ->
  isOpen (circuitBreakerState w) = true.
Proof.
  intros E.
  destruct (checkCircuitBreaker_cases w)
    as [[Ho E'] | [[Ho [Hc E']] | [Ho [Hc E']]]];
    rewrite E' in E; (discriminate E || exact Ho).
Qed.

(** An admission that did not reset found the breaker closed and left the
    world as it was, but for the clock. *)
Lemma entered_without_reset (w w1 : World) :
  checkCircuitBreaker w = (Return true, w1) ->
  count isReset (trace w1) = count isReset (trace w) ->
  w1 = afterClockRead w /\ isOpen (circuitBreakerState w) = false.
Proof.
  intros E Hrs.
  destruct (checkCircuitBreaker_cases w)
    as [[Ho E'] | [[Ho [Hc E']] | [Ho [Hc E']]]];
    rewrite E' in E; inversion E; subst w1.
  - split; [reflexivity | exact Ho].
  - exfalso. revert Hrs. count_trace. lia.
Qed.

Lemma LeafCall_breaker (chat : Chat) (message : jsstring)
  (w : World) (r : Completion (option GameAIResponse)) (w' : World) :
  LeafCall chat message w r w' ->
  count isReset (trace w') = count isReset (trace w) ->
  exists suf,
    trace w' = trace w ++ suf
    /\ ((isRecordFailure (last suf EvBreakerReset) = true
         /\ (exists e, r = Throw e)
         /\ isOpen (circuitBreakerState w) = false
         /\ failures (circuitBreakerState w')
            = (failures (circuitBreakerState w) + 1)%Z
         /\ belowThreshold (circuitBreakerState w'))
        \/ (isRecordFailure (last suf EvBreakerReset) = false
            /\ ((exists e, r = Throw e) ->
                circuitBreakerState w' = circuitBreakerState w))).
Proof.
  destruct 1 as [w E | w w1 r w' E Hpath]; intros Hrs.
  - exists []. split; [cbn; rewrite app_nil_r; reflexivity |].
    right. split; reflexivity.
  - destruct (LoopPath_effects _ _ _ _ _ _ Hpath) as (_ & _ & _ & Hrs' & _).
    destruct (entered_without_reset w w1 E) as [-> Ho]; [congruence |].
    destruct (LoopPath_breaker _ _ _ _ _ _ Hpath) as (suf & Ht & Hcases).
    exists suf. split; [exact Ht |].
    destruct Hcases as [(Hl & Hthrow & Hf & Hbelow) | (Hl & Hsame)].
    + left. repeat split; assumption.
    + right. split; assumption.
Qed.

(** A primary call that ends fully exhausted, none of whose admission
    checks reset the breaker: it started on a closed breaker and added at
    least one failure. *)
Lemma TopCall_exhausted (chat : Chat) (message : jsstring)
  (w : World) (r : Completion (option GameAIResponse)) (w' : World) :
  TopCall chat message w r w' ->
  count isReset (trace w') = count isReset (trace w) ->
  isRecordFailure (last (callEvents w w') EvBreakerReset) = true ->
  isOpen (circuitBreakerState w) = false
  /\ (failures (circuitBreakerState w')
      >= failures (circuitBreakerState w) + 1)%Z
  /\ belowThreshold (circuitBreakerState w').
Proof.
  destruct 1 as [w r w' E Hleaf | w w1 r w' E Hpath
                 | w w1 error v w' E Hp He Hleaf
                 | w w1 error e wf r w' E Hp He Hleaf Hpath];
    intros Hrs Hlast.
  - (* refused at the first check *)
    exfalso.
    pose proof (refused_is_open _ _ E) as Ho.
    destruct (LeafCall_effects _ _ _ _ _ Hleaf) as (_ & _ & _ & _ & Hmono).
    destruct (LeafCall_breaker _ _ _ _ _ Hleaf) as (suf & Ht & Hcases).
    { revert Hmono. count_trace. lia. }
    destruct Hcases as [(_ & _ & Hclosed & _) | (Hl & _)].
    + revert Hclosed. world_fields. congruence.
    + rewrite callEvents_app
        with (suf := [] ++ EvCreateChat (fallbackChatOf (afterClockRead w))
                          :: suf)
        in Hlast
        by (rewrite Ht; cbn; rewrite <- app_assoc; reflexivity).
      rewrite last_after in Hlast by reflexivity. congruence.
  - destruct (LoopPath_effects _ _ _ _ _ _ Hpath) as (_ & _ & _ & Hrs' & _).
    destruct (entered_without_reset w w1 E) as [-> Ho]; [congruence |].
    destruct (LoopPath_breaker _ _ _ _ _ _ Hpath) as (suf & Ht & Hcases).
    rewrite callEvents_app with (suf := suf) in Hlast by exact Ht.
    destruct Hcases as [(_ & _ & Hf & Hbelow) | (Hl & _)]; [| congruence].
    split; [exact Ho |]. split; [| exact Hbelow].
    revert Hf. world_fields. lia.
  - (* the fallback invocation returned *)
    exfalso.
    destruct (entered_world _ _ E) as (_ & _ & _ & _ & _ & _ & _ & _ & _ & Hm1).
    destruct (LeafCall_effects _ _ _ _ _ Hleaf) as (_ & _ & _ & _ & Hmono).
    destruct (LeafCall_breaker _ _ _ _ _ Hleaf) as (suf & Ht & Hcases).
    { revert Hmono Hm1. count_trace. lia. }
    destruct Hcases as [(_ & [e' He'] & _) | (Hl & _)]; [discriminate |].
    destruct (entered_without_reset w w1 E) as [-> Ho].
    { revert Hmono Hm1. count_trace. lia. }
    rewrite callEvents_app
      with (suf := [EvSendMessage chat message]
                     ++ EvCreateChat
                          (fallbackChatOf
                             (afterSend chat message (afterClockRead w)))
                     :: suf)
      in Hlast
      by (rewrite Ht; cbn; rewrite <- !app_assoc; reflexivity).
    rewrite last_after in Hlast by reflexivity. congruence.
  - (* the fallback invocation failed and the primary loop went on *)
    destruct (entered_world _ _ E) as (_ & _ & _ & _ & _ & _ & _ & _ & _ & Hm1).
    destruct (LeafCall_effects _ _ _ _ _ Hleaf) as (_ & _ & _ & _ & Hmono).
    destruct (LoopPath_effects _ _ _ _ _ _ Hpath) as (_ & _ & _ & Hrs' & _).
    assert (Hrs1 : count isReset (trace w1) = count isReset (trace w))
      by (revert Hmono Hm1 Hrs'; count_trace; lia).
    destruct (entered_without_reset w w1 E Hrs1) as [-> Ho].
    destruct (LeafCall_breaker _ _ _ _ _ Hleaf) as (sufL & HtL & HcasesL).
    { revert Hmono Hm1 Hrs'. count_trace. lia. }
    destruct (LoopPath_breaker _ _ _ _ _ _ Hpath) as (suf & Ht & Hcases).
    rewrite callEvents_app
      with (suf := (EvSendMessage chat message
                      :: EvCreateChat
                           (fallbackChatOf
                              (afterSend chat message (afterClockRead w)))
                      :: sufL)
                     ++ EvDelay (delayMsOf (randomSource wf (randomReads wf)) 0)
                     :: suf)
      in Hlast
      by (rewrite Ht; cbn [afterBackoff trace]; rewrite HtL; cbn;
          rewrite <- !app_assoc; reflexivity).
    rewrite last_after in Hlast by reflexivity.
    destruct Hcases as [(_ & _ & Hf & Hbelow) | (Hl & _)]; [| congruence].
    split; [exact Ho |]. split; [| exact Hbelow].
    cbn [afterBackoff circuitBreakerState] in Hf.
    destruct HcasesL as [(_ & _ & _ & HfL & _) | (_ & Hsame)].
    + revert HfL. world_fields. lia.
    + rewrite (Hsame (ex_intro _ e eq_refl)) in Hf. revert Hf. world_fields. lia.
Qed.

(** Calls in a row that all end fully exhausted, with no reset: each added
    at least one failure, and the breaker left by the last one is open or
    below the threshold. *)
Lemma exhausted_calls (calls : list (Chat * jsstring)) :
  forall w,
    allExhausted calls w = true ->
    count isReset (trace (runCalls calls w)) = count isReset (trace w) ->
    (failures (circuitBreakerState (runCalls calls w))
     >= failures (circuitBreakerState w) + Z.of_nat (List.length calls))%Z
    /\ (calls <> [] -> belowThreshold (circuitBreakerState (runCalls calls w))).
Proof.
  induction calls as [| [chat message] rest IH]; intros w Hall Hrs.
  - cbn [runCalls List.length]. split; [lia | congruence].
  - cbn [runCalls allExhausted] in *.
    apply andb_prop in Hall as [Hex Hall].
    set (w1 := snd (sendMessageToGemini chat message false w)) in *.
    destruct (call_keeps_provider chat message w) as (_ & Hmono1).
    fold w1 in Hmono1.
    pose proof (runCalls_resets rest w1) as Hmono2.
    assert (Hrs1 : count isReset (trace w1) = count isReset (trace w)) by lia.
    assert (Hrs2 : count isReset (trace (runCalls rest w1))
                   = count isReset (trace w1)) by lia.
    destruct (TopCall_exhausted _ _ _ _ _
                (sendMessageToGemini_top_call chat message w) Hrs1 Hex)
      as (_ & Hinc & Hbelow1). fold w1 in Hinc, Hbelow1.
    destruct (IH w1 Hall Hrs2) as (Hge & Hbelow).
    split.
    + change (List.length ((chat, message) :: rest))
        with (S (List.length rest)). lia.
    + intros _. destruct rest as [| c rest'];
        [exact Hbelow1 | apply Hbelow; discriminate].
Qed.

(** ** The threshold *)

(** C5 as stated fails: during an outage in which the provider is
    overloaded at every attempt, five calls in a row run their primary loop
    to exhaustion (each ends with the overload error after four primary
    attempts), with a pause after the third; the breaker, opened during the
    third call by the failures the fallback invocations record too, is reset
    at the admission of the fourth, and after the fifth call it is closed
    with four failures counted; the sixth call is admitted and attempts the
    provider. *)
Lemma five_exhausted_calls_leave_breaker_closed :
  let w3 := runCalls (firstn 3 fiveCalls) outageWorld in
  let w5 := runCalls fiveCalls outageWorld in
  let w6 := snd (sendMessageToGemini primaryChat (js "6") false w5) in
  allExhausted fiveCalls outageWorld = true
  /\ count isReset (trace w5) = 1%nat
  /\ callResults fiveCalls outageWorld
    = [Throw (ErrorObj overloadedMessage); Throw (ErrorObj overloadedMessage);
       Throw (ErrorObj overloadedMessage); Throw (ErrorObj overloadedMessage);
       Throw (ErrorObj overloadedMessage)]
  /\ count (isSendTo GEMINI_MODEL_NAME) (trace w5) = 20%nat
  /\ count isRecord (trace w5) = 10%nat
  /\ isOpen (circuitBreakerState w3) = true
  /\ isOpen (circuitBreakerState w5) = false
  /\ failures (circuitBreakerState w5) = 4%Z
  /\ sent w6 = (sent w5 + 8)%nat.
Proof. vm_compute. repeat split. Qed.

(** C5, amended. [recordFailure] adds one to the failure count and, when
    the count is then at least 5, opens the breaker and sets [openUntil] to
    the time read then plus 30000 ms.  Starting from a closed breaker with
    no failures counted, after five fully exhausted calls in a row, none of
    whose admission checks found the reset timeout elapsed, the breaker is
    open; a sixth call whose two admission checks are made no later than
    [openUntil] is refused on both paths without anything being sent. *)
Theorem five_exhausted_calls_open_breaker :
  (forall w,
     let b := circuitBreakerState w in
     let b' := circuitBreakerState (afterFailure w) in
     recordFailure w = (Return tt, afterFailure w)
     /\ failures b' = (failures b + 1)%Z
     /\ ((failures b + 1 >= 5)%Z ->
         isOpen b' = true
         /\ openUntil b' = (clock w (S (clockReads w)) + 30000)%Z)
     /\ ((failures b + 1 < 5)%Z ->
         isOpen b' = isOpen b /\ openUntil b' = openUntil b))
  /\ (forall calls w,
        List.length calls = 5%nat ->
        isOpen (circuitBreakerState w) = false ->
        failures (circuitBreakerState w) = 0%Z ->
        allExhausted calls w = true ->
        let w5 := runCalls calls w in
        count isReset (trace w5) = count isReset (trace w) ->
        isOpen (circuitBreakerState w5) = true
        /\ forall chat message,
             (clock w5 (clockReads w5)
              <= openUntil (circuitBreakerState w5))%Z ->
             (clock w5 (S (clockReads w5))
              <= openUntil (circuitBreakerState w5))%Z ->
             exists w6,
               sendMessageToGemini chat message false w5
                 = (Throw (ErrorObj bothUnavailableMessage), w6)
               /\ sent w6 = sent w5
               /\ circuitBreakerState w6 = circuitBreakerState w5).
Proof.
  split.
  - intros w b b'. split; [apply recordFailure_run |].
    destruct (afterFailure_breaker w) as (Hf & _ & Hge & Hlt).
    repeat split; auto; [apply Hge | apply Hge | apply Hlt | apply Hlt];
      assumption.
  - intros calls w Hlen Ho Hzero Hall w5 Hrs.
    assert (Hopen : isOpen (circuitBreakerState w5) = true).
    { destruct (exhausted_calls calls w Hall Hrs) as (Hge & Hbelow).
      assert (Hne : calls <> []) by (destruct calls; discriminate).
      specialize (Hbelow Hne). fold w5 in Hbelow, Hge.
      destruct (isOpen (circuitBreakerState w5)) eqn:Ho5; [reflexivity |].
      specialize (Hbelow Ho5).
      cbn [failureThreshold CIRCUIT_BREAKER_CONFIG] in Hbelow.
      rewrite Hlen, Hzero in Hge. lia. }
    split; [exact Hopen |].
    intros chat message H1 H2. eexists. split.
    + apply sendMessageToGemini_refused_both; assumption.
    + split; reflexivity.
Qed.

Lemma five_exhausted_calls_open_breaker_witness :
  isOpen (circuitBreakerState (runCalls fiveCalls badGatewayWorld)) = true
  /\ exists w6,
       sendMessageToGemini primaryChat (js "6") false
         (runCalls fiveCalls badGatewayWorld)
         = (Throw (ErrorObj bothUnavailableMessage), w6)
       /\ sent w6 = sent (runCalls fiveCalls badGatewayWorld)
       /\ circuitBreakerState w6
          = circuitBreakerState (runCalls fiveCalls badGatewayWorld).
Proof.
  assert (Hall : allExhausted fiveCalls badGatewayWorld = true)
    by (vm_compute; reflexivity).
  assert (Hrs : count isReset (trace (runCalls fiveCalls badGatewayWorld))
                = count isReset (trace badGatewayWorld))
    by (vm_compute; reflexivity).
  destruct (proj2 five_exhausted_calls_open_breaker fiveCalls badGatewayWorld
              eq_refl eq_refl eq_refl Hall Hrs)
    as (Hopen & Hsixth).
  split; [exact Hopen |].
  apply (Hsixth primaryChat (js "6")); vm_compute; discriminate.
Defined.

(** * More of the service *)

(** ** Every run is an exact run *)

Lemma fallsThrough_retried (error : JsThrown) (useFallback : bool)
  (attempt : nat) :
  useFallback = true \/ attempt <> 0%nat ->
  fallsThrough error useFallback attempt = retried error.
Proof.
  intros Hne. destruct error as [m | v]; [| reflexivity].
  unfold fallsThrough, retried.
  assert (Hc : negb useFallback && Nat.eqb attempt 0 = false).
  { destruct Hne as [-> | Hn]; [reflexivity |].
    apply Nat.eqb_neq in Hn. rewrite Hn. apply andb_false_r. }
  rewrite Hc. cbn [andb negb]. apply andb_true_r.
Qed.

Lemma not_retried (error : JsThrown) :
  retried error = false ->
  exists m, error = ErrorObj m
    /\ (isInvalidApiKey m || isQuotaExceeded m = true
        \/ (isInvalidApiKey m = false /\ isQuotaExceeded m = false
            /\ isRetryableError m = false)).
Proof.
  destruct error as [m | v]; [| discriminate]. unfold retried.
  intros H. exists m. split; [reflexivity |].
  destruct (isInvalidApiKey m); [left; reflexivity |].
  destruct (isQuotaExceeded m); [left; reflexivity |].
  destruct (isRetryableError m); [discriminate H | right; auto].
Qed.

(** The loop, when it makes no fallback call at its first iteration, runs
    as [LoopRun] says. *)
Lemma retryLoop_run
  (self : Chat -> jsstring -> bool -> M (option GameAIResponse))
  (chat : Chat) (message : jsstring) (useFallback : bool) (k : nat) :
  forall (attempt : nat) (lastError : option jsstring) (w : World),
    (forall error, provider w (sent w) = Rejects error ->
                   fallsThrough error useFallback attempt = retried error) ->
    LoopRun chat message k attempt lastError w
      (fst (retryLoop self k attempt lastError chat message useFallback w))
      (snd (retryLoop self k attempt lastError chat message useFallback w)).
Proof.
  induction k as [| k IH]; intros attempt lastError w Hft.
  - cbn. apply RunOut.
  - destruct (provider w (sent w)) as [text | error] eqn:Hp.
    + destruct text as [[| c t] |].
      * rewrite retryLoop_empty_text with (text := Some []) by auto.
        cbn [fst snd]. eapply RunEmptyText; [exact Hp | reflexivity].
      * rewrite retryLoop_success with (c := c) (t := t) by exact Hp.
        destruct (parseGeminiResponse_returns (c :: t)) as [r Hr].
        rewrite Hr. cbn [fst snd]. eapply RunParsed; eassumption.
      * rewrite retryLoop_empty_text with (text := None) by auto.
        cbn [fst snd]. eapply RunEmptyText; [exact Hp | reflexivity].
    + rewrite retryLoop_rejected with (error := error) by exact Hp.
      specialize (Hft error eq_refl).
      destruct (retried error) eqn:Hr.
      * destruct (Nat.eqb attempt (maxRetries RETRY_CONFIG)) eqn:Ha.
        -- rewrite catchBlock_exhausted by assumption. cbn [fst snd].
           apply RunExhausted; [exact Hp | exact Hr |].
           apply Nat.eqb_eq. exact Ha.
        -- rewrite catchBlock_retries by assumption.
           eapply RunRetried;
             [exact Hp | exact Hr | apply Nat.eqb_neq; exact Ha |].
           apply IH. intros error' _. apply fallsThrough_retried.
           right. discriminate.
      * destruct (not_retried error Hr) as (m & -> & [Hpol | (H1 & H2 & H3)]).
        -- rewrite catchBlock_policy_error by exact Hpol. cbn [fst snd].
           apply RunPolicy; assumption.
        -- rewrite catchBlock_not_retryable by assumption. cbn [fst snd].
           apply RunFatal; assumption.
Qed.

(** A fallback invocation runs as [LeafRun] says. *)
Lemma sendMessageToGemini_leaf_run (chat : Chat) (message : jsstring)
  (w : World) :
  LeafRun chat message w
    (fst (sendMessageToGemini chat message true w))
    (snd (sendMessageToGemini chat message true w)).
Proof.
  destruct (checkCircuitBreaker_cases w)
    as [[Ho E] | [[Ho [Hc E]] | [Ho [Hc E]]]].
  - rewrite sendMessageToGemini_entered with (w := afterClockRead w) by exact E.
    eapply LeafRunEntered; [exact E |]. apply retryLoop_run.
    intros error _. apply fallsThrough_retried. left; reflexivity.
  - rewrite sendMessageToGemini_refused_leaf with (w1 := afterClockRead w)
      by exact E.
    cbn [fst snd]. apply LeafRunRefused. exact E.
  - rewrite sendMessageToGemini_entered with (w := afterReset w) by exact E.
    eapply LeafRunEntered; [exact E |]. apply retryLoop_run.
    intros error _. apply fallsThrough_retried. left; reflexivity.
Qed.

Lemma escalates_or_plain (error : JsThrown) :
  escalates error = false ->
  fallsThrough error false 0 = retried error.
Proof.
  destruct error as [m | v]; [| reflexivity].
  unfold escalates, fallsThrough, retried. cbn [negb andb Nat.eqb].
  destruct (negb (isInvalidApiKey m) && negb (isQuotaExceeded m)
            && isRetryableError m); cbn [andb]; [| reflexivity].
  intros ->. reflexivity.
Qed.

Lemma entered_loop_run (chat : Chat) (message : jsstring) (w w1 : World) :
  checkCircuitBreaker w = (Return true, w1) ->
  TopRun chat message w
    (fst (retryLoop sendMessageToGemini_leaf (S (maxRetries RETRY_CONFIG)) 0
            None chat message false w1))
    (snd (retryLoop sendMessageToGemini_leaf (S (maxRetries RETRY_CONFIG)) 0
            None chat message false w1)).
Proof.
  intros E.
  destruct (provider w1 (sent w1)) as [text | error] eqn:Hp.
  - eapply TopRunPlain; [exact E | intros error H; congruence |].
    apply retryLoop_run. intros error H. congruence.
  - destruct (escalates error) eqn:He.
    + rewrite retryLoop_rejected with (error := error) by exact Hp.
      rewrite catchBlock_escalates by exact He.
      rewrite sendMessageToGemini_leaf_eq.
      pose proof (sendMessageToGemini_leaf_run
                    (fallbackChatOf (afterSend chat message w1)) message
                    (afterCreate (afterSend chat message w1))) as Hleaf.
      destruct (sendMessageToGemini
                  (fallbackChatOf (afterSend chat message w1)) message true
                  (afterCreate (afterSend chat message w1))) as [[v | e] wf];
        cbn [fst snd] in Hleaf.
      * cbn [fst snd]. eapply TopRunRescued; eassumption.
      * eapply TopRunResumed; try eassumption.
        apply retryLoop_run. intros error' _. apply fallsThrough_retried.
        right. discriminate.
    + eapply TopRunPlain; [exact E | intros error' H; congruence |].
      apply retryLoop_run. intros error' H.
      assert (error' = error) by congruence. subst error'.
      apply escalates_or_plain. exact He.
Qed.

(** A primary invocation runs as [TopRun] says. *)
Lemma sendMessageToGemini_top_run (chat : Chat) (message : jsstring)
  (w : World) :
  TopRun chat message w
    (fst (sendMessageToGemini chat message false w))
    (snd (sendMessageToGemini chat message false w)).
Proof.
  destruct (checkCircuitBreaker_cases w)
    as [[Ho E] | [[Ho [Hc E]] | [Ho [Hc E]]]].
  - rewrite sendMessageToGemini_entered with (w := afterClockRead w) by exact E.
    apply entered_loop_run. exact E.
  - rewrite sendMessageToGemini_refused_top with (w1 := afterClockRead w)
      by exact E.
    eapply TopRunRefused; [exact E |]. apply sendMessageToGemini_leaf_run.
  - rewrite sendMessageToGemini_entered with (w := afterReset w) by exact E.
    apply entered_loop_run. exact E.
Qed.

(** ** What every run preserves *)

Section Steps.

(** A relation between the world before and the world after that every
    elementary step of the service satisfies. *)
Variable R : World -> World -> Prop.

Hypothesis R_refl : forall w, R w w.
Hypothesis R_trans : forall a b c, R a b -> R b c -> R a c.
Hypothesis R_send : forall chat message w, R w (afterSend chat message w).
Hypothesis R_success : forall w, R w (afterSuccess w).
Hypothesis R_failure : forall w, R w (afterFailure w).
Hypothesis R_backoff : forall attempt w, R w (afterBackoff attempt w).
Hypothesis R_create : forall w, R w (afterCreate w).
Hypothesis R_clock : forall w, R w (afterClockRead w).
Hypothesis R_reset : forall w, R w (afterReset w).

Lemma check_steps (w w1 : World) (r : Completion bool) :
  checkCircuitBreaker w = (r, w1) -> R w w1.
Proof.
  intros E.
  destruct (checkCircuitBreaker_cases w)
    as [[Ho E'] | [[Ho [Hc E']] | [Ho [Hc E']]]];
    rewrite E' in E; inversion E; subst; auto.
Qed.

Lemma LoopRun_steps (chat : Chat) (message : jsstring) (k attempt : nat)
  (lastError : option jsstring) (w : World)
  (r : Completion (option GameAIResponse)) (w' : World) :
  LoopRun chat message k attempt lastError w r w' -> R w w'.
Proof.
  induction 1; eauto.
Qed.

Lemma LeafRun_steps (chat : Chat) (message : jsstring) (w : World)
  (r : Completion (option GameAIResponse)) (w' : World) :
  LeafRun chat message w r w' -> R w w'.
Proof.
  destruct 1 as [w w1 E | w w1 r w' E Hrun].
  - eapply check_steps; exact E.
  - eapply R_trans; [eapply check_steps; exact E |].
    eapply LoopRun_steps; exact Hrun.
Qed.

Lemma TopRun_steps (chat : Chat) (message : jsstring) (w : World)
  (r : Completion (option GameAIResponse)) (w' : World) :
  TopRun chat message w r w' -> R w w'.
Proof.
  destruct 1 as [w w1 r w' E Hleaf | w w1 r w' E Hne Hrun
                 | w w1 error v w' E Hp He Hleaf
                 | w w1 error e wf r w' E Hp He Hleaf Hrun].
  - eapply R_trans; [eapply check_steps; exact E |].
    eapply R_trans; [apply R_create |]. eapply LeafRun_steps; exact Hleaf.
  - eapply R_trans; [eapply check_steps; exact E |].
    eapply LoopRun_steps; exact Hrun.
  - eapply R_trans; [eapply check_steps; exact E |].
    eapply R_trans; [apply R_send |].
    eapply R_trans; [apply R_create |]. eapply LeafRun_steps; exact Hleaf.
  - eapply R_trans; [eapply check_steps; exact E |].
    eapply R_trans; [apply R_send |].
    eapply R_trans; [apply R_create |].
    eapply R_trans; [eapply LeafRun_steps; exact Hleaf |].
    eapply R_trans; [apply R_backoff |]. eapply LoopRun_steps; exact Hrun.
Qed.

Lemma sendMessageToGemini_steps (chat : Chat) (message : jsstring)
  (useFallback : bool) (w : World) :
  R w (snd (sendMessageToGemini chat message useFallback w)).
Proof.
  destruct useFallback.
  - eapply LeafRun_steps. apply sendMessageToGemini_leaf_run.
  - eapply TopRun_steps. apply sendMessageToGemini_top_run.
Qed.

End Steps.

Lemma afterFailure_sound (w : World) :
  breakerSound (circuitBreakerState w) ->
  breakerSound (circuitBreakerState (afterFailure w)).
Proof.
  unfold breakerSound. cbn [failureThreshold CIRCUIT_BREAKER_CONFIG].
  intros [Hpos Hiff].
  destruct (afterFailure_breaker w) as (Hf & _ & Hge & Hlt).
  rewrite Hf. split; [lia |].
  destruct (Z_lt_ge_dec (failures (circuitBreakerState w) + 1) 5)
    as [Hsmall | Hbig].
  - destruct (Hlt Hsmall) as [Ho _]. rewrite Ho. split.
    + intros H. apply Hiff in H. lia.
    + intros H. lia.
  - destruct (Hge Hbig) as [Ho _]. rewrite Ho. split; [lia | reflexivity].
Qed.

Lemma closed_zero_sound (t u : Z) : breakerSound (mkBreaker 0 t false u).
Proof.
  unfold breakerSound. cbn. split; [lia |]. split; [discriminate | lia].
Qed.

Lemma sendMessageToGemini_sound (chat : Chat) (message : jsstring)
  (useFallback : bool) (w : World) :
  breakerSound (circuitBreakerState w) ->
  breakerSound (circuitBreakerState
                  (snd (sendMessageToGemini chat message useFallback w))).
Proof.
  apply (sendMessageToGemini_steps
           (fun a b => breakerSound (circuitBreakerState a) ->
                       breakerSound (circuitBreakerState b)));
    auto using afterFailure_sound.
  - intros a _. apply closed_zero_sound.
  - intros a _. apply closed_zero_sound.
Qed.

(** X1. The breaker is open exactly when its failure count has reached the
    threshold of 5, and the count is never negative: every call keeps this,
    so it holds after any sequence of calls of a process that started with
    the initial breaker. *)
Theorem breaker_open_iff_threshold :
  (forall chat message useFallback w,
     breakerSound (circuitBreakerState w) ->
     breakerSound (circuitBreakerState
                     (snd (sendMessageToGemini chat message useFallback w))))
  /\ (forall calls w,
        circuitBreakerState w = initialBreaker ->
        breakerSound (circuitBreakerState (runCalls calls w))).
Proof.
  split; [exact sendMessageToGemini_sound |].
  assert (Hall : forall calls w,
            breakerSound (circuitBreakerState w) ->
            breakerSound (circuitBreakerState (runCalls calls w))).
  { induction calls as [| [chat message] rest IH]; intros w Hs;
      cbn [runCalls]; [exact Hs |].
    apply IH. apply sendMessageToGemini_sound. exact Hs. }
  intros calls w Hinit. apply Hall. rewrite Hinit. apply closed_zero_sound.
Qed.

Lemma breaker_open_iff_threshold_witness :
  breakerSound (circuitBreakerState
                  (snd (sendMessageToGemini primaryChat (js "go") false
                          chattyWorld)))
  /\ breakerSound (circuitBreakerState (runCalls fiveCalls overloadedWorld)).
Proof.
  split.
  - apply (proj1 breaker_open_iff_threshold primaryChat (js "go") false
             chattyWorld).
    unfold breakerSound. cbn. split; [lia |]. split; [discriminate | lia].
  - apply (proj2 breaker_open_iff_threshold fiveCalls overloadedWorld).
    reflexivity.
Defined.

(** ** The hold-off of an open breaker *)

Lemma afterFailure_holdsOff (w : World) :
  monotoneClock (clock w) ->
  breakerSound (circuitBreakerState w) ->
  holdsOff (circuitBreakerState (afterFailure w)).
Proof.
  unfold holdsOff, breakerSound.
  cbn [failureThreshold resetTimeout CIRCUIT_BREAKER_CONFIG].
  intros Hmono [Hpos Hiff] Ho'.
  destruct (afterFailure_breaker w) as (Hf & Hl & Hge & Hlt).
  destruct (Z_lt_ge_dec (failures (circuitBreakerState w) + 1) 5)
    as [Hsmall | Hbig].
  - destruct (Hlt Hsmall) as [Ho _]. rewrite Ho in Ho'. apply Hiff in Ho'. lia.
  - destruct (Hge Hbig) as [_ Hu]. rewrite Hu, Hl.
    pose proof (Hmono (clockReads w) (S (clockReads w)) (Nat.le_succ_diag_r _)).
    lia.
Qed.

(** X2. With a clock that never goes back, an open breaker always has
    [openUntil] at least 30 seconds after the time of the last failure
    recorded: every call keeps this, and so an admission check made no later
    than 30 seconds after that failure is refused. *)
Theorem open_breaker_holds_off_thirty_seconds :
  (forall chat message useFallback w,
     monotoneClock (clock w) ->
     breakerSound (circuitBreakerState w) ->
     holdsOff (circuitBreakerState w) ->
     holdsOff (circuitBreakerState
                 (snd (sendMessageToGemini chat message useFallback w))))
  /\ (forall w,
        holdsOff (circuitBreakerState w) ->
        isOpen (circuitBreakerState w) = true ->
        (clock w (clockReads w)
         <= lastFailureTime (circuitBreakerState w) + 30000)%Z ->
        checkCircuitBreaker w = (Return false, afterClockRead w)).
Proof.
  split.
  - intros chat message useFallback w Hmono Hs Hh.
    assert (H : clock (snd (sendMessageToGemini chat message useFallback w))
                = clock w
                /\ (monotoneClock (clock w) ->
                    breakerSound (circuitBreakerState w)
                    /\ holdsOff (circuitBreakerState w) ->
                    breakerSound
                      (circuitBreakerState
                         (snd (sendMessageToGemini chat message useFallback w)))
                    /\ holdsOff
                         (circuitBreakerState
                            (snd (sendMessageToGemini chat message useFallback
                                    w))))).
    { apply (sendMessageToGemini_steps
               (fun a b =>
                  clock b = clock a
                  /\ (monotoneClock (clock a) ->
                      breakerSound (circuitBreakerState a)
                      /\ holdsOff (circuitBreakerState a) ->
                      breakerSound (circuitBreakerState b)
                      /\ holdsOff (circuitBreakerState b)))).
      - intros a. split; [reflexivity | auto].
      - intros a b c [Hc1 H1] [Hc2 H2]. split; [congruence |].
        intros Hm Ha. apply H2; [rewrite Hc1; exact Hm | apply H1; assumption].
      - intros c m a. split; [reflexivity | auto].
      - intros a. split; [reflexivity |]. intros _ _.
        split; [apply closed_zero_sound | intros H; discriminate H].
      - intros a. split.
        + apply (afterFailure_frame a).
        + intros Hm [Hsa _].
          split; [apply afterFailure_sound | apply afterFailure_holdsOff];
            assumption.
      - intros n a. split; [reflexivity | auto].
      - intros a. split; [reflexivity | auto].
      - intros a. split; [reflexivity | auto].
      - intros a. split; [reflexivity |]. intros _ _.
        split; [apply closed_zero_sound | intros H; discriminate H]. }
    apply H; auto.
  - intros w Hh Ho Hnow. apply checkCircuitBreaker_refuses; [exact Ho |].
    specialize (Hh Ho). cbn [resetTimeout CIRCUIT_BREAKER_CONFIG] in Hh. lia.
Qed.

Lemma open_breaker_holds_off_thirty_seconds_witness :
  holdsOff (circuitBreakerState
              (snd (sendMessageToGemini primaryChat (js "go") false
                      overloadedWorld)))
  /\ checkCircuitBreaker heldWorld = (Return false, afterClockRead heldWorld).
Proof.
  split.
  - apply (proj1 open_breaker_holds_off_thirty_seconds primaryChat (js "go")
             false overloadedWorld).
    + intros i j _. cbn. lia.
    + unfold breakerSound. cbn. split; [lia |]. split; [discriminate | lia].
    + intros H. discriminate H.
  - apply (proj2 open_breaker_holds_off_thirty_seconds heldWorld).
    + intros _. cbn. lia.
    + reflexivity.
    + cbn. lia.
Defined.

(** ** What a call hands back *)

Lemma parseGeminiResponse_some (text : jsstring) (v : GameAIResponse) :
  parseGeminiResponse text = Return (Some v) ->
  exists ms sd ip,
    v = JObject ms
    /\ lookupLast sceneDescriptionKey ms = Some sd
    /\ lookupLast imagePromptKey ms = Some ip
    /\ truthy (Some sd) = true /\ truthy (Some ip) = true.
Proof.
  rewrite parseGeminiResponse_by_cases.
  destruct (JSON_parse (unfence text)) as [[| | | | | ms] | e]; try discriminate.
  destruct (lookupLast sceneDescriptionKey ms) as [sd |] eqn:Hs;
    [| discriminate].
  destruct (lookupLast imagePromptKey ms) as [ip |] eqn:Hi;
    [| rewrite andb_false_r; discriminate].
  destruct (truthy (Some sd)) eqn:Ts; [| discriminate].
  destruct (truthy (Some ip)) eqn:Ti; [| discriminate].
  cbn [andb]. intros [= <-]. exists ms, sd, ip. auto.
Qed.

Lemma LoopRun_returned (chat : Chat) (message : jsstring) (k attempt : nat)
  (lastError : option jsstring) (w : World)
  (r : Completion (option GameAIResponse)) (w' : World) :
  LoopRun chat message k attempt lastError w r w' ->
  forall v, r = Return (Some v) ->
    (exists text, parseGeminiResponse text = Return (Some v))
    /\ failures (circuitBreakerState w') = 0%Z
    /\ isOpen (circuitBreakerState w') = false
    /\ exists pre, trace w' = pre ++ [EvRecordSuccess].
Proof.
  induction 1 as [attempt le w | k attempt le w text Hp He
                  | k attempt le w c t r Hp Hr | k attempt le w m Hp Hm
                  | k attempt le w m Hp H1 H2 H3
                  | k attempt le w error Hp Hr Ha
                  | k attempt le w error r w' Hp Hr Ha Hrun IH];
    intros v Hv; try discriminate Hv.
  - injection Hv as ->. split; [eexists; exact Hr |].
    split; [reflexivity |]. split; [reflexivity |].
    eexists. apply afterSuccess_trace.
  - apply IH. exact Hv.
Qed.

Lemma LeafRun_returned (chat : Chat) (message : jsstring) (w : World)
  (r : Completion (option GameAIResponse)) (w' : World) :
  LeafRun chat message w r w' ->
  forall v, r = Return (Some v) ->
    (exists text, parseGeminiResponse text = Return (Some v))
    /\ failures (circuitBreakerState w') = 0%Z
    /\ isOpen (circuitBreakerState w') = false
    /\ exists pre, trace w' = pre ++ [EvRecordSuccess].
Proof.
  destruct 1 as [w w1 E | w w1 r w' E Hrun]; intros v Hv;
    [discriminate Hv |].
  eapply LoopRun_returned; eassumption.
Qed.

Lemma sendMessageToGemini_returned (chat : Chat) (message : jsstring)
  (useFallback : bool) (w : World) (v : GameAIResponse) :
  fst (sendMessageToGemini chat message useFallback w) = Return (Some v) ->
  (exists text, parseGeminiResponse text = Return (Some v))
  /\ failures (circuitBreakerState
                 (snd (sendMessageToGemini chat message useFallback w))) = 0%Z
  /\ isOpen (circuitBreakerState
               (snd (sendMessageToGemini chat message useFallback w))) = false
  /\ exists pre,
       trace (snd (sendMessageToGemini chat message useFallback w))
       = pre ++ [EvRecordSuccess].
Proof.
  destruct useFallback.
  - apply LeafRun_returned with (1 := sendMessageToGemini_leaf_run chat message w).
  - pose proof (sendMessageToGemini_top_run chat message w) as Hrun.
    destruct Hrun as [w w1 r w' E Hleaf | w w1 r w' E Hne Hrun
                      | w w1 error v' w' E Hp He Hleaf
                      | w w1 error e wf r w' E Hp He Hleaf Hrun];
      intros Hv.
    + eapply LeafRun_returned; eassumption.
    + eapply LoopRun_returned; eassumption.
    + eapply LeafRun_returned; eassumption.
    + eapply LoopRun_returned; eassumption.
Qed.

Lemma sendMessageToGemini_returned_object (chat : Chat) (message : jsstring)
  (useFallback : bool) (w : World) (v : GameAIResponse) :
  fst (sendMessageToGemini chat message useFallback w) = Return (Some v) ->
  exists ms sd ip,
    v = JObject ms
    /\ lookupLast sceneDescriptionKey ms = Some sd
    /\ lookupLast imagePromptKey ms = Some ip
    /\ truthy (Some sd) = true /\ truthy (Some ip) = true.
Proof.
  intros Hv.
  destruct (sendMessageToGemini_returned chat message useFallback w v Hv)
    as ([text Ht] & _).
  apply (parseGeminiResponse_some text v Ht).
Qed.

(** X3. Whatever a call returns that is not [null] is a parsed object that
    has both [sceneDescription] and [imagePrompt] with values that are not
    empty: a caller may read the two fields of any result it gets. *)
Theorem returned_result_has_both_fields (chat : Chat) (message : jsstring)
  (useFallback : bool) (w : World) (v : GameAIResponse) :
  fst (sendMessageToGemini chat message useFallback w) = Return (Some v) ->
  exists ms sd ip,
    v = JObject ms
    /\ lookupLast sceneDescriptionKey ms = Some sd
    /\ lookupLast imagePromptKey ms = Some ip
    /\ truthy (Some sd) = true /\ truthy (Some ip) = true
    /\ sd <> JString [] /\ ip <> JString [].
Proof.
  intros Hv.
  destruct (sendMessageToGemini_returned_object chat message useFallback w v
              Hv) as (ms & sd & ip & H1 & H2 & H3 & H4 & H5).
  exists ms, sd, ip.
  repeat split; auto using truthy_not_empty_string.
Qed.

Lemma returned_result_has_both_fields_witness :
  exists ms sd ip,
    JObject [(sceneDescriptionKey, JString (js "You enter a cave."));
             (imagePromptKey, JString (js "dark cave entrance, torchlight"))]
    = JObject ms
    /\ lookupLast sceneDescriptionKey ms = Some sd
    /\ lookupLast imagePromptKey ms = Some ip
    /\ truthy (Some sd) = true /\ truthy (Some ip) = true
    /\ sd <> JString [] /\ ip <> JString [].
Proof.
  apply (returned_result_has_both_fields primaryChat
           (js "Start the adventure.") false rescuedWorld).
  vm_compute. reflexivity.
Defined.

(** X4. A call that returns a result has reset the breaker as the last
    thing it did: the breaker it leaves is closed with no failure counted,
    whatever failed before the attempt that succeeded. *)
Theorem returned_result_leaves_breaker_closed (chat : Chat)
  (message : jsstring) (useFallback : bool) (w : World) (v : GameAIResponse) :
  fst (sendMessageToGemini chat message useFallback w) = Return (Some v) ->
  let w' := snd (sendMessageToGemini chat message useFallback w) in
  failures (circuitBreakerState w') = 0%Z
  /\ isOpen (circuitBreakerState w') = false
  /\ exists pre, trace w' = pre ++ [EvRecordSuccess].
Proof.
  intros Hv.
  destruct (sendMessageToGemini_returned chat message useFallback w v Hv)
    as (_ & H). exact H.
Qed.

Lemma returned_result_leaves_breaker_closed_witness :
  failures (circuitBreakerState
              (snd (sendMessageToGemini primaryChat
                      (js "Start the adventure.") false fallbackKeyWorld)))
  = 0%Z.
Proof.
  refine (proj1 (returned_result_leaves_breaker_closed primaryChat
                   (js "Start the adventure.") false fallbackKeyWorld _ _)).
  vm_compute. reflexivity.
Defined.

(** ** What a call throws *)

Lemma overloaded_is_retryable (m : jsstring) :
  isOverloaded m = true -> isRetryableError m = true.
Proof.
  unfold isOverloaded, isRetryableError.
  destruct (includes (js "503") m), (includes (js "UNAVAILABLE") m),
    (includes (js "overloaded") m), (includes (js "502") m),
    (includes (js "500") m); cbn; intros H; try reflexivity; discriminate H.
Qed.

Lemma LoopRun_thrown (chat : Chat) (message : jsstring) (k attempt : nat)
  (lastError : option jsstring) (w : World)
  (r : Completion (option GameAIResponse)) (w' : World) :
  LoopRun chat message k attempt lastError w r w' ->
  (attempt + k = S (maxRetries RETRY_CONFIG))%nat -> (1 <= k)%nat ->
  forall e, r = Throw e -> thrownBy (provider w) e.
Proof.
  cbn [maxRetries RETRY_CONFIG].
  induction 1 as [attempt le w | k attempt le w text Hp He
                  | k attempt le w c t r Hp Hr | k attempt le w m Hp Hm
                  | k attempt le w m Hp H1 H2 H3
                  | k attempt le w error Hp Hr Ha
                  | k attempt le w error r w' Hp Hr Ha Hrun IH];
    intros Hsum Hk e He'; try discriminate He'; try lia.
  - injection He' as <-. eexists. split; [reflexivity |]. left.
    destruct (isInvalidApiKey m); cbn; auto.
  - injection He' as <-. eexists. split; [reflexivity |]. right. split.
    + destruct (isOverloaded m) eqn:Ho; [| reflexivity].
      apply overloaded_is_retryable in Ho. congruence.
    + exists (sent w), (ErrorObj m). split; [exact Hp | reflexivity].
  - injection He' as <-. unfold exhaustedError.
    destruct (isOverloaded (asError error)) eqn:Ho.
    + eexists. split; [reflexivity |]. left. cbn. auto.
    + eexists. split; [reflexivity |]. right. split; [exact Ho |].
      exists (sent w), error. split; [exact Hp | reflexivity].
  - cbn [maxRetries RETRY_CONFIG] in Ha.
    apply (IH ltac:(lia) ltac:(lia) e He').
Qed.

Lemma check_frame (w w1 : World) (r : Completion bool) :
  checkCircuitBreaker w = (r, w1) ->
  provider w1 = provider w /\ randomSource w1 = randomSource w.
Proof.
  apply (check_steps
           (fun a b => provider b = provider a
                       /\ randomSource b = randomSource a)); intros;
    split; reflexivity.
Qed.

Lemma LeafRun_frame (chat : Chat) (message : jsstring) (w : World)
  (r : Completion (option GameAIResponse)) (w' : World) :
  LeafRun chat message w r w' ->
  provider w' = provider w /\ randomSource w' = randomSource w.
Proof.
  apply (LeafRun_steps
           (fun a b => provider b = provider a
                       /\ randomSource b = randomSource a));
    first [ intros; split; reflexivity
          | intros a b c [H1 H2] [G1 G2]; split; congruence
          | intros a; destruct (afterFailure_frame a) as (H1 & _ & H3 & _);
            split; assumption ].
Qed.

Lemma LeafRun_thrown (chat : Chat) (message : jsstring) (w : World)
  (r : Completion (option GameAIResponse)) (w' : World) :
  LeafRun chat message w r w' ->
  forall e, r = Throw e -> thrownBy (provider w) e.
Proof.
  destruct 1 as [w w1 E | w w1 r w' E Hrun]; intros e He.
  - injection He as <-. eexists. split; [reflexivity |]. left. cbn. auto.
  - destruct (check_frame _ _ _ E) as [Hp _]. rewrite <- Hp.
    apply (LoopRun_thrown _ _ _ _ _ _ _ _ Hrun); [reflexivity | | exact He].
    cbn. lia.
Qed.

Lemma sendMessageToGemini_thrown (chat : Chat) (message : jsstring)
  (useFallback : bool) (w : World) (e : JsThrown) :
  fst (sendMessageToGemini chat message useFallback w) = Throw e ->
  thrownBy (provider w) e.
Proof.
  intros He. destruct useFallback.
  - apply (LeafRun_thrown _ _ _ _ _
             (sendMessageToGemini_leaf_run chat message w) e He).
  - pose proof (sendMessageToGemini_top_run chat message w) as Hrun.
    revert He.
    destruct Hrun as [w w1 r w' E Hleaf | w w1 r w' E Hne Hrun
                      | w w1 error v' w' E Hp He Hleaf
                      | w w1 error e' wf r w' E Hp He Hleaf Hrun];
      intros Hthrow.
    + destruct (check_frame _ _ _ E) as [Hpr _]. rewrite <- Hpr.
      apply (LeafRun_thrown _ _ _ _ _ Hleaf e Hthrow).
    + destruct (check_frame _ _ _ E) as [Hpr _]. rewrite <- Hpr.
      apply (LoopRun_thrown _ _ _ _ _ _ _ _ Hrun);
        [reflexivity | cbn; lia | exact Hthrow].
    + discriminate Hthrow.
    + destruct (check_frame _ _ _ E) as [Hpr _].
      destruct (LeafRun_frame _ _ _ _ _ Hleaf) as [Hpl _].
      replace (provider w) with (provider (afterBackoff 0 wf)).
      * apply (LoopRun_thrown _ _ _ _ _ _ _ _ Hrun);
          [reflexivity | cbn; lia | exact Hthrow].
      * cbn [afterBackoff provider]. rewrite Hpl. cbn. exact Hpr.
Qed.

(** X5. A call never throws anything but an [Error], and its message is one
    of the four messages the service composes (credential, quota, overload,
    both services unavailable) or the message of an error the provider
    raised during the call, and then one without an overload marker: the
    message for an unknown error after the loop is never produced by the
    loop running out. *)
Theorem thrown_errors_are_composed (chat : Chat) (message : jsstring)
  (useFallback : bool) (w : World) (e : JsThrown) :
  fst (sendMessageToGemini chat message useFallback w) = Throw e ->
  exists m,
    e = ErrorObj m
    /\ (m = invalidApiKeyMessage \/ m = rateLimitMessage
        \/ m = overloadedMessage \/ m = bothUnavailableMessage
        \/ (isOverloaded m = false
            /\ exists i error,
                 provider w i = Rejects error /\ m = asError error)).
Proof.
  intros He.
  destruct (sendMessageToGemini_thrown chat message useFallback w e He)
    as (m & -> & [Hin | Hprov]).
  - exists m. split; [reflexivity |].
    cbn in Hin. intuition auto.
  - exists m. split; [reflexivity |]. auto 10.
Qed.

Lemma thrown_errors_are_composed_witness :
  exists m,
    ErrorObj overloadedMessage = ErrorObj m
    /\ (m = invalidApiKeyMessage \/ m = rateLimitMessage
        \/ m = overloadedMessage \/ m = bothUnavailableMessage
        \/ (isOverloaded m = false
            /\ exists i error,
                 provider overloadedWorld i = Rejects error
                 /\ m = asError error)).
Proof.
  apply (thrown_errors_are_composed primaryChat (js "go") false
           overloadedWorld).
  vm_compute. reflexivity.
Defined.

(** ** How much a call sends and sleeps *)

Lemma totalDelay_app (a b : list Event) :
  totalDelay (a ++ b) == totalDelay a + totalDelay b.
Proof.
  induction a as [| e a IH]; cbn [app totalDelay]; [ring |].
  destruct e; rewrite ?IH; ring.
Qed.

Lemma delayMsOf_le (r : Q) (attempt : nat) :
  0 <= r -> r < 1 ->
  0 <= delayMsOf r attempt
  /\ delayMsOf r attempt <= (13 # 10) * inject_Z (backoffBase attempt).
Proof.
  intros Hr Hr1.
  assert (Hb : 0 <= inject_Z (backoffBase attempt)).
  { change 0 with (inject_Z 0). rewrite <- Zle_Qle.
    pose proof (backoffBase_pos attempt). lia. }
  destruct (jitter_bounds _ _ Hb Hr Hr1) as [H0 H1].
  unfold delayMsOf, jitterOf. split; lra.
Qed.

Lemma backoffBudget_nonneg (retries : nat) :
  forall attempt, 0 <= backoffBudget retries attempt.
Proof.
  induction retries as [| n IH]; intros attempt; cbn [backoffBudget].
  - apply Qle_refl.
  - specialize (IH (S attempt)).
    assert (Hb : 0 <= inject_Z (backoffBase attempt)).
    { change 0 with (inject_Z 0). rewrite <- Zle_Qle.
      pose proof (backoffBase_pos attempt). lia. }
    lra.
Qed.

(** What a run added to the trace, counted. *)
Lemma LoopRun_usage (chat : Chat) (message : jsstring) (k attempt : nat)
  (lastError : option jsstring) (w : World)
  (r : Completion (option GameAIResponse)) (w' : World) :
  LoopRun chat message k attempt lastError w r w' ->
  (attempt + k = S (maxRetries RETRY_CONFIG))%nat ->
  exists evs,
    trace w' = trace w ++ evs
    /\ (count isSend evs <= k)%nat
    /\ (count isDelay evs <= k - 1)%nat
    /\ (count isDelay evs <= count isSend evs)%nat
    /\ count isCreateChat evs = 0%nat
    /\ (unitRandom (randomSource w) ->
        0 <= totalDelay evs
        /\ totalDelay evs <= backoffBudget (k - 1) attempt).
Proof.
  cbn [maxRetries RETRY_CONFIG].
  induction 1 as [attempt le w | k attempt le w text Hp He
                  | k attempt le w c t r Hp Hr | k attempt le w m Hp Hm
                  | k attempt le w m Hp H1 H2 H3
                  | k attempt le w error Hp Hr Ha
                  | k attempt le w error r w' Hp Hr Ha Hrun IH];
    intros Hsum.
  - exists []. rewrite app_nil_r. cbn. repeat split; try lia; apply Qle_refl.
  - exists [EvSendMessage chat message]. cbn. repeat split; try lia.
    + apply Qle_refl.
    + rewrite Nat.sub_0_r. apply backoffBudget_nonneg.
  - exists [EvSendMessage chat message; EvRecordSuccess].
    rewrite afterSuccess_trace. cbn [afterSend trace].
    rewrite <- app_assoc. cbn. repeat split; try lia.
    + apply Qle_refl.
    + rewrite Nat.sub_0_r. apply backoffBudget_nonneg.
  - exists [EvSendMessage chat message]. cbn. repeat split; try lia.
    + apply Qle_refl.
    + rewrite Nat.sub_0_r. apply backoffBudget_nonneg.
  - exists [EvSendMessage chat message]. cbn. repeat split; try lia.
    + apply Qle_refl.
    + rewrite Nat.sub_0_r. apply backoffBudget_nonneg.
  - exists [EvSendMessage chat message; EvRecordFailure].
    rewrite afterFailure_trace. cbn [afterSend trace].
    rewrite <- app_assoc. cbn. repeat split; try lia.
    + apply Qle_refl.
    + rewrite Nat.sub_0_r. apply backoffBudget_nonneg.
  - cbn [maxRetries RETRY_CONFIG] in Ha.
    destruct (IH ltac:(lia)) as (evs & Ht & Hs & Hd & Hds & Hc & Hq).
    exists (EvSendMessage chat message
            :: EvDelay (delayMsOf (randomSource w (randomReads w)) attempt)
            :: evs).
    rewrite Ht. cbn [afterBackoff afterSend trace randomSource randomReads].
    rewrite <- !app_assoc. cbn [app].
    unfold count in *. cbn [filter isSend isDelay isCreateChat List.length].
    repeat split; try lia.
    + destruct (Hq H) as [H0 _].
      destruct (H (randomReads w)) as [Hr0 Hr1].
      destruct (delayMsOf_le _ attempt Hr0 Hr1) as [Hd0 _].
      cbn [totalDelay]. lra.
    + destruct (Hq H) as [_ Hle].
      destruct (H (randomReads w)) as [Hr0 Hr1].
      destruct (delayMsOf_le _ attempt Hr0 Hr1) as [_ Hd1].
      destruct k as [| k']; [lia |].
      cbn [totalDelay Nat.sub backoffBudget] in *.
      rewrite Nat.sub_0_r in *. lra.
Qed.

Lemma check_usage (w w1 : World) (r : Completion bool) :
  checkCircuitBreaker w = (r, w1) ->
  randomSource w1 = randomSource w
  /\ exists evs,
       trace w1 = trace w ++ evs
       /\ count isSend evs = 0%nat /\ count isDelay evs = 0%nat
       /\ count isCreateChat evs = 0%nat /\ totalDelay evs == 0.
Proof.
  intros E.
  destruct (checkCircuitBreaker_cases w)
    as [[Ho E'] | [[Ho [Hc E']] | [Ho [Hc E']]]];
    rewrite E' in E; inversion E; subst; split; try reflexivity.
  - exists []. rewrite app_nil_r. cbn. repeat split; reflexivity.
  - exists []. rewrite app_nil_r. cbn. repeat split; reflexivity.
  - exists [EvBreakerReset]. cbn. repeat split; reflexivity.
Qed.

Lemma LeafRun_usage (chat : Chat) (message : jsstring) (w : World)
  (r : Completion (option GameAIResponse)) (w' : World) :
  LeafRun chat message w r w' ->
  exists evs,
    trace w' = trace w ++ evs
    /\ (count isSend evs <= S (maxRetries RETRY_CONFIG))%nat
    /\ (count isDelay evs <= maxRetries RETRY_CONFIG)%nat
    /\ (count isDelay evs <= count isSend evs)%nat
    /\ count isCreateChat evs = 0%nat
    /\ (unitRandom (randomSource w) ->
        0 <= totalDelay evs
        /\ totalDelay evs <= backoffBudget (maxRetries RETRY_CONFIG) 0).
Proof.
  destruct 1 as [w w1 E | w w1 r w' E Hrun].
  - destruct (check_usage _ _ _ E) as (_ & evs & Ht & Hs & Hd & Hc & Hq).
    exists evs. rewrite Hs, Hd, Hc. repeat split; try lia; try exact Ht.
    + rewrite Hq. apply Qle_refl.
    + rewrite Hq. apply backoffBudget_nonneg.
  - destruct (check_usage _ _ _ E) as (Hrnd & e0 & Ht0 & Hs0 & Hd0 & Hc0 & Hq0).
    destruct (LoopRun_usage _ _ _ _ _ _ _ _ Hrun eq_refl)
      as (evs & Ht & Hs & Hd & Hds & Hc & Hq).
    exists (e0 ++ evs). rewrite Ht, Ht0, <- app_assoc.
    rewrite !count_app, Hs0, Hd0, Hc0, Hc.
    cbn [Nat.sub maxRetries RETRY_CONFIG] in *.
    repeat split; try lia.
    + rewrite Hrnd in Hq. destruct (Hq H) as [H0 _].
      rewrite totalDelay_app, Hq0. lra.
    + rewrite Hrnd in Hq. destruct (Hq H) as [_ H1].
      rewrite totalDelay_app, Hq0. lra.
Qed.

Lemma create_usage (w : World) :
  randomSource (afterCreate w) = randomSource w
  /\ trace (afterCreate w) = trace w ++ [EvCreateChat (fallbackChatOf w)].
Proof. split; reflexivity. Qed.

Lemma TopRun_usage (chat : Chat) (message : jsstring) (w : World)
  (r : Completion (option GameAIResponse)) (w' : World) :
  TopRun chat message w r w' ->
  exists evs,
    trace w' = trace w ++ evs
    /\ (count isSend evs <= 2 * S (maxRetries RETRY_CONFIG))%nat
    /\ (count isDelay evs <= 2 * maxRetries RETRY_CONFIG)%nat
    /\ (count isDelay evs <= count isSend evs)%nat
    /\ (count isCreateChat evs <= 1)%nat
    /\ (unitRandom (randomSource w) ->
        0 <= totalDelay evs
        /\ totalDelay evs
           <= backoffBudget (maxRetries RETRY_CONFIG) 0
              + backoffBudget (maxRetries RETRY_CONFIG) 0).
Proof.
  pose proof (backoffBudget_nonneg (maxRetries RETRY_CONFIG) 0) as Hbud.
  destruct 1 as [w w1 r w' E Hleaf | w w1 r w' E Hne Hrun
                 | w w1 error v w' E Hp He Hleaf
                 | w w1 error e wf r w' E Hp He Hleaf Hrun].
  - destruct (check_usage _ _ _ E) as (Hrnd & e0 & Ht0 & Hs0 & Hd0 & Hc0 & Hq0).
    destruct (LeafRun_usage _ _ _ _ _ Hleaf)
      as (evs & Ht & Hs & Hd & Hds & Hc & Hq).
    destruct (create_usage w1) as [Hrc Htc].
    exists (e0 ++ EvCreateChat (fallbackChatOf w1) :: evs).
    rewrite Ht, Htc, Ht0, <- !app_assoc. cbn [app].
    rewrite !count_app, Hs0, Hd0, Hc0.
    unfold count in *. cbn [filter isSend isDelay isCreateChat List.length].
    cbn [maxRetries RETRY_CONFIG] in *.
    rewrite Hrc, Hrnd in Hq.
    repeat split; try lia.
    + destruct (Hq H) as [H0 _].
      rewrite totalDelay_app, Hq0. cbn [totalDelay]. lra.
    + destruct (Hq H) as [_ H1].
      rewrite totalDelay_app, Hq0. cbn [totalDelay]. lra.
  - destruct (check_usage _ _ _ E) as (Hrnd & e0 & Ht0 & Hs0 & Hd0 & Hc0 & Hq0).
    destruct (LoopRun_usage _ _ _ _ _ _ _ _ Hrun eq_refl)
      as (evs & Ht & Hs & Hd & Hds & Hc & Hq).
    exists (e0 ++ evs). rewrite Ht, Ht0, <- app_assoc.
    rewrite !count_app, Hs0, Hd0, Hc0, Hc.
    cbn [Nat.sub maxRetries RETRY_CONFIG] in *.
    rewrite Hrnd in Hq.
    repeat split; try lia.
    + destruct (Hq H) as [H0 _]. rewrite totalDelay_app, Hq0. lra.
    + destruct (Hq H) as [_ H1]. rewrite totalDelay_app, Hq0. lra.
  - destruct (check_usage _ _ _ E) as (Hrnd & e0 & Ht0 & Hs0 & Hd0 & Hc0 & Hq0).
    destruct (LeafRun_usage _ _ _ _ _ Hleaf)
      as (evs & Ht & Hs & Hd & Hds & Hc & Hq).
    exists (e0 ++ EvSendMessage chat message
               :: EvCreateChat (fallbackChatOf (afterSend chat message w1))
               :: evs).
    rewrite Ht. cbn [afterCreate createChatSession snd afterSend trace].
    rewrite Ht0, <- !app_assoc. cbn [app].
    rewrite !count_app, Hs0, Hd0, Hc0.
    unfold count in *. cbn [filter isSend isDelay isCreateChat List.length].
    cbn [maxRetries RETRY_CONFIG] in *.
    cbn [afterCreate createChatSession snd afterSend randomSource] in Hq.
    rewrite Hrnd in Hq.
    repeat split; try lia.
    + destruct (Hq H) as [H0 _].
      rewrite totalDelay_app, Hq0. cbn [totalDelay]. lra.
    + destruct (Hq H) as [_ H1].
      rewrite totalDelay_app, Hq0. cbn [totalDelay]. lra.
  - destruct (check_usage _ _ _ E) as (Hrnd & e0 & Ht0 & Hs0 & Hd0 & Hc0 & Hq0).
    destruct (LeafRun_usage _ _ _ _ _ Hleaf)
      as (evs & Ht & Hs & Hd & Hds & Hc & Hq).
    destruct (LeafRun_frame _ _ _ _ _ Hleaf) as [_ Hrl].
    destruct (LoopRun_usage _ _ _ _ _ _ _ _ Hrun eq_refl)
      as (evs2 & Ht2 & Hs2 & Hd2 & Hds2 & Hc2 & Hq2).
    exists (e0 ++ EvSendMessage chat message
               :: EvCreateChat (fallbackChatOf (afterSend chat message w1))
               :: evs
               ++ EvDelay (delayMsOf (randomSource wf (randomReads wf)) 0)
               :: evs2).
    rewrite Ht2. cbn [afterBackoff trace]. rewrite Ht.
    cbn [afterCreate createChatSession snd afterSend trace].
    rewrite Ht0, <- !app_assoc. cbn [app].
    rewrite !count_app, Hs0, Hd0, Hc0.
    unfold count in *.
    cbn [filter isSend isDelay isCreateChat List.length].
    rewrite !filter_app, !length_app.
    cbn [filter isSend isDelay isCreateChat List.length].
    cbn [Nat.sub maxRetries RETRY_CONFIG] in *.
    cbn [afterCreate createChatSession snd afterSend afterBackoff
         randomSource] in Hq, Hq2, Hrl.
    rewrite Hrnd in Hq, Hrl. rewrite Hrl in Hq2.
    repeat split; try lia.
    + destruct (Hq H) as [H0 _]. destruct (Hq2 H) as [G0 _].
      destruct (H (randomReads wf)) as [Hr0 Hr1].
      destruct (delayMsOf_le _ 0 Hr0 Hr1) as [D0 _].
      rewrite Hrl.
      rewrite totalDelay_app, Hq0. cbn [totalDelay].
      rewrite totalDelay_app. cbn [totalDelay]. lra.
    + destruct (Hq H) as [_ H1]. destruct (Hq2 H) as [_ G1].
      destruct (H (randomReads wf)) as [Hr0 Hr1].
      destruct (delayMsOf_le _ 0 Hr0 Hr1) as [_ D1].
      rewrite Hrl.
      rewrite totalDelay_app, Hq0. cbn [totalDelay].
      rewrite totalDelay_app. cbn [totalDelay].
      cbn [backoffBudget] in *. lra.
Qed.

Lemma sendMessageToGemini_usage (chat : Chat) (message : jsstring)
  (useFallback : bool) (w : World) :
  exists evs,
    trace (snd (sendMessageToGemini chat message useFallback w))
    = trace w ++ evs
    /\ (count isSend evs <= if useFallback then 4 else 8)%nat
    /\ (count isDelay evs <= if useFallback then 3 else 6)%nat
    /\ (count isDelay evs <= count isSend evs)%nat
    /\ (count isCreateChat evs <= if useFallback then 0 else 1)%nat
    /\ (unitRandom (randomSource w) ->
        0 <= totalDelay evs
        /\ totalDelay evs <= if useFallback then 9100 else 18200).
Proof.
  assert (B : backoffBudget (maxRetries RETRY_CONFIG) 0 == 9100)
    by reflexivity.
  destruct useFallback.
  - destruct (LeafRun_usage _ _ _ _ _
                (sendMessageToGemini_leaf_run chat message w))
      as (evs & Ht & Hs & Hd & Hds & Hc & Hq).
    exists evs. cbn [maxRetries RETRY_CONFIG] in *.
    repeat split; try lia; try exact Ht.
    + apply Hq; assumption.
    + destruct (Hq H) as [_ H1]. cbn [maxRetries RETRY_CONFIG] in B. lra.
  - destruct (TopRun_usage _ _ _ _ _
                (sendMessageToGemini_top_run chat message w))
      as (evs & Ht & Hs & Hd & Hds & Hc & Hq).
    exists evs. cbn [maxRetries RETRY_CONFIG Nat.mul Nat.add] in *.
    repeat split; try lia; try exact Ht.
    + apply Hq; assumption.
    + destruct (Hq H) as [_ H1]. cbn [maxRetries RETRY_CONFIG] in B. lra.
Qed.

(** X6. One call only adds to the trace, and what it adds is bounded: a
    primary call sends at most 8 messages, sleeps at most 6 times and
    creates at most one session; a fallback invocation sends at most 4
    messages, sleeps at most 3 times and creates no session; and no call
    sleeps more often than it sends. *)
Theorem call_sends_and_sleeps_bounded (chat : Chat) (message : jsstring)
  (useFallback : bool) (w : World) :
  let w' := snd (sendMessageToGemini chat message useFallback w) in
  let evs := callEvents w w' in
  trace w' = trace w ++ evs
  /\ (count isSend evs <= if useFallback then 4 else 8)%nat
  /\ (count isDelay evs <= if useFallback then 3 else 6)%nat
  /\ (count isDelay evs <= count isSend evs)%nat
  /\ (count isCreateChat evs <= if useFallback then 0 else 1)%nat.
Proof.
  destruct (sendMessageToGemini_usage chat message useFallback w)
    as (evs & Ht & Hs & Hd & Hds & Hc & _).
  cbv zeta. rewrite (callEvents_app _ _ _ Ht). auto.
Qed.

(** The bounds of a primary call are reached when the provider is
    overloaded at every attempt. *)
Example overloaded_call_uses_every_attempt :
  let evs := callEvents overloadedWorld
               (snd (sendMessageToGemini primaryChat (js "go") false
                       overloadedWorld)) in
  count isSend evs = 8%nat /\ count isDelay evs = 6%nat
  /\ count isCreateChat evs = 1%nat.
Proof. vm_compute. repeat split; reflexivity. Qed.

(** X7. With random numbers in the interval from 0 to 1, the delays of one
    call add up to at most 18200 ms for a primary call and to at most
    9100 ms for a fallback invocation. *)
Theorem total_backoff_bounded (chat : Chat) (message : jsstring)
  (useFallback : bool) (w : World) :
  unitRandom (randomSource w) ->
  let evs :=
    callEvents w (snd (sendMessageToGemini chat message useFallback w)) in
  0 <= totalDelay evs
  /\ totalDelay evs <= if useFallback then 9100 else 18200.
Proof.
  intros Hrnd.
  destruct (sendMessageToGemini_usage chat message useFallback w)
    as (evs & Ht & _ & _ & _ & _ & Hq).
  cbv zeta. rewrite (callEvents_app _ _ _ Ht). apply Hq. exact Hrnd.
Qed.

Lemma total_backoff_bounded_witness :
  0 <= totalDelay
         (callEvents overloadedWorld
            (snd (sendMessageToGemini primaryChat (js "go") false
                    overloadedWorld)))
  /\ totalDelay
       (callEvents overloadedWorld
          (snd (sendMessageToGemini primaryChat (js "go") false
                  overloadedWorld)))
     <= 18200.
Proof.
  apply (total_backoff_bounded primaryChat (js "go") false overloadedWorld).
  intros i. cbn. split; [apply Qle_refl | reflexivity].
Defined.

(** X8. The loop never runs out of iterations: the attempt that reaches
    [maxRetries] leaves the function by a return or a throw, so the [throw]
    placed after the loop is dead code.  Stated on the loop: with
    [attempt + k = maxRetries], giving it more iterations than the
    [k + 1] it has left changes nothing. *)
Theorem loop_exit_is_never_reached
  (self : Chat -> jsstring -> bool -> M (option GameAIResponse))
  (chat : Chat) (message : jsstring) (useFallback : bool) (k : nat) :
  forall (attempt : nat) (lastError : option jsstring) (w : World) (j : nat),
    (attempt + k = maxRetries RETRY_CONFIG)%nat ->
    retryLoop self (S k + j) attempt lastError chat message useFallback w
    = retryLoop self (S k) attempt lastError chat message useFallback w.
Proof.
  induction k as [| k IH]; intros attempt lastError w j Hsum;
    cbn [retryLoop Nat.add]; unfold tryCatch;
    destruct (attemptTry chat message w) as [[r | e] w1]; try reflexivity;
    rewrite !catchBlock_unfold;
    destruct (classify self e message useFallback attempt w1)
      as [[[r |] | e'] w2]; try reflexivity;
    destruct (Nat.eqb attempt (maxRetries RETRY_CONFIG)) eqn:Hlast;
    try reflexivity.
  - apply Nat.eqb_neq in Hlast. lia.
  - exact (IH (S attempt) (Some (asError e)) (afterBackoff attempt w2) j
             ltac:(lia)).
Qed.

Lemma loop_exit_is_never_reached_witness :
  retryLoop sendMessageToGemini_leaf (4 + 5) 0 None primaryChat (js "go") false
    overloadedWorld
  = retryLoop sendMessageToGemini_leaf 4 0 None primaryChat (js "go") false
      overloadedWorld.
Proof.
  apply (loop_exit_is_never_reached sendMessageToGemini_leaf primaryChat
           (js "go") false 3 0 None overloadedWorld 5).
  reflexivity.
Defined.

(** ** Trimming and the fence *)

Lemma trimStart_space (ws s : jsstring) :
  forallb isWhiteSpace ws = true -> trimStart (ws ++ s) = trimStart s.
Proof.
  induction ws as [| c ws IH]; cbn [forallb app trimStart]; [reflexivity |].
  intros H. apply andb_prop in H. destruct H as [Hc Hws].
  rewrite Hc. apply IH. exact Hws.
Qed.

Lemma trimStart_head (s : jsstring) (c : N) (t : jsstring) :
  trimStart s = c :: t -> isWhiteSpace c = false.
Proof.
  induction s as [| a s IH]; cbn [trimStart]; [discriminate |].
  destruct (isWhiteSpace a) eqn:Ha; [exact IH |].
  intros [= <- _]. exact Ha.
Qed.

Lemma trimStart_suffix (s : jsstring) :
  exists p, s = p ++ trimStart s /\ forallb isWhiteSpace p = true.
Proof.
  induction s as [| a s [p [IH Hp]]]; cbn [trimStart].
  - exists []. split; reflexivity.
  - destruct (isWhiteSpace a) eqn:Ha.
    + exists (a :: p). cbn [app forallb]. rewrite Ha, Hp.
      split; [f_equal; exact IH | reflexivity].
    + exists []. split; reflexivity.
Qed.

Lemma trimStart_keeps (x : jsstring) (d : N) (rest : jsstring) :
  isWhiteSpace d = false ->
  exists p, trimStart (x ++ d :: rest) = p ++ d :: rest.
Proof.
  intros Hd. induction x as [| a x [p IH]]; cbn [app trimStart].
  - rewrite Hd. exists []. reflexivity.
  - destruct (isWhiteSpace a).
    + exists p. exact IH.
    + exists (a :: x). reflexivity.
Qed.

Lemma forallb_rev (f : N -> bool) (l : jsstring) :
  forallb f l = true -> forallb f (rev l) = true.
Proof.
  rewrite !forallb_forall. intros H x Hx. apply H. apply in_rev. exact Hx.
Qed.

Lemma trimEnd_space (s ws : jsstring) :
  forallb isWhiteSpace ws = true -> trimEnd (s ++ ws) = trimEnd s.
Proof.
  intros H. unfold trimEnd. rewrite rev_app_distr.
  rewrite trimStart_space by (apply forallb_rev; exact H). reflexivity.
Qed.

Lemma trimEnd_last (s : jsstring) (d : N) :
  isWhiteSpace d = false -> trimEnd (s ++ [d]) = s ++ [d].
Proof.
  intros Hd. unfold trimEnd. rewrite rev_app_distr. cbn [rev app trimStart].
  rewrite Hd. cbn [rev]. rewrite rev_involutive. reflexivity.
Qed.

Lemma trimEnd_prefix (s : jsstring) :
  exists q, s = trimEnd s ++ q /\ forallb isWhiteSpace q = true.
Proof.
  unfold trimEnd. destruct (trimStart_suffix (rev s)) as [p [Hp Hws]].
  exists (rev p). split; [| apply forallb_rev; exact Hws].
  rewrite <- rev_app_distr, <- Hp, rev_involutive. reflexivity.
Qed.

(** A text that is its own trimming and is not empty starts and ends with a
    unit that is no white space. *)
Lemma trimmed_ends (core : jsstring) :
  core <> [] -> trim core = core ->
  (exists c t, core = c :: t /\ isWhiteSpace c = false)
  /\ (exists p d, core = p ++ [d] /\ isWhiteSpace d = false).
Proof.
  intros Hne Ht. unfold trim in Ht. split.
  - destruct core as [| c t]; [contradiction |]. exists c, t.
    split; [reflexivity |].
    destruct (trimEnd_prefix (trimStart (c :: t))) as [q [Hq _]].
    rewrite Ht in Hq.
    destruct (trimStart (c :: t)) as [| c' t'] eqn:Hs.
    + destruct q; discriminate Hq.
    + injection Hq as <- _. apply (trimStart_head _ _ _ Hs).
  - assert (Hr : rev core = trimStart (rev (trimStart core))).
    { rewrite <- Ht at 1. unfold trimEnd. apply rev_involutive. }
    destruct (rev core) as [| d r] eqn:Hrev.
    + apply (f_equal (@rev N)) in Hrev. rewrite rev_involutive in Hrev.
      contradiction.
    + exists (rev r), d. split.
      * apply (f_equal (@rev N)) in Hrev. rewrite rev_involutive in Hrev.
        exact Hrev.
      * symmetry in Hr. apply (trimStart_head _ _ _ Hr).
Qed.

Lemma trim_space (w0 s w3 : jsstring) :
  forallb isWhiteSpace w0 = true -> forallb isWhiteSpace w3 = true ->
  trim (w0 ++ s ++ w3) = trim s.
Proof.
  intros H0 H3. unfold trim. rewrite trimStart_space by exact H0.
  destruct (trimStart_suffix s) as [p [Hp Hws]].
  destruct (trimStart s) as [| c t] eqn:Hs.
  - rewrite app_nil_r in Hp. subst p.
    assert (Hall : forallb isWhiteSpace (s ++ w3) = true)
      by (rewrite forallb_app, Hws, H3; reflexivity).
    rewrite <- (app_nil_r (s ++ w3)), trimStart_space by exact Hall.
    reflexivity.
  - rewrite Hp at 1. rewrite <- app_assoc.
    rewrite trimStart_space by exact Hws.
    pose proof (trimStart_head _ _ _ Hs) as Hc.
    cbn [app trimStart]. rewrite Hc.
    change (c :: t ++ w3) with ((c :: t) ++ w3).
    apply trimEnd_space. exact H3.
Qed.

Lemma str_eqb_length (a b : jsstring) :
  str_eqb a b = true -> List.length a = List.length b.
Proof.
  revert b. induction a as [| x a IH]; intros [| y b]; cbn [str_eqb];
    try discriminate; [reflexivity |].
  intros H. apply andb_prop in H. destruct H as [_ H].
  cbn [List.length]. f_equal. apply IH. exact H.
Qed.

Lemma closes_space (ws : jsstring) :
  forallb isWhiteSpace ws = true ->
  Fence.closes (ws ++ Fence.backticks) = true.
Proof.
  intros H. unfold Fence.closes. rewrite trimStart_space by exact H.
  reflexivity.
Qed.

Lemma closes_inside (x : jsstring) (d : N) (ws : jsstring) :
  isWhiteSpace d = false ->
  Fence.closes (x ++ d :: ws ++ Fence.backticks) = false.
Proof.
  intros Hd. unfold Fence.closes.
  destruct (trimStart_keeps x d (ws ++ Fence.backticks) Hd) as [p Hp].
  rewrite Hp.
  destruct (str_eqb (p ++ d :: ws ++ Fence.backticks) Fence.backticks) eqn:E;
    [| reflexivity].
  apply str_eqb_length in E. unfold Fence.backticks in E.
  rewrite length_app in E. cbn [List.length] in E.
  rewrite length_app in E. cbn [List.length] in E. lia.
Qed.

Lemma lazyCapture_core (pre : jsstring) (d : N) (ws : jsstring) :
  isWhiteSpace d = false -> forallb isWhiteSpace ws = true ->
  Fence.lazyCapture (pre ++ d :: ws ++ Fence.backticks) = Some (pre ++ [d]).
Proof.
  intros Hd Hws.
  assert (Hrest : Fence.lazyCapture (ws ++ Fence.backticks) = Some []).
  { destruct (ws ++ Fence.backticks) eqn:E; cbn [Fence.lazyCapture];
      rewrite <- E, (closes_space ws Hws); reflexivity. }
  induction pre as [| a pre IH]; cbn [app Fence.lazyCapture].
  - pose proof (closes_inside [] d ws Hd) as Hc. cbn [app] in Hc.
    rewrite Hc, Hrest. reflexivity.
  - pose proof (closes_inside (a :: pre) d ws Hd) as Hc. cbn [app] in Hc.
    rewrite Hc, IH. reflexivity.
Qed.

Lemma afterSpace_no_newline (c : N) (s : jsstring) :
  isWhiteSpace c = false ->
  Fence.afterSpace (c :: s) = Fence.lazyCapture (c :: s).
Proof.
  intros Hc. unfold Fence.afterSpace.
  destruct c as [| p]; [reflexivity |].
  destruct p as [p | p |]; try reflexivity.
  destruct p as [p | p |]; try reflexivity.
  destruct p as [p | p |]; try reflexivity.
  destruct p as [p | p |]; try reflexivity.
  discriminate Hc.
Qed.

Lemma leadingSpace_space (ws : jsstring) (c : N) (s : jsstring) :
  forallb isWhiteSpace ws = true -> isWhiteSpace c = false ->
  Fence.leadingSpace (ws ++ c :: s) = List.length ws.
Proof.
  intros Hws Hc. induction ws as [| a ws IH];
    cbn [app Fence.leadingSpace List.length forallb] in *.
  - rewrite Hc. reflexivity.
  - apply andb_prop in Hws. destruct Hws as [Ha Hws].
    rewrite Ha. f_equal. apply IH. exact Hws.
Qed.

Lemma skipn_length_app (a b : jsstring) : skipn (List.length a) (a ++ b) = b.
Proof. induction a as [| x a IH]; cbn; [reflexivity | exact IH]. Qed.

Lemma afterLanguage_core (ws1 ws2 : jsstring) (c : N) (t p : jsstring) (d : N) :
  forallb isWhiteSpace ws1 = true -> forallb isWhiteSpace ws2 = true ->
  isWhiteSpace c = false -> isWhiteSpace d = false ->
  c :: t = p ++ [d] ->
  Fence.afterLanguage (ws1 ++ (c :: t) ++ ws2 ++ Fence.backticks)
  = Some (c :: t).
Proof.
  intros H1 H2 Hc Hd Hcore. unfold Fence.afterLanguage.
  cbn [app]. rewrite (leadingSpace_space ws1 c _ H1 Hc).
  assert (Hcap : Fence.afterSpace
                   (skipn (List.length ws1)
                      (ws1 ++ c :: t ++ ws2 ++ Fence.backticks))
                 = Some (c :: t)).
  { rewrite skipn_length_app. rewrite (afterSpace_no_newline _ _ Hc).
    change (c :: t ++ ws2 ++ Fence.backticks)
      with ((c :: t) ++ ws2 ++ Fence.backticks).
    rewrite Hcore, <- app_assoc. cbn [app].
    apply lazyCapture_core; assumption. }
  destruct (List.length ws1); cbn [Fence.spaceThenCapture]; rewrite Hcap;
    reflexivity.
Qed.

Lemma trim_fenced (body : jsstring) :
  trim (Fence.backticks ++ body ++ Fence.backticks)
  = Fence.backticks ++ body ++ Fence.backticks.
Proof.
  unfold trim. cbn [Fence.backticks app trimStart].
  replace (isWhiteSpace 96) with false by reflexivity.
  replace (body ++ Fence.backticks) with ((body ++ [96%N; 96%N]) ++ [96%N])
    by (rewrite <- app_assoc; reflexivity).
  apply (trimEnd_last (96%N :: 96%N :: 96%N :: body ++ [96%N; 96%N])).
  reflexivity.
Qed.

Lemma stripPrefix_app (p s : jsstring) : stripPrefix p (p ++ s) = Some s.
Proof.
  induction p as [| x p IH]; cbn [app stripPrefix]; [reflexivity |].
  rewrite N.eqb_refl. exact IH.
Qed.

Lemma unfence_tagged (ws1 ws2 core : jsstring) :
  forallb isWhiteSpace ws1 = true -> forallb isWhiteSpace ws2 = true ->
  core <> [] -> trim core = core ->
  unfence (Fence.backticks ++ js "json" ++ ws1 ++ core ++ ws2
             ++ Fence.backticks) = core.
Proof.
  intros H1 H2 Hne Ht.
  destruct (trimmed_ends core Hne Ht) as [(c & t & Hc & Hcw) (p & d & Hd & Hdw)].
  unfold unfence.
  replace (Fence.backticks ++ js "json" ++ ws1 ++ core ++ ws2
             ++ Fence.backticks)
    with (Fence.backticks ++ (js "json" ++ ws1 ++ core ++ ws2)
            ++ Fence.backticks)
    by (rewrite <- !app_assoc; reflexivity).
  rewrite trim_fenced. unfold Fence.fenceMatch. rewrite stripPrefix_app.
  rewrite <- !app_assoc. rewrite stripPrefix_app.
  subst core.
  rewrite (afterLanguage_core ws1 ws2 c t p d H1 H2 Hcw Hdw Hd).
  cbn [Fence.orElse]. exact Ht.
Qed.

Lemma unfence_untagged (ws1 ws2 core : jsstring) :
  forallb isWhiteSpace ws1 = true -> forallb isWhiteSpace ws2 = true ->
  core <> [] -> trim core = core -> hd 0%N core <> 106%N ->
  unfence (Fence.backticks ++ ws1 ++ core ++ ws2 ++ Fence.backticks) = core.
Proof.
  intros H1 H2 Hne Ht Hj.
  destruct (trimmed_ends core Hne Ht) as [(c & t & Hc & Hcw) (p & d & Hd & Hdw)].
  unfold unfence.
  replace (Fence.backticks ++ ws1 ++ core ++ ws2 ++ Fence.backticks)
    with (Fence.backticks ++ (ws1 ++ core ++ ws2) ++ Fence.backticks)
    by (rewrite <- !app_assoc; reflexivity).
  rewrite trim_fenced. unfold Fence.fenceMatch. rewrite stripPrefix_app.
  rewrite <- !app_assoc.
  assert (Hno : stripPrefix (js "json") (ws1 ++ core ++ ws2 ++ Fence.backticks)
                = None).
  { change (js "json") with [106%N; 115%N; 111%N; 110%N].
    subst core. destruct ws1 as [| a ws1]; cbn [app stripPrefix].
    - cbn [hd] in Hj. destruct (N.eqb_spec 106 c) as [E | _];
        [symmetry in E; contradiction | reflexivity].
    - cbn [forallb] in H1. apply andb_prop in H1. destruct H1 as [Ha _].
      destruct (N.eqb_spec 106 a) as [E | _]; [| reflexivity].
      subst a. discriminate Ha. }
  rewrite Hno. cbn [Fence.orElse].
  subst core.
  rewrite (afterLanguage_core ws1 ws2 c t p d H1 H2 Hcw Hdw Hd).
  exact Ht.
Qed.

(** X9. A reply wrapped in a Markdown fence is unwrapped before decoding:
    between three backticks, with or without the tag [json], and with any
    white space around it, the text handed to [JSON.parse] is the wrapped
    text itself, provided that text is not empty and has no white space at
    its ends (and, without the tag, does not start with the letter j). *)
Theorem fenced_reply_is_unwrapped (ws1 ws2 core : jsstring) :
  forallb isWhiteSpace ws1 = true -> forallb isWhiteSpace ws2 = true ->
  core <> [] -> trim core = core ->
  unfence (Fence.backticks ++ js "json" ++ ws1 ++ core ++ ws2
             ++ Fence.backticks) = core
  /\ (hd 0%N core <> 106%N ->
      unfence (Fence.backticks ++ ws1 ++ core ++ ws2 ++ Fence.backticks)
      = core).
Proof.
  intros H1 H2 Hne Ht. split.
  - apply unfence_tagged; assumption.
  - intros Hj. apply unfence_untagged; assumption.
Qed.

Lemma fenced_reply_is_unwrapped_witness :
  unfence (Fence.backticks ++ js "json" ++ [10%N; 32%N] ++ jq "{'a': 1}"
             ++ [10%N] ++ Fence.backticks) = jq "{'a': 1}"
  /\ unfence (Fence.backticks ++ [10%N; 32%N] ++ jq "{'a': 1}" ++ [10%N]
                ++ Fence.backticks) = jq "{'a': 1}".
Proof.
  destruct (fenced_reply_is_unwrapped [10%N; 32%N] [10%N] (jq "{'a': 1}"))
    as [Htag Hplain].
  - reflexivity.
  - reflexivity.
  - discriminate.
  - reflexivity.
  - split; [exact Htag | apply Hplain; discriminate].
Defined.

Lemma unfence_space (w0 s w3 : jsstring) :
  forallb isWhiteSpace w0 = true -> forallb isWhiteSpace w3 = true ->
  unfence (w0 ++ s ++ w3) = unfence s.
Proof.
  intros H0 H3. unfold unfence. rewrite trim_space by assumption.
  reflexivity.
Qed.

Lemma unfence_plain (s : jsstring) :
  stripPrefix Fence.backticks (trim s) = None -> unfence s = trim s.
Proof.
  intros H. unfold unfence, Fence.fenceMatch. rewrite H. reflexivity.
Qed.

(** X10. White space around a reply never matters: the parser answers the
    same with and without it; and a reply that does not start with three
    backticks once trimmed is decoded as its trimming. *)
Theorem surrounding_space_is_ignored (w0 s w3 : jsstring) :
  forallb isWhiteSpace w0 = true -> forallb isWhiteSpace w3 = true ->
  unfence (w0 ++ s ++ w3) = unfence s
  /\ parseGeminiResponse (w0 ++ s ++ w3) = parseGeminiResponse s
  /\ (stripPrefix Fence.backticks (trim s) = None ->
      unfence (w0 ++ s ++ w3) = trim s).
Proof.
  intros H0 H3. split; [apply unfence_space; assumption |]. split.
  - rewrite !parseGeminiResponse_by_cases.
    rewrite unfence_space by assumption. reflexivity.
  - intros Hp. rewrite unfence_space by assumption.
    apply unfence_plain. exact Hp.
Qed.

Lemma surrounding_space_is_ignored_witness :
  unfence ([32%N; 10%N] ++ jq "{'a': 1}" ++ [13%N; 10%N]) = unfence (jq "{'a': 1}")
  /\ parseGeminiResponse ([32%N; 10%N] ++ jq "{'a': 1}" ++ [13%N; 10%N])
     = parseGeminiResponse (jq "{'a': 1}")
  /\ unfence ([32%N; 10%N] ++ jq "{'a': 1}" ++ [13%N; 10%N])
     = trim (jq "{'a': 1}").
Proof.
  destruct (surrounding_space_is_ignored [32%N; 10%N] (jq "{'a': 1}")
              [13%N; 10%N]) as (Hu & Hp & Ht).
  - reflexivity.
  - reflexivity.
  - split; [exact Hu |]. split; [exact Hp | apply Ht; reflexivity].
Defined.

(** ** Decoding the expected reply *)

Module ReplyDecoding.
Import JsonParse.

Lemma parseChars_plain (t rest : jsstring) :
  forallb plainUnit t = true -> parseChars (t ++ 34%N :: rest) = Ok t rest.
Proof.
  induction t as [| c t IH]; cbn [app forallb parseChars]; intros H.
  - reflexivity.
  - apply andb_prop in H. destruct H as [Hc Ht]. unfold plainUnit in Hc.
    apply andb_prop in Hc. destruct Hc as [Hc H32].
    apply andb_prop in Hc. destruct Hc as [H34 H92].
    apply negb_true_iff in H34, H92, H32. rewrite H34, H92, H32.
    rewrite (IH Ht). reflexivity.
Qed.

Lemma skipWs_sep (sep : jsstring) (c : N) (r : jsstring) :
  forallb isJsonWs sep = true -> isJsonWs c = false ->
  skipWs (sep ++ c :: r) = c :: r.
Proof.
  intros Hs Hc. induction sep as [| a sep IH]; cbn [app skipWs forallb] in *.
  - rewrite Hc. reflexivity.
  - apply andb_prop in Hs. destruct Hs as [Ha Hs]. rewrite Ha. apply IH.
    exact Hs.
Qed.

(** A string literal is a value at any depth that is left. *)
Lemma parseValue_string (f : nat) (t rest : jsstring) :
  forallb plainUnit t = true ->
  parseValue (S f) (34%N :: t ++ 34%N :: rest) = Ok (JString t) rest.
Proof.
  intros Ht. cbn [parseValue expectUnit].
  change (34 =? 123)%N with false. change (34 =? 91)%N with false.
  change (34 =? 34)%N with true. cbv iota.
  rewrite (parseChars_plain t rest Ht). reflexivity.
Qed.

Lemma parseMember_string (f : nat) (acc : list (jsstring * Json))
  (key sep t : jsstring) (c : N) (rest : jsstring) :
  forallb plainUnit key = true -> forallb isJsonWs sep = true ->
  forallb plainUnit t = true -> isJsonWs c = false ->
  parseMembers (S (S f)) acc
    (34%N :: key ++ 34%N :: 58%N :: sep ++ 34%N :: t ++ 34%N :: c :: rest)
  = match expectUnit 44 (c :: rest) with
    | Some r' => parseMembers (S f) ((key, JString t) :: acc) (skipWs r')
    | None =>
        match expectUnit 125 (c :: rest) with
        | Some r' => Ok (JObject (rev ((key, JString t) :: acc))) r'
        | None => SyntaxError
        end
    end.
Proof.
  intros Hk Hs Ht Hc.
  cbn [parseMembers]. cbn [expectUnit]. change (34 =? 34)%N with true.
  cbv iota. rewrite (parseChars_plain key _ Hk).
  cbn [skipWs]. change (isJsonWs 58) with false. cbv iota.
  cbn [expectUnit]. change (58 =? 58)%N with true. cbv iota.
  rewrite (skipWs_sep sep 34 _ Hs eq_refl).
  rewrite (parseValue_string f t (c :: rest) Ht).
  cbn [skipWs]. rewrite Hc. reflexivity.
Qed.

End ReplyDecoding.

Lemma replyText_cons (sep a b : jsstring) :
  replyText sep a b
  = 123%N :: 34%N :: sceneDescriptionKey ++ 34%N :: 58%N :: sep ++ 34%N :: a
      ++ 34%N :: 44%N :: sep ++ 34%N :: imagePromptKey ++ 34%N :: 58%N
      :: sep ++ 34%N :: b ++ 34%N :: [125%N].
Proof.
  unfold replyText.
  change (jq "{'sceneDescription':")
    with ([123%N; 34%N] ++ sceneDescriptionKey ++ [34%N; 58%N]).
  change (jq "',") with [34%N; 44%N].
  change (jq "'imagePrompt':") with ([34%N] ++ imagePromptKey ++ [34%N; 58%N]).
  change (jq "'}") with [34%N; 125%N].
  rewrite <- !app_assoc. reflexivity.
Qed.

Lemma JSON_parse_reply (sep a b : jsstring) :
  forallb JsonParse.isJsonWs sep = true ->
  forallb plainUnit a = true -> forallb plainUnit b = true ->
  JSON_parse (replyText sep a b)
  = Return (JObject [(sceneDescriptionKey, JString a);
                     (imagePromptKey, JString b)]).
Proof.
  intros Hs Ha Hb. unfold JSON_parse. rewrite replyText_cons.
  cbn [JsonParse.skipWs]. change (JsonParse.isJsonWs 123) with false.
  cbv iota. cbn [List.length Nat.mul Nat.add]. rewrite <- !plus_n_Sm.
  cbn [JsonParse.parseValue JsonParse.expectUnit].
  change (123 =? 123)%N with true. cbv iota.
  cbn [JsonParse.skipWs]. change (JsonParse.isJsonWs 34) with false.
  cbv iota. change (34 =? 125)%N with false. cbv iota.
  rewrite (ReplyDecoding.parseMember_string _ [] sceneDescriptionKey sep a 44
             _ eq_refl Hs Ha eq_refl).
  cbn [JsonParse.expectUnit]. change (44 =? 44)%N with true. cbv iota.
  rewrite (ReplyDecoding.skipWs_sep sep 34 _ Hs eq_refl).
  rewrite (ReplyDecoding.parseMember_string _ _ imagePromptKey sep b 125
             [] eq_refl Hs Hb eq_refl).
  cbn [JsonParse.expectUnit]. change (125 =? 44)%N with false.
  change (125 =? 125)%N with true. cbv iota. reflexivity.
Qed.

Lemma replyText_ends (sep a b : jsstring) :
  exists body, replyText sep a b = 123%N :: body ++ [125%N].
Proof.
  exists (34%N :: sceneDescriptionKey ++ 34%N :: 58%N :: sep ++ 34%N :: a
            ++ 34%N :: 44%N :: sep ++ 34%N :: imagePromptKey ++ 34%N :: 58%N
            :: sep ++ 34%N :: b ++ [34%N]).
  rewrite replyText_cons.
  repeat (rewrite <- ?app_assoc; cbn [app]). reflexivity.
Qed.

Lemma replyText_trimmed (sep a b : jsstring) :
  replyText sep a b <> [] /\ trim (replyText sep a b) = replyText sep a b
  /\ stripPrefix Fence.backticks (trim (replyText sep a b)) = None.
Proof.
  destruct (replyText_ends sep a b) as [body ->].
  assert (Ht : trim (123%N :: body ++ [125%N]) = 123%N :: body ++ [125%N]).
  { unfold trim. cbn [trimStart]. change (isWhiteSpace 123) with false.
    cbv iota. apply (trimEnd_last (123%N :: body)). reflexivity. }
  split; [discriminate |]. split; [exact Ht |]. rewrite Ht. reflexivity.
Qed.

Lemma parseGeminiResponse_reply (sep a b text : jsstring) :
  forallb JsonParse.isJsonWs sep = true ->
  forallb plainUnit a = true -> forallb plainUnit b = true ->
  unfence text = replyText sep a b ->
  parseGeminiResponse text
  = match a, b with
    | _ :: _, _ :: _ =>
        Return (Some (JObject [(sceneDescriptionKey, JString a);
                               (imagePromptKey, JString b)]))
    | _, _ => Return None
    end.
Proof.
  intros Hs Ha Hb Hu. rewrite parseGeminiResponse_by_cases, Hu.
  rewrite (JSON_parse_reply sep a b Hs Ha Hb).
  assert (H1 : lookupLast sceneDescriptionKey
                 [(sceneDescriptionKey, JString a); (imagePromptKey, JString b)]
               = Some (JString a)) by reflexivity.
  assert (H2 : lookupLast imagePromptKey
                 [(sceneDescriptionKey, JString a); (imagePromptKey, JString b)]
               = Some (JString b)) by reflexivity.
  rewrite H1, H2. destruct a, b; reflexivity.
Qed.

Lemma unfence_reply (sep a b : jsstring) :
  unfence (replyText sep a b) = replyText sep a b
  /\ unfence (fencedReply sep a b) = replyText sep a b.
Proof.
  destruct (replyText_trimmed sep a b) as (Hne & Ht & Hp). split.
  - rewrite (unfence_plain _ Hp). exact Ht.
  - unfold fencedReply.
    apply (unfence_tagged [10%N] [10%N] (replyText sep a b));
      (reflexivity || assumption).
Qed.

(** X11. A reply in the format the system instruction asks for is decoded:
    the object with the keys [sceneDescription] and [imagePrompt] holding
    two plain strings that are not empty, bare or inside a fence tagged
    [json], gives the object with these two values, and a call whose first
    attempt is answered with it on a closed breaker returns that object;
    when one of the two strings is empty the parser gives [null]. *)
Theorem expected_reply_is_decoded (sep a b : jsstring) :
  forallb JsonParse.isJsonWs sep = true ->
  forallb plainUnit a = true -> forallb plainUnit b = true ->
  let v := JObject [(sceneDescriptionKey, JString a);
                    (imagePromptKey, JString b)] in
  (a <> [] -> b <> [] ->
   parseGeminiResponse (replyText sep a b) = Return (Some v)
   /\ parseGeminiResponse (fencedReply sep a b) = Return (Some v)
   /\ forall chat message useFallback w text,
        isOpen (circuitBreakerState w) = false ->
        provider w (sent w) = Responds (Some text) ->
        text = replyText sep a b \/ text = fencedReply sep a b ->
        fst (sendMessageToGemini chat message useFallback w)
        = Return (Some v))
  /\ (a = [] \/ b = [] ->
      parseGeminiResponse (replyText sep a b) = Return None
      /\ parseGeminiResponse (fencedReply sep a b) = Return None).
Proof.
  intros Hs Ha Hb v.
  destruct (unfence_reply sep a b) as [Hbare Hfenced].
  pose proof (parseGeminiResponse_reply sep a b _ Hs Ha Hb Hbare) as Pbare.
  pose proof (parseGeminiResponse_reply sep a b _ Hs Ha Hb Hfenced) as Pfenced.
  split.
  - intros Hane Hbne.
    destruct a as [| a0 a']; [contradiction |].
    destruct b as [| b0 b']; [contradiction |].
    split; [exact Pbare |]. split; [exact Pfenced |].
    intros chat message useFallback w text Ho Hp Htext.
    rewrite (sendMessageToGemini_entered chat message useFallback w
               (afterClockRead w) (checkCircuitBreaker_closed w Ho)).
    assert (Hshape : exists c t, text = c :: t).
    { destruct Htext as [-> | ->].
      - rewrite replyText_cons. eauto.
      - unfold fencedReply, Fence.backticks. cbn [app]. eauto. }
    destruct Hshape as (c & t & Hct).
    rewrite (retryLoop_success sendMessageToGemini_leaf chat message
               useFallback _ 0 None (afterClockRead w) c t)
      by (cbn [afterClockRead provider sent]; rewrite Hp, Hct; reflexivity).
    cbn [fst]. rewrite <- Hct.
    destruct Htext as [-> | ->]; assumption.
  - intros [-> | ->].
    + split; assumption.
    + split; [rewrite Pbare | rewrite Pfenced]; destruct a; reflexivity.
Qed.

Lemma expected_reply_is_decoded_witness :
  parseGeminiResponse
    (replyText [32%N] (js "You enter a cave.")
       (js "dark cave entrance, torchlight"))
  = Return (Some (JObject [(sceneDescriptionKey,
                            JString (js "You enter a cave."));
                           (imagePromptKey,
                            JString (js "dark cave entrance, torchlight"))]))
  /\ fst (sendMessageToGemini primaryChat (js "Start the adventure.") false
            fencedWorld)
     = Return (Some (JObject [(sceneDescriptionKey,
                               JString (js "You enter a cave."));
                              (imagePromptKey,
                               JString (js "dark cave entrance, torchlight"))]))
  /\ parseGeminiResponse
       (replyText [32%N] [] (js "dark cave entrance, torchlight"))
     = Return None.
Proof.
  split; [| split].
  - refine (proj1 (proj1 (expected_reply_is_decoded [32%N]
                            (js "You enter a cave.")
                            (js "dark cave entrance, torchlight")
                            _ _ _) _ _)).
    + reflexivity.
    + reflexivity.
    + reflexivity.
    + discriminate.
    + discriminate.
  - refine (proj2 (proj2 (proj1 (expected_reply_is_decoded [32%N]
                                   (js "You enter a cave.")
                                   (js "dark cave entrance, torchlight")
                                   _ _ _) _ _))
              primaryChat (js "Start the adventure.") false fencedWorld _
              _ _ _).
    + reflexivity.
    + reflexivity.
    + reflexivity.
    + discriminate.
    + discriminate.
    + reflexivity.
    + reflexivity.
    + right. reflexivity.
  - refine (proj1 (proj2 (expected_reply_is_decoded [32%N] []
                            (js "dark cave entrance, torchlight") _ _ _) _)).
    + reflexivity.
    + reflexivity.
    + reflexivity.
    + left. reflexivity.
Defined.

(** ** The single-attempt variant *)

Lemma single_world (chat : Chat) (message : jsstring) (w : World) :
  snd (SingleAttempt.sendMessageToGemini chat message w)
  = afterSend chat message w.
Proof.
  unfold SingleAttempt.sendMessageToGemini, tryCatch, bind.
  rewrite sendMessage_run.
  destruct (provider w (sent w)) as [text | error].
  - destruct (emptyText text); [reflexivity |].
    unfold liftC. destruct (parseGeminiResponse_returns (textOf text)) as [r ->].
    reflexivity.
  - destruct error as [m | v]; [| reflexivity].
    destruct (isInvalidApiKey m); [reflexivity |].
    destruct (isQuotaExceeded m); reflexivity.
Qed.

Lemma resilient_first_attempt (chat : Chat) (message : jsstring)
  (useFallback : bool) (w : World) :
  isOpen (circuitBreakerState w) = false ->
  (forall error, provider w (sent w) = Rejects error ->
                 retried error = false) ->
  fst (sendMessageToGemini chat message useFallback w)
  = fst (SingleAttempt.sendMessageToGemini chat message w)
  /\ sent (snd (sendMessageToGemini chat message useFallback w))
     = S (sent w).
Proof.
  intros Ho Hnr.
  rewrite (sendMessageToGemini_entered chat message useFallback w
             (afterClockRead w) (checkCircuitBreaker_closed w Ho)).
  unfold SingleAttempt.sendMessageToGemini, tryCatch, bind.
  rewrite sendMessage_run.
  assert (Hsame : provider (afterClockRead w) (sent (afterClockRead w))
                  = provider w (sent w)) by reflexivity.
  destruct (provider w (sent w)) as [text | error] eqn:Hp.
  - destruct (emptyText text) eqn:He.
    + rewrite (retryLoop_empty_text sendMessageToGemini_leaf chat message
                 useFallback _ 0 None (afterClockRead w) text Hsame He).
      split; reflexivity.
    + destruct text as [[| c t] |]; try discriminate He.
      rewrite (retryLoop_success sendMessageToGemini_leaf chat message
                 useFallback _ 0 None (afterClockRead w) c t Hsame).
      cbn [textOf]. unfold liftC.
      destruct (parseGeminiResponse_returns (c :: t)) as [r ->].
      split; reflexivity.
  - specialize (Hnr error eq_refl).
    destruct error as [m | v]; [| discriminate Hnr]. cbn [retried] in Hnr.
    destruct (isInvalidApiKey m || isQuotaExceeded m) eqn:Hpol.
    + rewrite (retryLoop_policy_error sendMessageToGemini_leaf chat message
                 useFallback _ 0 None (afterClockRead w) m Hsame Hpol).
      destruct (isInvalidApiKey m); [split; reflexivity |].
      cbn [orb] in Hpol. rewrite Hpol. split; reflexivity.
    + apply orb_false_elim in Hpol. destruct Hpol as [Hk Hq].
      rewrite Hk, Hq in Hnr. cbn [negb andb] in Hnr.
      rewrite (retryLoop_rejected sendMessageToGemini_leaf chat message
                 useFallback _ 0 None (afterClockRead w) (ErrorObj m) Hsame).
      rewrite (catchBlock_not_retryable sendMessageToGemini_leaf message
                 useFallback _ m 0 _ Hk Hq Hnr).
      rewrite Hk, Hq. split; reflexivity.
Qed.

(** X12. The single-attempt variant of the service makes exactly one
    request and nothing else, whatever comes back; and the resilient
    function agrees with it, in what it returns or throws and in making one
    request, whenever the breaker is closed and the first attempt is
    answered or is rejected with an error that is not retried. *)
Theorem resilient_agrees_with_single_attempt (chat : Chat)
  (message : jsstring) (useFallback : bool) (w : World) :
  snd (SingleAttempt.sendMessageToGemini chat message w)
  = afterSend chat message w
  /\ (isOpen (circuitBreakerState w) = false ->
      (forall error, provider w (sent w) = Rejects error ->
                     retried error = false) ->
      fst (sendMessageToGemini chat message useFallback w)
      = fst (SingleAttempt.sendMessageToGemini chat message w)
      /\ sent (snd (sendMessageToGemini chat message useFallback w))
         = S (sent w)).
Proof.
  split; [apply single_world | apply resilient_first_attempt].
Qed.

Lemma resilient_agrees_with_single_attempt_witness :
  fst (sendMessageToGemini primaryChat (js "go") false notFoundWorld)
  = fst (SingleAttempt.sendMessageToGemini primaryChat (js "go")
           notFoundWorld)
  /\ sent (snd (sendMessageToGemini primaryChat (js "go") false
                  notFoundWorld)) = 1%nat.
Proof.
  apply (proj2 (resilient_agrees_with_single_attempt primaryChat (js "go")
                  false notFoundWorld)).
  - reflexivity.
  - intros error Hp. injection Hp as <-. vm_compute. reflexivity.
Defined.

(** Where the two differ: on an overloaded provider the single-attempt
    variant rethrows the provider's error after one request, the resilient
    function throws its overload message after eight. *)
Example variants_differ_on_overload :
  SingleAttempt.sendMessageToGemini primaryChat (js "go") overloadedWorld
  = (Throw error503, afterSend primaryChat (js "go") overloadedWorld)
  /\ fst (sendMessageToGemini primaryChat (js "go") false overloadedWorld)
     = Throw (ErrorObj overloadedMessage)
  /\ sent (snd (sendMessageToGemini primaryChat (js "go") false
                  overloadedWorld)) = 8%nat.
Proof. vm_compute. repeat split; reflexivity. Qed.

(** ** The image request, end to end *)

Lemma relayHandler_ok (prompt : JsVal) (key : option jsstring)
  (upstream : Completion Upstream) :
  let a := relayHandler prompt key upstream in
  ((200 <=? answerStatus a) && (answerStatus a <=? 299))%N = true ->
  truthy prompt = true /\ configured key = true
  /\ exists u b,
       upstream = Return u /\ upOk u = true /\ upBase64 u = Return b
       /\ a = mkAnswer 200 (JObject [(js "imageUrl",
                                      JString (dataUrlPrefix ++ b))]).
Proof.
  unfold relayHandler, relayTry.
  destruct (truthy prompt); cbn [negb]; [| discriminate].
  destruct (configured key); cbn [negb]; [| discriminate].
  destruct upstream as [u | e]; cbn [bindC]; [| discriminate].
  destruct (upOk u) eqn:Hok; cbn [negb].
  - destruct (upBase64 u) as [b | e] eqn:Hb; cbn [bindC]; [| discriminate].
    intros _. repeat split. exists u, b. repeat split; assumption.
  - destruct (upText u) as [t | e]; cbn [bindC answerStatus];
      [| discriminate].
    unfold upOk in Hok. rewrite Hok. discriminate.
Qed.

Lemma generateImage_returned (ToString : Json -> jsstring)
  (key : option jsstring) (fetched : Completion HttpResponse)
  (prompt : jsstring) (v : JsVal) :
  generateImageWithCloudflare ToString key fetched prompt = Return v ->
  configured key = true
  /\ exists r d,
       fetched = Return r /\ ok r = true /\ json r = Return d
       /\ getProp d (js "imageUrl") = Return v.
Proof.
  unfold generateImageWithCloudflare, tryCatchC, bindC.
  destruct (configured key); cbn [negb]; [| discriminate].
  destruct fetched as [r | e]; [| discriminate].
  destruct (ok r) eqn:Hok; cbn [negb].
  - destruct (json r) as [d | e] eqn:Hd; [| discriminate].
    destruct (getProp d (js "imageUrl")) as [u | e] eqn:Hu; [| discriminate].
    intros [= <-]. split; [reflexivity |]. exists r, d. auto.
  - destruct (json r) as [d | e]; [| discriminate].
    destruct (status r =? 429)%N; [discriminate |].
    destruct (status r =? 401)%N; [discriminate |].
    destruct (getProp d (js "error")); discriminate.
Qed.

(** X13. The image request hands back a value only when the key is
    configured, the request to the relay was answered, the answer has a
    status from 200 to 299 and a body that can be read; without a key it
    throws before any answer is looked at, and a request that failed is
    rethrown as it is. *)
Theorem image_value_needs_ok_answer (ToString : Json -> jsstring)
  (key : option jsstring) (fetched : Completion HttpResponse)
  (prompt : jsstring) :
  (forall v,
     generateImageWithCloudflare ToString key fetched prompt = Return v ->
     configured key = true
     /\ exists r d,
          fetched = Return r /\ ok r = true /\ json r = Return d
          /\ getProp d (js "imageUrl") = Return v)
  /\ (configured key = false ->
      generateImageWithCloudflare ToString key fetched prompt
      = Throw (ErrorObj notConfiguredMessage))
  /\ (forall e, configured key = true -> fetched = Throw e ->
      generateImageWithCloudflare ToString key fetched prompt = Throw e).
Proof.
  split; [intros v; apply generateImage_returned |]. split.
  - intros Hk. unfold generateImageWithCloudflare. rewrite Hk. reflexivity.
  - intros e Hk ->. unfold generateImageWithCloudflare. rewrite Hk.
    reflexivity.
Qed.

Lemma image_value_needs_ok_answer_witness :
  generateImageWithCloudflare (fun _ => js "[object Object]") None
    (Return quotaResponse) (js "dark cave entrance")
  = Throw (ErrorObj notConfiguredMessage)
  /\ generateImageWithCloudflare (fun _ => js "[object Object]")
       (Some (js "cf-key")) (Throw (ErrorObj (js "Failed to fetch")))
       (js "dark cave entrance")
     = Throw (ErrorObj (js "Failed to fetch")).
Proof.
  split.
  - apply (proj1 (proj2 (image_value_needs_ok_answer
                           (fun _ => js "[object Object]") None
                           (Return quotaResponse) (js "dark cave entrance")))).
    reflexivity.
  - apply (proj2 (proj2 (image_value_needs_ok_answer
                           (fun _ => js "[object Object]")
                           (Some (js "cf-key"))
                           (Throw (ErrorObj (js "Failed to fetch")))
                           (js "dark cave entrance")))
             (ErrorObj (js "Failed to fetch"))); reflexivity.
Defined.

(** X14. Through the relay, the client gets an image exactly when its key
    and the relay's key are configured, the prompt is not empty, the image
    provider answered with a status from 200 to 299 and its body could be
    read; what it gets is then the data URL of that body, and in every other
    case the client throws. *)
Theorem image_comes_from_provider (ToString : Json -> jsstring)
  (reason : N -> jsstring) (key relayKey : option jsstring)
  (prompt : jsstring) (upstream : Completion Upstream) (v : JsVal) :
  generateImageWithCloudflare ToString key
    (relayed reason prompt relayKey upstream) prompt = Return v
  <-> (configured key = true /\ prompt <> [] /\ configured relayKey = true
       /\ exists u b,
            upstream = Return u /\ upOk u = true /\ upBase64 u = Return b
            /\ v = Some (JString (dataUrlPrefix ++ b))).
Proof.
  split.
  - intros H.
    destruct (generateImage_returned _ _ _ _ _ H)
      as (Hk & r & d & Hf & Hok & Hd & Hv).
    unfold relayed in Hf. injection Hf as <-.
    unfold ok, answerAsResponse in Hok. cbn [status] in Hok.
    destruct (relayHandler_ok _ _ _ Hok) as (Hp & Hrk & u & b & Hu & Huo & Hb & Ha).
    split; [exact Hk |]. split; [intros ->; discriminate Hp |].
    split; [exact Hrk |]. exists u, b. repeat split; try assumption.
    unfold answerAsResponse in Hd. cbn [json] in Hd. rewrite Ha in Hd.
    injection Hd as <-. cbn [answerBody] in Hv.
    change (Return (Some (JString (dataUrlPrefix ++ b))) = Return v) in Hv.
    injection Hv as <-. reflexivity.
  - intros (Hk & Hp & Hrk & u & b & -> & Huo & Hb & ->).
    unfold relayed, relayHandler, relayTry.
    destruct prompt as [| c t]; [contradiction |]. cbn [truthy negb].
    rewrite Hrk. cbn [negb bindC]. rewrite Huo. cbn [negb]. rewrite Hb.
    cbn [bindC]. unfold generateImageWithCloudflare. rewrite Hk.
    cbn [negb tryCatchC bindC answerAsResponse]. reflexivity.
Qed.

Lemma image_comes_from_provider_witness :
  generateImageWithCloudflare (fun _ => js "[object Object]")
    (Some (js "cf-key"))
    (relayed (fun _ => js "OK") (js "dark cave entrance")
       (Some (js "cf-key")) (Return pngUpstream))
    (js "dark cave entrance")
  = Return (Some (JString (dataUrlPrefix ++ js "iVBORw0KGgo="))).
Proof.
  apply (proj2 (image_comes_from_provider (fun _ => js "[object Object]")
                  (fun _ => js "OK") (Some (js "cf-key"))
                  (Some (js "cf-key")) (js "dark cave entrance")
                  (Return pngUpstream)
                  (Some (JString (dataUrlPrefix ++ js "iVBORw0KGgo="))))).
  split; [reflexivity |]. split; [discriminate |]. split; [reflexivity |].
  exists pngUpstream, (js "iVBORw0KGgo="). repeat split.
Defined.

(** ** The component *)

Lemma not_overloaded_markers (m : jsstring) :
  isOverloaded m = false ->
  includes (js "overloaded") m || includes (js "UNAVAILABLE") m = false.
Proof.
  unfold isOverloaded.
  destruct (includes (js "503") m), (includes (js "UNAVAILABLE") m),
    (includes (js "overloaded") m); cbn; intros H;
    (discriminate H || reflexivity).
Qed.

(** X15. The message shown for an error of the service: the quota message
    gives the quota banner, the credential message the key banner, the
    overload message the traffic banner, the message of the open breaker is
    shown after [An error occurred: ]; an error of the provider that came
    through as it was never gives the traffic banner; and the banner for a
    thrown value that is no [Error] is never shown for the service. *)
Theorem service_errors_reach_the_banner (toLowerCase : jsstring -> jsstring)
  (chat : Chat) (message : jsstring) (useFallback : bool) (w : World)
  (e : JsThrown) (context : jsstring) :
  fst (sendMessageToGemini chat message useFallback w) = Throw e ->
  exists m,
    e = ErrorObj m
    /\ ((m = rateLimitMessage
         /\ errorBanner toLowerCase e context = quotaBanner)
        \/ (m = invalidApiKeyMessage
            /\ errorBanner toLowerCase e context = keyBanner)
        \/ (m = overloadedMessage
            /\ errorBanner toLowerCase e context = trafficBanner)
        \/ (m = bothUnavailableMessage
            /\ errorBanner toLowerCase e context
               = js "An error occurred: " ++ m)
        \/ (isOverloaded m = false
            /\ (exists i error,
                  provider w i = Rejects error /\ m = asError error)
            /\ (errorBanner toLowerCase e context = quotaBanner
                \/ errorBanner toLowerCase e context = keyBanner
                \/ errorBanner toLowerCase e context
                   = js "An error occurred: " ++ m))).
Proof.
  intros He.
  destruct (sendMessageToGemini_thrown chat message useFallback w e He)
    as (m & -> & [Hin | [Hno Hprov]]).
  - exists m. split; [reflexivity |].
    cbn [In ownMessages] in Hin.
    destruct Hin as [<- | [<- | [<- | [<- | []]]]].
    + right. left. split; reflexivity.
    + left. split; reflexivity.
    + right. right. left. split; reflexivity.
    + right. right. right. left. split; reflexivity.
  - exists m. split; [reflexivity |]. right. right. right. right.
    split; [exact Hno |]. split; [exact Hprov |].
    unfold errorBanner.
    destruct (startsWith (js "RateLimitError:") m); [left; reflexivity |].
    destruct (includes (js "Invalid API Key") m);
      [right; left; reflexivity |].
    rewrite (not_overloaded_markers m Hno). right. right. reflexivity.
Qed.

Lemma service_errors_reach_the_banner_witness :
  exists m,
    ErrorObj overloadedMessage = ErrorObj m
    /\ ((m = rateLimitMessage
         /\ errorBanner (fun s => s) (ErrorObj overloadedMessage)
              (js "starting game") = quotaBanner)
        \/ (m = invalidApiKeyMessage
            /\ errorBanner (fun s => s) (ErrorObj overloadedMessage)
                 (js "starting game") = keyBanner)
        \/ (m = overloadedMessage
            /\ errorBanner (fun s => s) (ErrorObj overloadedMessage)
                 (js "starting game") = trafficBanner)
        \/ (m = bothUnavailableMessage
            /\ errorBanner (fun s => s) (ErrorObj overloadedMessage)
                 (js "starting game")
               = js "An error occurred: " ++ m)
        \/ (isOverloaded m = false
            /\ (exists i error,
                  provider overloadedWorld i = Rejects error
                  /\ m = asError error)
            /\ (errorBanner (fun s => s) (ErrorObj overloadedMessage)
                  (js "starting game") = quotaBanner
                \/ errorBanner (fun s => s) (ErrorObj overloadedMessage)
                     (js "starting game") = keyBanner
                \/ errorBanner (fun s => s) (ErrorObj overloadedMessage)
                     (js "starting game")
                   = js "An error occurred: " ++ m))).
Proof.
  apply (service_errors_reach_the_banner (fun s => s) primaryChat (js "go")
           false overloadedWorld (ErrorObj overloadedMessage)
           (js "starting game")).
  vm_compute. reflexivity.
Defined.

(** X16. [handleStartGame], run to its end, always leaves the component
    not loading, with an empty loading message and a fresh session on the
    primary model, and with the world the one call to the service left.  No
    error is shown exactly when the service returned an object and the image
    request for its [imagePrompt] returned: then the game is started and the
    description and the image are the ones received.  When an error is
    shown, the game is not started by this run and no image is shown. *)
Theorem start_game_settles (toLowerCase : jsstring -> jsstring)
  (generateImage : JsVal -> Completion JsVal) (st : AppState) (w : World) :
  let chat := mkChat GEMINI_MODEL_NAME (sessions w) in
  let service :=
    sendMessageToGemini chat (js "Start the adventure.") false
      (snd (createChatSession GEMINI_MODEL_NAME w)) in
  let st' := fst (handleStartGame toLowerCase generateImage st w) in
  snd (handleStartGame toLowerCase generateImage st w) = snd service
  /\ isLoading st' = false /\ loadingMessage st' = []
  /\ chatRef st' = Some chat /\ playerAction st' = playerAction st
  /\ (error st' = None <->
      exists ms sd ip url,
        fst service = Return (Some (JObject ms))
        /\ lookupLast sceneDescriptionKey ms = Some sd
        /\ lookupLast imagePromptKey ms = Some ip
        /\ generateImage (Some ip) = Return url
        /\ gameStarted st' = true
        /\ currentSceneDescription st' = Some sd
        /\ currentImageUrl st' = url)
  /\ (error st' <> None ->
      gameStarted st' = gameStarted st /\ currentImageUrl st' = Some JNull).
Proof.
  intros chat service st'. unfold st', handleStartGame. fold chat.
  fold service.
  destruct service as [[[r |] | e] w2] eqn:E.
  - assert (Hr : fst (sendMessageToGemini chat (js "Start the adventure.")
                        false (snd (createChatSession GEMINI_MODEL_NAME w)))
                 = Return (Some r)).
    { fold service. rewrite E. reflexivity. }
    destruct (sendMessageToGemini_returned_object _ _ _ _ _ Hr)
      as (ms & sd & ip & -> & Hsd & Hip & Tsd & Tip).
    cbn [truthy getProp fst snd]. rewrite Hsd. unfold withImage.
    cbn [getProp]. rewrite Hip.
    destruct (generateImage (Some ip)) as [url | e'] eqn:G;
      cbn -[js imagePromptKey sceneDescriptionKey]; repeat split; try discriminate; try congruence.
    + intros _. exists ms, sd, ip, url. repeat split; assumption.
    + intros (ms' & sd' & ip' & url' & Hm & _ & Hip' & G' & _).
      injection Hm as Hm. subst ms'. rewrite Hip in Hip'.
      injection Hip' as Hip'. subst ip'. rewrite G in G'. discriminate G'.
  - cbn -[js imagePromptKey sceneDescriptionKey]. repeat split; try discriminate; try congruence.
    intros (ms' & sd' & ip' & url' & Hm & _). discriminate Hm.
  - cbn -[js imagePromptKey sceneDescriptionKey]. repeat split; try discriminate; try congruence.
    intros (ms' & sd' & ip' & url' & Hm & _). discriminate Hm.
Qed.

Lemma start_game_settles_witness :
  error (fst (handleStartGame (fun s => s) samePicture mountedApp caveWorld))
  = None.
Proof.
  destruct (start_game_settles (fun s => s) samePicture mountedApp caveWorld)
    as (_ & _ & _ & _ & _ & Hiff & _).
  apply Hiff.
  exists [(sceneDescriptionKey, JString (js "You enter a cave."));
          (imagePromptKey, JString (js "dark cave entrance, torchlight"))],
    (JString (js "You enter a cave.")),
    (JString (js "dark cave entrance, torchlight")),
    (Some (JString (js "data:image/png;base64,BBBB"))).
  vm_compute. repeat split; reflexivity.
Defined.

Lemma handlePlayerActionSubmit_guard (toLowerCase : jsstring -> jsstring)
  (ToString : Json -> jsstring) (generateImage : JsVal -> Completion JsVal)
  (st : AppState) (w : World) :
  trim (playerAction st) = [] \/ chatRef st = None \/ isLoading st = true ->
  handlePlayerActionSubmit toLowerCase ToString generateImage st w = (st, w).
Proof.
  unfold handlePlayerActionSubmit.
  intros [H | [H | H]]; rewrite H.
  - reflexivity.
  - destruct (trim (playerAction st)); reflexivity.
  - destruct (trim (playerAction st)); [reflexivity |].
    destruct (chatRef st); reflexivity.
Qed.

Lemma handlePlayerActionSubmit_settles (toLowerCase : jsstring -> jsstring)
  (ToString : Json -> jsstring) (generateImage : JsVal -> Completion JsVal)
  (st : AppState) (w : World) (chat : Chat) :
  trim (playerAction st) <> [] -> chatRef st = Some chat ->
  isLoading st = false ->
  let service := sendMessageToGemini chat (playerAction st) false w in
  let st' :=
    fst (handlePlayerActionSubmit toLowerCase ToString generateImage st w) in
  snd (handlePlayerActionSubmit toLowerCase ToString generateImage st w)
  = snd service
  /\ isLoading st' = false /\ playerAction st' = []
  /\ loadingMessage st' = [] /\ chatRef st' = chatRef st
  /\ gameStarted st' = gameStarted st
  /\ (exists rest,
        currentSceneDescription st'
        = Some (JString (templ ToString (currentSceneDescription st)
                           ++ [10%N; 10%N; 62%N; 32%N] ++ playerAction st
                           ++ [10%N] ++ rest)))
  /\ (error st' = None <->
      exists ms sd ip url,
        fst service = Return (Some (JObject ms))
        /\ lookupLast sceneDescriptionKey ms = Some sd
        /\ lookupLast imagePromptKey ms = Some ip
        /\ generateImage (Some ip) = Return url
        /\ currentImageUrl st' = url)
  /\ (error st' <> None -> currentImageUrl st' = currentImageUrl st).
Proof.
  intros Ha Hc Hl service st'. unfold st', handlePlayerActionSubmit.
  destruct (trim (playerAction st)) as [| a0 a']; [contradiction |].
  rewrite Hc, Hl. fold service.
  destruct service as [[[r |] | e] w2] eqn:E.
  - assert (Hr : fst (sendMessageToGemini chat (playerAction st) false w)
                 = Return (Some r)).
    { fold service. rewrite E. reflexivity. }
    destruct (sendMessageToGemini_returned_object _ _ _ _ _ Hr)
      as (ms & sd & ip & -> & Hsd & Hip & Tsd & Tip).
    cbn [truthy getProp fst snd]. rewrite Hsd. unfold withImage.
    cbn [getProp]. rewrite Hip.
    destruct (generateImage (Some ip)) as [url | e'] eqn:G;
      cbn -[js imagePromptKey sceneDescriptionKey]; repeat split; try discriminate; try congruence.
    + eexists. repeat (rewrite <- ?app_assoc; cbn [app]). reflexivity.
    + intros _. exists ms, sd, ip, url. repeat split; assumption.
    + eexists. repeat (rewrite <- ?app_assoc; cbn [app]). reflexivity.
    + intros (ms' & sd' & ip' & url' & Hm & _ & Hip' & G' & _).
      injection Hm as Hm. subst ms'. rewrite Hip in Hip'.
      injection Hip' as Hip'. subst ip'. rewrite G in G'. discriminate G'.
  - cbn -[js imagePromptKey sceneDescriptionKey]. repeat split; try discriminate; try congruence.
    + eexists. repeat (rewrite <- ?app_assoc; cbn [app]). reflexivity.
    + intros (ms' & sd' & ip' & url' & Hm & _). discriminate Hm.
  - cbn -[js imagePromptKey sceneDescriptionKey]. repeat split; try discriminate; try congruence.
    + eexists. repeat (rewrite <- ?app_assoc; cbn [app]). reflexivity.
    + intros (ms' & sd' & ip' & url' & Hm & _). discriminate Hm.
Qed.

(** X17. [handlePlayerActionSubmit] does nothing, and sends nothing, when
    the action typed is blank, when there is no session or while the
    component is loading.  Otherwise, run to its end, it makes one call to
    the service with the action, leaves the component not loading with the
    input cleared, keeps what the description held and adds the echo of the
    action to it, whatever the outcome; no error is shown exactly when the
    service returned an object and the image request returned, and when an
    error is shown the image is the one shown before. *)
Theorem player_action_settles (toLowerCase : jsstring -> jsstring)
  (ToString : Json -> jsstring) (generateImage : JsVal -> Completion JsVal)
  (st : AppState) (w : World) :
  (trim (playerAction st) = [] \/ chatRef st = None \/ isLoading st = true ->
   handlePlayerActionSubmit toLowerCase ToString generateImage st w = (st, w))
  /\ (forall chat,
        trim (playerAction st) <> [] -> chatRef st = Some chat ->
        isLoading st = false ->
        let service := sendMessageToGemini chat (playerAction st) false w in
        let st' :=
          fst (handlePlayerActionSubmit toLowerCase ToString generateImage
                 st w) in
        snd (handlePlayerActionSubmit toLowerCase ToString generateImage st w)
        = snd service
        /\ isLoading st' = false /\ playerAction st' = []
        /\ loadingMessage st' = [] /\ chatRef st' = chatRef st
        /\ gameStarted st' = gameStarted st
        /\ (exists rest,
              currentSceneDescription st'
              = Some (JString (templ ToString (currentSceneDescription st)
                                 ++ [10%N; 10%N; 62%N; 32%N]
                                 ++ playerAction st ++ [10%N] ++ rest)))
        /\ (error st' = None <->
            exists ms sd ip url,
              fst service = Return (Some (JObject ms))
              /\ lookupLast sceneDescriptionKey ms = Some sd
              /\ lookupLast imagePromptKey ms = Some ip
              /\ generateImage (Some ip) = Return url
              /\ currentImageUrl st' = url)
        /\ (error st' <> None -> currentImageUrl st' = currentImageUrl st)).
Proof.
  split.
  - apply handlePlayerActionSubmit_guard.
  - intros chat. apply handlePlayerActionSubmit_settles.
Qed.

Lemma player_action_settles_witness :
  handlePlayerActionSubmit (fun s => s) (fun _ => js "[object Object]")
    samePicture
    (mkApp true (Some (JString (js "You enter a cave."))) (Some JNull)
           (js "   ") false None [] (Some primaryChat))
    caveWorld
  = (mkApp true (Some (JString (js "You enter a cave."))) (Some JNull)
           (js "   ") false None [] (Some primaryChat), caveWorld)
  /\ playerAction
       (fst (handlePlayerActionSubmit (fun s => s)
               (fun _ => js "[object Object]") samePicture playingApp
               overloadedWorld)) = []
  /\ currentImageUrl
       (fst (handlePlayerActionSubmit (fun s => s)
               (fun _ => js "[object Object]") samePicture playingApp
               overloadedWorld)) = currentImageUrl playingApp.
Proof.
  split.
  - apply (proj1 (player_action_settles (fun s => s)
                    (fun _ => js "[object Object]") samePicture _ caveWorld)).
    left. reflexivity.
  - destruct (proj2 (player_action_settles (fun s => s)
                       (fun _ => js "[object Object]") samePicture playingApp
                       overloadedWorld) primaryChat)
      as (_ & _ & Hp & _ & _ & _ & _ & _ & Hkeep).
    + discriminate.
    + reflexivity.
    + reflexivity.
    + split; [exact Hp |]. apply Hkeep. vm_compute. discriminate.
Defined.

(** ** The outcome of a call is the outcome of its last request *)

Lemma thrownFor_retried (error : JsThrown) :
  retried error = true -> thrownFor error = exhaustedError error.
Proof.
  destruct error as [m | v]; cbn [retried thrownFor]; [| reflexivity].
  intros H. apply andb_prop in H. destruct H as [H H3].
  apply andb_prop in H. destruct H as [H1 H2].
  apply negb_true_iff in H1, H2. rewrite H1, H2, H3. reflexivity.
Qed.

Lemma LoopRun_last (chat : Chat) (message : jsstring) (k attempt : nat)
  (lastError : option jsstring) (w : World)
  (r : Completion (option GameAIResponse)) (w' : World) :
  LoopRun chat message k attempt lastError w r w' ->
  (attempt + k = S (maxRetries RETRY_CONFIG))%nat -> (1 <= k)%nat ->
  (sent w < sent w')%nat /\ provider w' = provider w
  /\ outcomeOf (provider w (sent w' - 1)) r.
Proof.
  cbn [maxRetries RETRY_CONFIG].
  induction 1 as [attempt le w | k attempt le w text Hp He
                  | k attempt le w c t r Hp Hr | k attempt le w m Hp Hm
                  | k attempt le w m Hp H1 H2 H3
                  | k attempt le w error Hp Hr Ha
                  | k attempt le w error r w' Hp Hr Ha Hrun IH];
    intros Hsum Hk; try lia.
  - cbn [afterSend sent provider]. rewrite Nat.sub_succ, Nat.sub_0_r, Hp.
    cbn [outcomeOf]. rewrite He. repeat split. lia.
  - cbn. rewrite Nat.sub_0_r, Hp. cbn [outcomeOf emptyText textOf].
    repeat split; [lia | symmetry; exact Hr].
  - cbn [afterSend sent provider]. rewrite Nat.sub_succ, Nat.sub_0_r, Hp.
    cbn [outcomeOf thrownFor]. repeat split; [lia |].
    destruct (isInvalidApiKey m); [reflexivity |].
    cbn [orb] in Hm. rewrite Hm. reflexivity.
  - cbn [afterSend sent provider]. rewrite Nat.sub_succ, Nat.sub_0_r, Hp.
    cbn [outcomeOf thrownFor]. rewrite H1, H2, H3. repeat split. lia.
  - destruct (afterFailure_frame (afterSend chat message w))
      as (Hpr & _ & _ & Hs & _).
    rewrite Hs, Hpr. cbn [afterSend sent provider].
    rewrite Nat.sub_succ, Nat.sub_0_r, Hp. cbn [outcomeOf].
    rewrite (thrownFor_retried error Hr). repeat split. lia.
  - cbn [maxRetries RETRY_CONFIG] in Ha.
    destruct (IH ltac:(lia) ltac:(lia)) as (Hs & Hpr & Ho).
    cbn [afterBackoff afterSend sent provider] in Hs, Hpr, Ho.
    repeat split; [lia | exact Hpr | exact Ho].
Qed.

Lemma check_sent (w w1 : World) (r : Completion bool) :
  checkCircuitBreaker w = (r, w1) ->
  sent w1 = sent w /\ provider w1 = provider w.
Proof.
  apply (check_steps
           (fun a b => sent b = sent a /\ provider b = provider a)); intros;
    split; reflexivity.
Qed.

Lemma LeafRun_last (chat : Chat) (message : jsstring) (w : World)
  (r : Completion (option GameAIResponse)) (w' : World) :
  LeafRun chat message w r w' ->
  provider w' = provider w /\ (sent w <= sent w')%nat /\ lastRequest w r w'.
Proof.
  destruct 1 as [w w1 E | w w1 r w' E Hrun];
    destruct (check_sent _ _ _ E) as [Hs Hp].
  - split; [exact Hp |]. split; [lia |]. left. split; [reflexivity | exact Hs].
  - destruct (LoopRun_last _ _ _ _ _ _ _ _ Hrun eq_refl)
      as (Hlt & Hpr & Ho); [cbn; lia |].
    rewrite Hs, Hp in *. split; [exact Hpr |]. split; [lia |].
    right. split; assumption.
Qed.

Lemma sendMessageToGemini_last (chat : Chat) (message : jsstring)
  (useFallback : bool) (w : World) :
  lastRequest w (fst (sendMessageToGemini chat message useFallback w))
    (snd (sendMessageToGemini chat message useFallback w)).
Proof.
  destruct useFallback.
  - apply (LeafRun_last _ _ _ _ _
             (sendMessageToGemini_leaf_run chat message w)).
  - pose proof (sendMessageToGemini_top_run chat message w) as Hrun.
    destruct Hrun as [w w1 r w' E Hleaf | w w1 r w' E Hne Hrun
                      | w w1 error v w' E Hp He Hleaf
                      | w w1 error e wf r w' E Hp He Hleaf Hrun];
      destruct (check_sent _ _ _ E) as [Hs Hpr].
    + destruct (LeafRun_last _ _ _ _ _ Hleaf) as (_ & _ & Hl).
      unfold lastRequest in *.
      cbn [afterCreate createChatSession snd sent provider] in Hl.
      rewrite Hs, Hpr in Hl. exact Hl.
    + destruct (LoopRun_last _ _ _ _ _ _ _ _ Hrun eq_refl)
        as (Hlt & _ & Ho); [cbn; lia |].
      rewrite Hs, Hpr in *. right. split; assumption.
    + destruct (LeafRun_last _ _ _ _ _ Hleaf) as (_ & _ & [[Hr _] | [Hlt Ho]]);
        [discriminate Hr |].
      cbn [afterCreate createChatSession snd afterSend sent provider]
        in Hlt, Ho.
      rewrite Hs, Hpr in *. right. split; [lia | exact Ho].
    + destruct (LeafRun_last _ _ _ _ _ Hleaf) as (Hpl & Hle & _).
      cbn [afterCreate createChatSession snd afterSend sent provider]
        in Hpl, Hle.
      destruct (LoopRun_last _ _ _ _ _ _ _ _ Hrun eq_refl)
        as (Hlt & _ & Ho); [cbn; lia |].
      cbn [afterBackoff sent provider] in Hlt, Ho.
      rewrite Hpl, Hpr in Ho. rewrite Hs in *.
      right. split; [lia | exact Ho].
Qed.

(** X18. What a call returns or throws is decided by the last request it
    made: a call that made no request was refused with the message that
    both services are unavailable; otherwise its result is [null] for an
    answer without text, the parser's answer for an answer with text, and
    for a rejection the translated credential or quota error, the error
    itself when it is not retryable, and the error of an exhausted loop
    when it is. *)
Theorem outcome_is_of_last_request (chat : Chat) (message : jsstring)
  (useFallback : bool) (w : World) :
  let r := fst (sendMessageToGemini chat message useFallback w) in
  let w' := snd (sendMessageToGemini chat message useFallback w) in
  (sent w' = sent w -> r = Throw (ErrorObj bothUnavailableMessage))
  /\ ((sent w < sent w')%nat ->
      match provider w (sent w' - 1) with
      | Responds text =>
          if emptyText text then r = Return None
          else r = parseGeminiResponse (textOf text)
      | Rejects error => r = Throw (thrownFor error)
      end)
  /\ (sent w <= sent w')%nat.
Proof.
  cbv zeta.
  destruct (sendMessageToGemini_last chat message useFallback w)
    as [[Hr Hs] | [Hlt Ho]].
  - repeat split; [intros _; exact Hr | intros H; lia | lia].
  - repeat split; [intros H; lia | intros _; exact Ho | lia].
Qed.

Lemma outcome_is_of_last_request_witness :
  fst (sendMessageToGemini primaryChat (js "Start the adventure.") false
         fallbackKeyWorld)
  = parseGeminiResponse
      (jq "{'sceneDescription':'You enter a cave.','imagePrompt':'dark cave entrance, torchlight'}").
Proof.
  apply (proj1 (proj2 (outcome_is_of_last_request primaryChat
                         (js "Start the adventure.") false
                         fallbackKeyWorld))).
  vm_compute. lia.
Defined.

(** ** How far the failure count goes *)

Lemma LoopRun_failures (chat : Chat) (message : jsstring) (k attempt : nat)
  (lastError : option jsstring) (w : World)
  (r : Completion (option GameAIResponse)) (w' : World) :
  LoopRun chat message k attempt lastError w r w' ->
  (0 <= failures (circuitBreakerState w))%Z ->
  (0 <= failures (circuitBreakerState w')
   <= failures (circuitBreakerState w) + 1)%Z.
Proof.
  induction 1 as [attempt le w | k attempt le w text Hp He
                  | k attempt le w c t r Hp Hr | k attempt le w m Hp Hm
                  | k attempt le w m Hp H1 H2 H3
                  | k attempt le w error Hp Hr Ha
                  | k attempt le w error r w' Hp Hr Ha Hrun IH];
    intros Hpos; try (cbn; lia).
  - destruct (afterFailure_breaker (afterSend chat message w)) as (Hf & _).
    rewrite Hf. cbn [afterSend circuitBreakerState]. lia.
  - apply IH. exact Hpos.
Qed.

(** A check that lets the call in leaves a sound breaker that is closed,
    with fewer failures than the threshold. *)
Lemma entered_below_threshold (w w1 : World) :
  breakerSound (circuitBreakerState w) ->
  checkCircuitBreaker w = (Return true, w1) ->
  (0 <= failures (circuitBreakerState w1) <= 4)%Z
  /\ isOpen (circuitBreakerState w1) = false.
Proof.
  unfold breakerSound. cbn [failureThreshold CIRCUIT_BREAKER_CONFIG].
  intros [Hpos Hiff] E.
  destruct (checkCircuitBreaker_cases w)
    as [[Ho E'] | [[Ho [Hc E']] | [Ho [Hc E']]]];
    rewrite E' in E; inversion E; subst; cbn.
  - split; [| exact Ho].
    destruct (Z_lt_ge_dec (failures (circuitBreakerState w)) 5) as [Hlt | Hge];
      [lia |].
    assert (isOpen (circuitBreakerState w) = true) by (apply Hiff; lia).
    congruence.
  - split; [lia | reflexivity].
Qed.

Lemma refused_unchanged (w w1 : World) :
  checkCircuitBreaker w = (Return false, w1) ->
  circuitBreakerState w1 = circuitBreakerState w.
Proof.
  intros E.
  destruct (checkCircuitBreaker_cases w)
    as [[Ho E'] | [[Ho [Hc E']] | [Ho [Hc E']]]];
    rewrite E' in E; inversion E; subst; reflexivity.
Qed.

Lemma LeafRun_failures (chat : Chat) (message : jsstring) (w : World)
  (r : Completion (option GameAIResponse)) (w' : World) :
  LeafRun chat message w r w' ->
  breakerSound (circuitBreakerState w) ->
  (failures (circuitBreakerState w) <= 6)%Z ->
  (0 <= failures (circuitBreakerState w') <= 6)%Z
  /\ (isOpen (circuitBreakerState w) = false ->
      (failures (circuitBreakerState w')
       <= failures (circuitBreakerState w) + 1)%Z).
Proof.
  destruct 1 as [w w1 E | w w1 r w' E Hrun]; intros Hs Hsix.
  - rewrite (refused_unchanged _ _ E). destruct Hs as [Hpos _].
    split; lia.
  - destruct (entered_below_threshold _ _ Hs E) as [Hb Ho1].
    destruct (LoopRun_failures _ _ _ _ _ _ _ _ Hrun) as [H0 H1]; [lia |].
    split; [lia |]. intros Ho.
    rewrite (checkCircuitBreaker_closed w Ho) in E. inversion E; subst.
    cbn [afterClockRead circuitBreakerState] in H1. exact H1.
Qed.

Lemma sendMessageToGemini_failures (chat : Chat) (message : jsstring)
  (useFallback : bool) (w : World) :
  breakerSound (circuitBreakerState w) ->
  (failures (circuitBreakerState w) <= 6)%Z ->
  (0 <= failures (circuitBreakerState
                    (snd (sendMessageToGemini chat message useFallback w)))
   <= 6)%Z.
Proof.
  intros Hs Hsix. destruct useFallback.
  - apply (LeafRun_failures _ _ _ _ _
             (sendMessageToGemini_leaf_run chat message w) Hs Hsix).
  - pose proof (sendMessageToGemini_top_run chat message w) as Hrun.
    destruct Hrun as [w w1 r w' E Hleaf | w w1 r w' E Hne Hrun
                      | w w1 error v w' E Hp He Hleaf
                      | w w1 error e wf r w' E Hp He Hleaf Hrun].
    + pose proof (refused_unchanged _ _ E) as Hsame.
      apply (LeafRun_failures _ _ _ _ _ Hleaf);
        cbn [afterCreate createChatSession snd circuitBreakerState];
        rewrite Hsame; assumption.
    + destruct (entered_below_threshold _ _ Hs E) as [Hb _].
      destruct (LoopRun_failures _ _ _ _ _ _ _ _ Hrun); lia.
    + destruct (entered_below_threshold _ _ Hs E) as [Hb Ho1].
      assert (Hs1 : breakerSound (circuitBreakerState w1)).
      { apply (check_steps
                 (fun a b => breakerSound (circuitBreakerState a) ->
                             breakerSound (circuitBreakerState b)))
          with (3 := E); [auto | intros; apply closed_zero_sound | exact Hs]. }
      destruct (LeafRun_failures _ _ _ _ _ Hleaf) as [H6 _];
        cbn [afterCreate createChatSession snd afterSend circuitBreakerState];
        [exact Hs1 | lia | exact H6].
    + destruct (entered_below_threshold _ _ Hs E) as [Hb Ho1].
      assert (Hs1 : breakerSound (circuitBreakerState w1)).
      { apply (check_steps
                 (fun a b => breakerSound (circuitBreakerState a) ->
                             breakerSound (circuitBreakerState b)))
          with (3 := E); [auto | intros; apply closed_zero_sound | exact Hs]. }
      destruct (LeafRun_failures _ _ _ _ _ Hleaf) as [H6 H1];
        cbn [afterCreate createChatSession snd afterSend circuitBreakerState]
          in *; [exact Hs1 | lia |].
      specialize (H1 Ho1).
      destruct (LoopRun_failures _ _ _ _ _ _ _ _ Hrun) as [G0 G1];
        cbn [afterBackoff circuitBreakerState] in *; lia.
Qed.

(** X19. The failure count never goes beyond one more than the threshold:
    a call that finds it at 6 or less leaves it between 0 and 6, so it is
    at most 6 after any sequence of calls of a process that started with
    the initial breaker. *)
Theorem failure_count_stays_within_six :
  (forall chat message useFallback w,
     breakerSound (circuitBreakerState w) ->
     (failures (circuitBreakerState w) <= 6)%Z ->
     (0 <= failures (circuitBreakerState
                       (snd (sendMessageToGemini chat message useFallback w)))
      <= 6)%Z)
  /\ (forall calls w,
        circuitBreakerState w = initialBreaker ->
        (0 <= failures (circuitBreakerState (runCalls calls w)) <= 6)%Z).
Proof.
  split; [exact sendMessageToGemini_failures |].
  assert (Hall : forall calls w,
            breakerSound (circuitBreakerState w) ->
            (0 <= failures (circuitBreakerState w) <= 6)%Z ->
            (0 <= failures (circuitBreakerState (runCalls calls w)) <= 6)%Z).
  { induction calls as [| [chat message] rest IH]; intros w Hs Hb;
      cbn [runCalls]; [exact Hb |].
    apply IH.
    - apply sendMessageToGemini_sound. exact Hs.
    - apply sendMessageToGemini_failures; [exact Hs | lia]. }
  intros calls w Hinit. apply Hall; rewrite Hinit.
  - apply closed_zero_sound.
  - cbn. lia.
Qed.

Lemma failure_count_stays_within_six_witness :
  (0 <= failures (circuitBreakerState
                    (snd (sendMessageToGemini primaryChat (js "go") false
                            chattyWorld))) <= 6)%Z
  /\ (0 <= failures (circuitBreakerState
                       (runCalls threeCalls overloadedWorld)) <= 6)%Z.
Proof.
  split.
  - apply (proj1 failure_count_stays_within_six primaryChat (js "go") false
             chattyWorld).
    + unfold breakerSound. cbn. split; [lia |]. split; [discriminate | lia].
    + cbn. lia.
  - apply (proj2 failure_count_stays_within_six threeCalls overloadedWorld).
    reflexivity.
Defined.

(** The bound is reached: the third call of an outage finds four failures,
    is let in, and both its loops record their failure. *)
Example third_call_counts_six :
  failures (circuitBreakerState (runCalls threeCalls overloadedWorld)) = 6%Z
  /\ isOpen (circuitBreakerState (runCalls threeCalls overloadedWorld)) = true.
Proof. vm_compute. split; reflexivity. Qed.

(** ** The cap on the delay is never reached *)

Lemma segment_refl (P : Event -> Prop) (a : World) : segment P a a.
Proof. exists []. rewrite app_nil_r. split; [reflexivity | constructor]. Qed.

Lemma segment_silent (P : Event -> Prop) (a b : World) :
  trace b = trace a -> segment P a b.
Proof.
  intros H. exists []. rewrite app_nil_r. split; [exact H | constructor].
Qed.

Lemma segment_trans (P : Event -> Prop) (a b c : World) :
  segment P a b -> segment P b c -> segment P a c.
Proof.
  intros (e1 & H1 & F1) (e2 & H2 & F2). exists (e1 ++ e2).
  rewrite H2, H1, app_assoc. split; [reflexivity |].
  apply Forall_app. split; assumption.
Qed.

Lemma segment_one (P : Event -> Prop) (a b : World) (e : Event) :
  trace b = trace a ++ [e] -> P e -> segment P a b.
Proof.
  intros H He. exists [e]. split; [exact H |]. constructor; [exact He |].
  constructor.
Qed.

Lemma check_segment (w w1 : World) (r : Completion bool) :
  checkCircuitBreaker w = (r, w1) ->
  segment shortDelay w w1 /\ randomSource w1 = randomSource w.
Proof.
  intros E.
  destruct (checkCircuitBreaker_cases w)
    as [[Ho E'] | [[Ho [Hc E']] | [Ho [Hc E']]]];
    rewrite E' in E; inversion E; subst; split; try reflexivity.
  - apply segment_silent. reflexivity.
  - apply segment_silent. reflexivity.
  - apply (segment_one _ _ _ EvBreakerReset); [reflexivity | exact I].
Qed.

Lemma backoff_short (r : Q) (attempt : nat) :
  0 <= r -> r < 1 -> (attempt <= 2)%nat -> delayMsOf r attempt <= 5200.
Proof.
  intros H0 H1 Ha.
  destruct (delayMsOf_le r attempt H0 H1) as [_ Hle].
  assert (Hb : inject_Z (backoffBase attempt) <= 4000).
  { change 4000 with (inject_Z 4000). rewrite <- Zle_Qle.
    destruct attempt as [| [| [| n]]]; [cbn; lia | cbn; lia | cbn; lia | lia]. }
  lra.
Qed.

Lemma LoopRun_delays (chat : Chat) (message : jsstring) (k attempt : nat)
  (lastError : option jsstring) (w : World)
  (r : Completion (option GameAIResponse)) (w' : World) :
  LoopRun chat message k attempt lastError w r w' ->
  (attempt + k = S (maxRetries RETRY_CONFIG))%nat ->
  unitRandom (randomSource w) ->
  segment shortDelay w w'.
Proof.
  cbn [maxRetries RETRY_CONFIG].
  induction 1 as [attempt le w | k attempt le w text Hp He
                  | k attempt le w c t r Hp Hr | k attempt le w m Hp Hm
                  | k attempt le w m Hp H1 H2 H3
                  | k attempt le w error Hp Hr Ha
                  | k attempt le w error r w' Hp Hr Ha Hrun IH];
    intros Hsum Hrnd.
  - apply segment_refl.
  - apply (segment_one _ _ _ (EvSendMessage chat message));
      [reflexivity | exact I].
  - apply (segment_trans _ _ (afterSend chat message w)).
    + apply (segment_one _ _ _ (EvSendMessage chat message));
        [reflexivity | exact I].
    + apply (segment_one _ _ _ EvRecordSuccess);
        [apply afterSuccess_trace | exact I].
  - apply (segment_one _ _ _ (EvSendMessage chat message));
      [reflexivity | exact I].
  - apply (segment_one _ _ _ (EvSendMessage chat message));
      [reflexivity | exact I].
  - apply (segment_trans _ _ (afterSend chat message w)).
    + apply (segment_one _ _ _ (EvSendMessage chat message));
        [reflexivity | exact I].
    + apply (segment_one _ _ _ EvRecordFailure);
        [apply afterFailure_trace | exact I].
  - cbn [maxRetries RETRY_CONFIG] in Ha.
    apply (segment_trans _ _ (afterSend chat message w)).
    + apply (segment_one _ _ _ (EvSendMessage chat message));
        [reflexivity | exact I].
    + apply (segment_trans _ _ (afterBackoff attempt (afterSend chat message w))).
      * apply (segment_one _ _ _
                 (EvDelay (delayMsOf (randomSource w (randomReads w))
                             attempt))); [reflexivity |].
        cbn [shortDelay]. destruct (Hrnd (randomReads w)) as [R0 R1].
        apply backoff_short; [assumption | assumption | lia].
      * apply IH; [lia | exact Hrnd].
Qed.

Lemma LeafRun_delays (chat : Chat) (message : jsstring) (w : World)
  (r : Completion (option GameAIResponse)) (w' : World) :
  LeafRun chat message w r w' ->
  unitRandom (randomSource w) -> segment shortDelay w w'.
Proof.
  destruct 1 as [w w1 E | w w1 r w' E Hrun]; intros Hrnd;
    destruct (check_segment _ _ _ E) as [Hseg Hr].
  - exact Hseg.
  - apply (segment_trans _ _ w1); [exact Hseg |].
    apply (LoopRun_delays _ _ _ _ _ _ _ _ Hrun); [reflexivity |].
    rewrite Hr. exact Hrnd.
Qed.

Lemma sendMessageToGemini_delays (chat : Chat) (message : jsstring)
  (useFallback : bool) (w : World) :
  unitRandom (randomSource w) ->
  segment shortDelay w (snd (sendMessageToGemini chat message useFallback w)).
Proof.
  intros Hrnd. destruct useFallback.
  - apply (LeafRun_delays _ _ _ _ _
             (sendMessageToGemini_leaf_run chat message w) Hrnd).
  - pose proof (sendMessageToGemini_top_run chat message w) as Hrun.
    destruct Hrun as [w w1 r w' E Hleaf | w w1 r w' E Hne Hrun
                      | w w1 error v w' E Hp He Hleaf
                      | w w1 error e wf r w' E Hp He Hleaf Hrun];
      destruct (check_segment _ _ _ E) as [Hseg Hr];
      apply (segment_trans _ _ w1); try exact Hseg.
    + apply (segment_trans _ _ (afterCreate w1)).
      * apply (segment_one _ _ _ (EvCreateChat (fallbackChatOf w1)));
          [reflexivity | exact I].
      * apply (LeafRun_delays _ _ _ _ _ Hleaf). cbn. rewrite Hr. exact Hrnd.
    + apply (LoopRun_delays _ _ _ _ _ _ _ _ Hrun); [reflexivity |].
      rewrite Hr. exact Hrnd.
    + apply (segment_trans _ _ (afterSend chat message w1)).
      * apply (segment_one _ _ _ (EvSendMessage chat message));
          [reflexivity | exact I].
      * apply (segment_trans _ _ (afterCreate (afterSend chat message w1))).
        -- apply (segment_one _ _ _
                    (EvCreateChat (fallbackChatOf (afterSend chat message w1))));
             [reflexivity | exact I].
        -- apply (LeafRun_delays _ _ _ _ _ Hleaf). cbn. rewrite Hr.
           exact Hrnd.
    + destruct (LeafRun_frame _ _ _ _ _ Hleaf) as [_ Hrl].
      cbn [afterCreate createChatSession snd afterSend randomSource] in Hrl.
      apply (segment_trans _ _ (afterSend chat message w1)).
      * apply (segment_one _ _ _ (EvSendMessage chat message));
          [reflexivity | exact I].
      * apply (segment_trans _ _ (afterCreate (afterSend chat message w1))).
        -- apply (segment_one _ _ _
                    (EvCreateChat (fallbackChatOf (afterSend chat message w1))));
             [reflexivity | exact I].
        -- apply (segment_trans _ _ wf).
           ++ apply (LeafRun_delays _ _ _ _ _ Hleaf). cbn. rewrite Hr.
              exact Hrnd.
           ++ apply (segment_trans _ _ (afterBackoff 0 wf)).
              ** apply (segment_one _ _ _
                          (EvDelay (delayMsOf (randomSource wf (randomReads wf))
                                      0))); [reflexivity |].
                 cbn [shortDelay]. rewrite Hrl, Hr.
                 destruct (Hrnd (randomReads wf)) as [R0 R1].
                 apply backoff_short; [assumption | assumption | lia].
              ** apply (LoopRun_delays _ _ _ _ _ _ _ _ Hrun); [reflexivity |].
                 cbn [afterBackoff randomSource]. rewrite Hrl, Hr.
                 exact Hrnd.
Qed.

(** X20. With random numbers in the interval from 0 to 1, no delay of a
    call is longer than 5200 ms: the loop sleeps after the attempts 0, 1
    and 2 only, whose base delays are 1000, 2000 and 4000 ms, so the cap
    [maxDelay] of 8000 ms is never what limits a delay. *)
Theorem no_delay_reaches_the_cap (chat : Chat) (message : jsstring)
  (useFallback : bool) (w : World) :
  unitRandom (randomSource w) ->
  Forall shortDelay
    (callEvents w (snd (sendMessageToGemini chat message useFallback w)))
  /\ forall ms,
       In (EvDelay ms)
          (callEvents w (snd (sendMessageToGemini chat message useFallback w)))
       -> ms < inject_Z (maxDelay RETRY_CONFIG).
Proof.
  intros Hrnd.
  destruct (sendMessageToGemini_delays chat message useFallback w Hrnd)
    as (evs & Ht & Hall).
  rewrite (callEvents_app _ _ _ Ht). split; [exact Hall |].
  intros ms Hin. rewrite Forall_forall in Hall.
  specialize (Hall _ Hin). cbn [shortDelay] in Hall.
  cbn [maxDelay RETRY_CONFIG].
  apply (Qle_lt_trans _ 5200); [exact Hall | reflexivity].
Qed.

Lemma no_delay_reaches_the_cap_witness :
  Forall shortDelay
    (callEvents overloadedWorld
       (snd (sendMessageToGemini primaryChat (js "go") false
               overloadedWorld))).
Proof.
  apply (no_delay_reaches_the_cap primaryChat (js "go") false
           overloadedWorld).
  intros i. cbn. split; [apply Qle_refl | reflexivity].
Defined.

(** ** The quota marker *)








(** The other markers are looked for as they are written. *)
Example other_markers_keep_case :
  isRetryableError (js "Service Unavailable") = false
  /\ isRetryableError (js "UNAVAILABLE") = true
  /\ isInvalidApiKey (js "api key not valid") = false.
Proof. vm_compute. repeat split; reflexivity. Qed.

(** ** Breaker writes per call *)











(** The write of the fallback invocation stays: after five overloaded
    requests the primary call ends on an answer without text, or on an error
    that is not retryable, with one failure recorded. *)
Example overload_then_silence_records_once :
  let run1 := sendMessageToGemini primaryChat (js "go") false
                overloadThenSilentWorld in
  let run2 := sendMessageToGemini primaryChat (js "go") false
                overloadThenNotFoundWorld in
  fst run1 = Return None
  /\ count isRecord (callEvents overloadThenSilentWorld (snd run1)) = 1%nat
  /\ failures (circuitBreakerState (snd run1)) = 1%Z
  /\ fst run2 = Throw error404
  /\ count isRecord (callEvents overloadThenNotFoundWorld (snd run2)) = 1%nat
  /\ failures (circuitBreakerState (snd run2)) = 1%Z.
Proof. vm_compute. repeat split; reflexivity. Qed.
